(** * Total Agatston extractor: OCR table locator and layout pattern matcher

    A shallow embedding of [agatson/Total_Agatston_Extractor.py] and of the
    pattern matching part of [agatson/Total_Agatston_Pattern_Extractor.py],
    with the properties of both stated and proved over it.

    Conventions of the embedding.
    - A Python [int] is a [Z]; [int(s)] of a string of decimal digits is the
      number that the string denotes, whatever its length.
    - A Python [float] is read as the exact rational it denotes ([Q]).  Every
      coordinate that enters a float is an integer or a half-integer, so
      [center_x], [center_y] and their sums are exact; the only operation
      that can round is the division of the column mean, by far less than
      the least gap between two different distances of half-integer points
      to a mean of fewer than 2^20 of them.
    - A Python [str] is a list of characters.  The characters are the code
      points below 256 and, beyond them, the decimal digits of six further
      scripts (Arabic-Indic, extended Arabic-Indic, Devanagari, Bengali, Thai
      and fullwidth); on them the classes [\s], [\d] and [[0-9]], the test
      [str.isdigit] and the mapping [str.lower] are the tables written out
      in [Text] and [Hotkey].  A [str] pattern is matched by Unicode rules:
      [\d] matches the decimal digits of every script, [[0-9]] the ten
      digits 0 to 9 only.  Other characters are outside the embedding.
    - A raised [ValueError] is a value of [error]; a function that may raise
      returns a [result].
    - Object identity ([is]) of the words of one OCR pass is the position of
      the word in the list that [extract_words] built.
    - Of the log, the records that [extract_total_agatston_score] itself
      writes at level INFO or WARNING are kept; DEBUG records are not. *)

From Stdlib Require Import ZArith QArith Qabs List Ascii String Bool Lia Lqa.
From Stdlib Require Import Permutation Sorted.
Import ListNotations.

Set Implicit Arguments.

Local Close Scope Q_scope.
Local Open Scope Z_scope.

(** ** Python values *)

(** Characters: a code point below 256, or a decimal digit (general
    category Nd) of another script. *)
Inductive script : Set :=
| ArabicIndic
| ExtendedArabicIndic
| Devanagari
| Bengali
| Thai
| Fullwidth.

Inductive digit : Set := D0 | D1 | D2 | D3 | D4 | D5 | D6 | D7 | D8 | D9.

Inductive pychar : Set :=
| Latin (a : ascii)
| Decimal (s : script) (d : digit).

Coercion Latin : ascii >-> pychar.

Definition pystr := list pychar.

Definition str (s : string) : pystr := map Latin (list_ascii_of_string s).

(** The [ValueError]s of the two scripts, named by what they report.
    - [NoTextRecognized]: "OCR 결과에서 텍스트를 찾지 못했습니다."
    - [RowLabelNotFound]: "'Total' 단어를 찾지 못했습니다."
    - [ColumnLabelNotFound]: "'Agatston' 열을 찾지 못했습니다."
    - [NoIntersectionValue]: "Total 행과 Agatston 열의 교차점에서 숫자를 찾지 못했습니다."
    - [NoPatternMatched]: "어느 패턴과도 일치하지 않습니다. ..."
    - [MaxOfEmptySequence]: what the builtin [max] raises on an empty iterable. *)
Inductive error : Set :=
| NoTextRecognized
| RowLabelNotFound
| ColumnLabelNotFound
| NoIntersectionValue
| NoPatternMatched
| MaxOfEmptySequence.

Inductive result (A : Type) : Type :=
| Ok (a : A)
| Raise (e : error).

Arguments Ok {A} a.
Arguments Raise {A} e.

Definition bind {A B : Type} (m : result A) (k : A -> result B) : result B :=
  match m with
  | Ok a => k a
  | Raise e => Raise e
  end.

Notation "x <- m ;; k" := (bind m (fun x => k))
  (at level 61, m at next level, right associativity).

(** ** Text primitives: [str.strip], [str.lower], [re.sub], [re.search] *)

Module Text.

(** Code point of the digit zero of a script: U+0660, U+06F0, U+0966,
    U+09E6, U+0E50 and U+FF10. *)
Definition zero_of (s : script) : N :=
  match s with
  | ArabicIndic => 1632
  | ExtendedArabicIndic => 1776
  | Devanagari => 2406
  | Bengali => 2534
  | Thai => 3664
  | Fullwidth => 65296
  end.

Definition rank (d : digit) : N :=
  match d with
  | D0 => 0 | D1 => 1 | D2 => 2 | D3 => 3 | D4 => 4
  | D5 => 5 | D6 => 6 | D7 => 7 | D8 => 8 | D9 => 9
  end.

(** [ord(c)] *)
Definition code (c : pychar) : N :=
  match c with
  | Latin a => N_of_ascii a
  | Decimal s d => zero_of s + rank d
  end.

(** Equality of two characters is equality of their code points. *)
Definition pychar_eqb (c d : pychar) : bool := (code c =? code d)%N.

(** [\s] of a [str] pattern and the characters removed by [str.strip()]. *)
Definition is_space (c : pychar) : bool :=
  let n := code c in
  ((9 <=? n) && (n <=? 13) || (28 <=? n) && (n <=? 32)
   || (n =? 133) || (n =? 160))%N.

(** The class [[0-9]]. *)
Definition is_ascii_digit (c : pychar) : bool :=
  let n := code c in ((48 <=? n) && (n <=? 57))%N.

(** [\d] of a [str] pattern: a decimal digit of any script. *)
Definition is_digit (c : pychar) : bool :=
  match c with
  | Latin _ => is_ascii_digit c
  | Decimal _ _ => true
  end.

Definition is_upper (c : pychar) : bool :=
  let n := code c in
  ((65 <=? n) && (n <=? 90)
   || (192 <=? n) && (n <=? 222) && negb (n =? 215))%N.

Definition lower_char (c : pychar) : pychar :=
  if is_upper c then Latin (ascii_of_N (code c + 32)) else c.

(** [str.lower()] *)
Definition lower (s : pystr) : pystr := map lower_char s.

Fixpoint lstrip (s : pystr) : pystr :=
  match s with
  | [] => []
  | c :: r => if is_space c then lstrip r else s
  end.

Definition rstrip (s : pystr) : pystr := rev (lstrip (rev s)).

(** [str.strip()] *)
Definition strip (s : pystr) : pystr := rstrip (lstrip s).

(** [re.sub(r"\s+", " ", s)]: every maximal run of white space becomes one
    blank.  [in_run] says that the previous character was white space. *)
Fixpoint collapse (in_run : bool) (s : pystr) : pystr :=
  match s with
  | [] => []
  | c :: r =>
      if is_space c
      then if in_run then collapse true r else Latin " " :: collapse true r
      else c :: collapse false r
  end.

Definition sub_spaces (s : pystr) : pystr := collapse false s.

(** [str.startswith] *)
Fixpoint startswith (s p : pystr) {struct p} : bool :=
  match p, s with
  | [], _ => true
  | _ :: _, [] => false
  | a :: p', b :: s' => pychar_eqb a b && startswith s' p'
  end.

Fixpoint pystr_eqb (s t : pystr) : bool :=
  match s, t with
  | [], [] => true
  | a :: s', b :: t' => pychar_eqb a b && pystr_eqb s' t'
  | _, _ => false
  end.

(** The numeric pattern [[-+]?\d[\d,\.]*]. *)
Definition is_sign (c : pychar) : bool :=
  pychar_eqb c "-"%char || pychar_eqb c "+"%char.

Definition is_tail (c : pychar) : bool :=
  is_digit c || pychar_eqb c ","%char || pychar_eqb c "."%char.

Fixpoint take_while (p : pychar -> bool) (s : pystr) : pystr :=
  match s with
  | [] => []
  | c :: r => if p c then c :: take_while p r else []
  end.

(** The match of the pattern that starts at the head of [s], if there is
    one.  The sign is optional and greedy; when a sign is not followed by a
    digit the engine retries without it, where the sign character itself
    fails [\d].  The tail [[\d,\.]*] is greedy and nothing follows it. *)
Definition match_here (s : pystr) : option pystr :=
  match s with
  | [] => None
  | c :: r =>
      if is_sign c then
        match r with
        | d :: r' =>
            if is_digit d then Some (c :: d :: take_while is_tail r')
            else None
        | [] => None
        end
      else if is_digit c then Some (c :: take_while is_tail r)
      else None
  end.

(** [numeric_pattern.search(s)] followed by [match.group()]: the match at
    the leftmost position that has one. *)
Fixpoint search (s : pystr) : option pystr :=
  match s with
  | [] => None
  | _ :: r =>
      match match_here s with
      | Some m => Some m
      | None => search r
      end
  end.

(** [re.sub(r"[^0-9]", "", m)] *)
Definition sub_non_digits (m : pystr) : pystr := filter is_ascii_digit m.

Definition digit_value (c : pychar) : Z := Z.of_N (code c) - 48.

(** [int(digits)] on a string of decimal digits. *)
Definition py_int (digits : pystr) : Z :=
  fold_left (fun acc c => 10 * acc + digit_value c) digits 0.

End Text.

(** ** [list.sort(key=...)]

    Python's sort is stable and compares only keys.  The stably sorted
    arrangement of a list is unique, so any stable sort denotes it; here it is
    insertion from the right, each element going in front of the first one
    that is not smaller. *)

Section StableSort.

Variable A : Type.
Variable leb : A -> A -> bool.

Fixpoint insert_sorted (a : A) (l : list A) : list A :=
  match l with
  | [] => [a]
  | b :: r => if leb a b then a :: l else b :: insert_sorted a r
  end.

Definition stable_sort (l : list A) : list A :=
  fold_right insert_sorted [] l.

End StableSort.

(** ** Shapes of the search loops

    Both search loops skip the words that give no candidate and keep the
    candidate with the strictly smaller distance. *)

Definition Qltb (a b : Q) : bool := negb (Qle_bool b a).

Definition pick_all {A B : Type} (f : A -> option B) (l : list A) : list B :=
  flat_map (fun a => match f a with Some b => [b] | None => [] end) l.

Definition keep_closer (best : option (Q * Z)) (c : Q * Z) : option (Q * Z) :=
  match best with
  | None => Some c
  | Some b => if Qltb (fst c) (fst b) then Some c else Some b
  end.

(** The two variables [closest_value], [closest_distance] that hold one
    candidate. *)
Definition unzip_state (best : option (Q * Z)) : option Z * option Q :=
  (option_map snd best, option_map fst best).

(** ** [Total_Agatston_Extractor.py] *)

Module Extractor.

Import Text.

Record OCRWord : Type := {
  text : pystr;
  left : Z;
  top : Z;
  width : Z;
  height : Z;
  conf : Q;
  line_num : Z;
  block_num : Z;
  page_num : Z;
  par_num : Z
}.

Definition center_x (w : OCRWord) : Q :=
  (inject_Z (left w) + inject_Z (width w) / 2)%Q.

Definition center_y (w : OCRWord) : Q :=
  (inject_Z (top w) + inject_Z (height w) / 2)%Q.

(** One row of the table that [pytesseract.image_to_data] returns with
    [Output.DICT]: the engine fills every column for every token, so the
    columns are read row by row.  [float(...)] of the confidence cell either
    gives a number or raises [ValueError]/[TypeError]. *)
Inductive conf_cell : Type :=
| ConfNumber (q : Q)
| ConfUnparseable.

Record RawToken : Type := {
  raw_text : pystr;
  raw_conf : conf_cell;
  raw_left : Z;
  raw_top : Z;
  raw_width : Z;
  raw_height : Z;
  raw_line_num : Z;
  raw_block_num : Z;
  raw_page_num : Z;
  raw_par_num : Z
}.

Definition float_or_sentinel (c : conf_cell) : Q :=
  match c with
  | ConfNumber q => q
  | ConfUnparseable => (-1)%Q
  end.

Definition make_word (stripped : pystr) (raw : RawToken) : OCRWord :=
  {| text := stripped;
     left := raw_left raw;
     top := raw_top raw;
     width := raw_width raw;
     height := raw_height raw;
     conf := float_or_sentinel (raw_conf raw);
     line_num := raw_line_num raw;
     block_num := raw_block_num raw;
     page_num := raw_page_num raw;
     par_num := raw_par_num raw |}.

(** Body of the loop of [extract_words]. *)
Definition extract_words_step (words : list OCRWord) (raw : RawToken)
  : list OCRWord :=
  let stripped := strip (raw_text raw) in
  match stripped with
  | [] => words
  | _ :: _ => words ++ [make_word stripped raw]
  end.

Definition extract_words (data : list RawToken) : result (list OCRWord) :=
  let words := fold_left extract_words_step data [] in
  match words with
  | [] => Raise NoTextRecognized
  | _ :: _ => Ok words
  end.

Definition _normalize (s : pystr) : pystr := lower (strip (sub_spaces s)).

(** An [OCRWord] object: its identity and its contents. *)
Definition word_ref : Type := (nat * OCRWord)%type.

Definition ident (o : word_ref) : nat := fst o.
Definition obj (o : word_ref) : OCRWord := snd o.

(** The objects of a word list, identified by position. *)
Definition refs (words : list OCRWord) : list word_ref :=
  combine (seq 0 (List.length words)) words.

Definition is_total (w : OCRWord) : bool :=
  pystr_eqb (_normalize (text w)) (str "total").

Definition is_agatston (w : OCRWord) : bool :=
  startswith (_normalize (text w)) (str "agatston").

Definition find_total_words (words : list word_ref)
  : result (list word_ref) :=
  let total_words := filter (fun w => is_total (obj w)) words in
  match total_words with
  | [] => Raise RowLabelNotFound
  | _ :: _ => Ok total_words
  end.

(** [sum(...)] of floats, from the initial [0]. *)
Definition py_sum (l : list Q) : Q := fold_left Qplus l 0%Q.

Definition find_agatston_column_center (words : list word_ref) : result Q :=
  let agatston_words := filter (fun w => is_agatston (obj w)) words in
  match agatston_words with
  | [] => Raise ColumnLabelNotFound
  | _ :: _ =>
      Ok (py_sum (map (fun w => center_x (obj w)) agatston_words)
          / inject_Z (Z.of_nat (List.length agatston_words)))%Q
  end.

Definition same_line_as (total_word : word_ref) (w : word_ref) : bool :=
  (line_num (obj w) =? line_num (obj total_word))
  && (block_num (obj w) =? block_num (obj total_word)).

(** Body of the inner loop of [extract_candidates]; the state is the pair
    [closest_value], [closest_distance]. *)
Definition closest_step (total_word : word_ref) (agatston_center : Q)
    (st : option Z * option Q) (w : word_ref) : option Z * option Q :=
  if Nat.eqb (ident w) (ident total_word) then st
  else
    match search (text (obj w)) with
    | None => st
    | Some m =>
        let digits := sub_non_digits m in
        match digits with
        | [] => st
        | _ :: _ =>
            let value := py_int digits in
            let distance := Qabs (center_x (obj w) - agatston_center) in
            let closer :=
              match snd st with
              | None => true
              | Some closest_distance => Qltb distance closest_distance
              end in
            if closer then (Some value, Some distance) else st
        end
    end.

(** Body of the outer loop of [extract_candidates]. *)
Definition candidates_step (words : list word_ref) (agatston_center : Q)
    (candidates : list (Q * Z)) (total_word : word_ref) : list (Q * Z) :=
  let same_line := filter (same_line_as total_word) words in
  match fold_left (closest_step total_word agatston_center) same_line
                  (None, None) with
  | (Some closest_value, Some closest_distance) =>
      candidates ++ [(closest_distance, closest_value)]
  | _ => candidates
  end.

Definition extract_candidates (words total_words : list word_ref)
    (agatston_center : Q) : list (Q * Z) :=
  fold_left (candidates_step words agatston_center) total_words [].

(** Body of the loop of [fallback_search]; the state is [best]. *)
Definition fallback_step (agatston_center : Q) (y_threshold : Z)
    (best : option (Q * Z)) (w : word_ref) : option (Q * Z) :=
  match search (text (obj w)) with
  | None => best
  | Some m =>
      let digits := sub_non_digits m in
      match digits with
      | [] => best
      | _ :: _ =>
          let distance_x := Qabs (center_x (obj w) - agatston_center) in
          let distance_y := Qabs (center_y (obj w)) in
          if Qltb (inject_Z y_threshold) distance_y then best
          else
            let value := py_int digits in
            let candidate := (distance_x, value) in
            match best with
            | None => Some candidate
            | Some b =>
                if Qltb (fst candidate) (fst b) then Some candidate
                else best
            end
      end
  end.

Definition fallback_search (words : list word_ref) (agatston_center : Q)
    (y_threshold : Z) : option Z :=
  match fold_left (fallback_step agatston_center y_threshold) words None with
  | Some best => Some (snd best)
  | None => None
  end.

(** Default of the parameter [y_threshold] of [fallback_search]. *)
Definition y_threshold_default : Z := 30.

(** The records that [extract_total_agatston_score] itself sends to the
    logger at level INFO or WARNING. *)
Inductive log_record : Type :=
| InfoIntersection (best_score : Z)
| WarningFallback
| InfoFallback (fallback_value : Z).

Definition by_distance (a b : Q * Z) : bool := Qle_bool (fst a) (fst b).

Definition extract_total_agatston_score_run (words : list OCRWord)
  : list log_record * result Z :=
  let words := refs words in
  match find_total_words words with
  | Raise e => ([], Raise e)
  | Ok total_words =>
      match find_agatston_column_center words with
      | Raise e => ([], Raise e)
      | Ok agatston_center =>
          let candidates :=
            extract_candidates words total_words agatston_center in
          match candidates with
          | first :: _ =>
              let sorted := stable_sort by_distance candidates in
              let best_score := snd (hd first sorted) in
              ([InfoIntersection best_score], Ok best_score)
          | [] =>
              match fallback_search words agatston_center
                                    y_threshold_default with
              | Some fallback_value =>
                  ([WarningFallback; InfoFallback fallback_value],
                   Ok fallback_value)
              | None => ([WarningFallback], Raise NoIntersectionValue)
              end
          end
      end
  end.

Definition extract_total_agatston_score (words : list OCRWord) : result Z :=
  snd (extract_total_agatston_score_run words).

Definition extract_log (words : list OCRWord) : list log_record :=
  fst (extract_total_agatston_score_run words).

End Extractor.

(** ** [Total_Agatston_Pattern_Extractor.py] *)

Module PatternExtractor.

Record AnchorDefinition : Type := {
  x : Z;
  y : Z;
  color : Z * Z * Z;
  tolerance : Z;
  description : option pystr
}.

Record PatternDefinition : Type := {
  name : pystr;
  anchors : list AnchorDefinition;
  priority : Z
}.

(** A captured screen image.  [pyautogui.screenshot] returns an RGB image,
    or an RGBA one on platforms whose grab keeps the alpha band; the pixel
    of an image is the tuple of its bands at that place. *)
Inductive Mode : Type := RGB | RGBA.

Definition band_count (m : Mode) : nat :=
  match m with
  | RGB => 3
  | RGBA => 4
  end.

Record Image : Type := {
  mode : Mode;
  size : Z * Z;
  band : nat -> Z -> Z -> Z
}.

(** [image.getpixel((px, py))] at a place inside the image. *)
Definition getpixel (image : Image) (xy : Z * Z) : list Z :=
  map (fun b => band image b (fst xy) (snd xy))
      (seq 0 (band_count (mode image))).

(** The builtin [max] over an iterable. *)
Definition py_max (l : list Z) : result Z :=
  match l with
  | [] => Raise MaxOfEmptySequence
  | a :: r => Ok (fold_left Z.max r a)
  end.

Definition _color_within_tolerance (actual expected : list Z)
    (tolerance : Z) : result bool :=
  m <- py_max (map (fun ab => Z.abs (fst ab - snd ab))
                   (combine actual expected)) ;;
  Ok (m <=? tolerance).

Definition color_tuple (c : Z * Z * Z) : list Z :=
  let '(r, g, b) := c in [r; g; b].

Definition in_bounds (image : Image) (xy : Z * Z) : bool :=
  let '(width, height) := size image in
  (0 <=? fst xy) && (fst xy <? width) && (0 <=? snd xy) && (snd xy <? height).

(** The loop of [PatternDefinition.matches] over the anchors, with the
    places at which [getpixel] was called, in call order. *)
Fixpoint check_anchors (image : Image) (origin : Z * Z)
    (anchors : list AnchorDefinition) : list (Z * Z) * result bool :=
  match anchors with
  | [] => ([], Ok true)
  | anchor :: rest =>
      let '(offset_x, offset_y) := origin in
      let rel_x := x anchor - offset_x in
      let rel_y := y anchor - offset_y in
      if negb (in_bounds image (rel_x, rel_y)) then ([], Ok false)
      else
        let pixel := getpixel image (rel_x, rel_y) in
        match _color_within_tolerance pixel (color_tuple (color anchor))
                                      (tolerance anchor) with
        | Raise e => ([(rel_x, rel_y)], Raise e)
        | Ok false => ([(rel_x, rel_y)], Ok false)
        | Ok true =>
            let '(sampled, r) := check_anchors image origin rest in
            ((rel_x, rel_y) :: sampled, r)
        end
  end.

Definition matches_run (self : PatternDefinition) (image : Image)
    (origin : Z * Z) : list (Z * Z) * result bool :=
  match anchors self with
  | [] => ([], Ok true)
  | _ :: _ => check_anchors image origin (anchors self)
  end.

Definition matches (self : PatternDefinition) (image : Image)
    (origin : Z * Z) : result bool :=
  snd (matches_run self image origin).

Definition samples (self : PatternDefinition) (image : Image)
    (origin : Z * Z) : list (Z * Z) :=
  fst (matches_run self image origin).

Record ExtractorConfig : Type := {
  hotkey : pystr;
  monitor_region : option (Z * Z * Z * Z);
  patterns : list PatternDefinition
}.

(** Comparison of two [str] by code points. *)
Definition pychar_compare (c d : pychar) : comparison :=
  (Text.code c ?= Text.code d)%N.

Definition pystr_compare (s t : pystr) : comparison :=
  list_compare pychar_compare s t.

(** Order of the sort key [(p.priority, p.name)]: tuples compare
    lexicographically. *)
Definition key_leb (p q : PatternDefinition) : bool :=
  match priority p ?= priority q with
  | Lt => true
  | Gt => false
  | Eq =>
      match pystr_compare (name p) (name q) with
      | Gt => false
      | _ => true
      end
  end.

(** [a or b] on an optional string: [None] and the empty string are false. *)
Definition py_or (a : option pystr) (b : pystr) : pystr :=
  match a with
  | Some (c :: s) => c :: s
  | _ => b
  end.

(** A sequence of four integers as a tuple; [None] when the length is not
    four. *)
Definition region_of (l : list Z) : option (Z * Z * Z * Z) :=
  match l with
  | [x1; y1; x2; y2] => Some (x1, y1, x2, y2)
  | _ => None
  end.

(** [ExtractorConfig.from_sources] once the JSON sources are read:
    [config_patterns] are the patterns of the configuration file,
    [file_patterns] those of the pattern files, [data_hotkey] and
    [data_monitor_region] the entries of the configuration file.  [None] is a
    [SystemExit]: no pattern at all, or a region that has not four
    numbers. *)
Definition from_sources (config_patterns file_patterns : list PatternDefinition)
    (hotkey_override data_hotkey : option pystr)
    (monitor_region_override data_monitor_region : option (list Z))
  : option ExtractorConfig :=
  let patterns := config_patterns ++ file_patterns in
  match patterns with
  | [] => None
  | _ :: _ =>
      let hotkey := py_or hotkey_override (py_or data_hotkey (str "F8")) in
      let checked_region :=
        match monitor_region_override with
        | Some (v :: r) => option_map Some (region_of (v :: r))
        | _ =>
            match data_monitor_region with
            | Some region_seq => option_map Some (region_of region_seq)
            | None => Some None
            end
        end in
      match checked_region with
      | None => None
      | Some monitor_region =>
          Some {| hotkey := hotkey;
                  monitor_region := monitor_region;
                  patterns := stable_sort key_leb patterns |}
      end
  end.

(** The loop of [PatternExtractor.detect_pattern]. *)
Fixpoint detect_loop (patterns : list PatternDefinition) (screenshot : Image)
    (origin : Z * Z) : list (Z * Z) * result PatternDefinition :=
  match patterns with
  | [] => ([], Raise NoPatternMatched)
  | pattern :: rest =>
      match matches_run pattern screenshot origin with
      | (sampled, Ok true) => (sampled, Ok pattern)
      | (sampled, Ok false) =>
          let '(later, r) := detect_loop rest screenshot origin in
          (sampled ++ later, r)
      | (sampled, Raise e) => (sampled, Raise e)
      end
  end.

Definition detect_pattern (config : ExtractorConfig) (screenshot : Image)
    (origin : Z * Z) : result PatternDefinition :=
  snd (detect_loop (patterns config) screenshot origin).

Definition detect_samples (config : ExtractorConfig) (screenshot : Image)
    (origin : Z * Z) : list (Z * Z) :=
  fst (detect_loop (patterns config) screenshot origin).

End PatternExtractor.

(** ** Vocabulary of the specification

    The notions in which the properties below are stated: what a numeric
    substring is and when it gives a value, which words are row anchors and
    column words, which words qualify on a line or for the fallback, and
    what "the first closest one" means. *)

Module Spec.

Import Text Extractor.

(** The raw token has text left after trimming. *)
Definition kept (r : RawToken) : bool :=
  match strip (raw_text r) with
  | [] => false
  | _ :: _ => true
  end.

(** The word [w] is the raw token [r] with its text trimmed and its
    confidence parsed, [-1] standing for a confidence that does not parse. *)
Definition word_of_token (r : RawToken) (w : OCRWord) : Prop :=
  text w = strip (raw_text r)
  /\ left w = raw_left r /\ top w = raw_top r
  /\ width w = raw_width r /\ height w = raw_height r
  /\ line_num w = raw_line_num r /\ block_num w = raw_block_num r
  /\ page_num w = raw_page_num r /\ par_num w = raw_par_num r
  /\ conf w = match raw_conf r with
              | ConfNumber q => q
              | ConfUnparseable => (-1)%Q
              end.

(** A string that the numeric pattern matches as a whole: an optional
    sign, a digit, then digits, commas and periods. *)
Definition numeric_shape (m : pystr) : Prop :=
  exists sign d tail,
    m = sign ++ d :: tail
    /\ (sign = [] \/ sign = [Latin "-"] \/ sign = [Latin "+"])
    /\ is_digit d = true
    /\ forallb is_tail tail = true.

(** [t] contains a substring that the numeric pattern matches. *)
Definition contains_numeric (t : pystr) : Prop :=
  exists pre m post, t = pre ++ m ++ post /\ numeric_shape m.

(** [m] is the first match of the pattern in [t]: no match starts further
    left, and no match from the same start is longer. *)
Definition first_match (t m : pystr) : Prop :=
  exists pre post,
    t = pre ++ m ++ post
    /\ numeric_shape m
    /\ (forall pre1 pre2 m' post',
           pre = pre1 ++ pre2 -> pre2 <> [] ->
           pre2 ++ m ++ post = m' ++ post' -> ~ numeric_shape m')
    /\ (forall m' post',
           m ++ post = m' ++ post' -> numeric_shape m' ->
           (List.length m' <= List.length m)%nat).

(** The text gives a value: the first match of the numeric pattern in it
    holds a digit of [[0-9]]. *)
Definition gives_value (t : pystr) : Prop :=
  exists m, first_match t m /\ exists d, In d m /\ is_ascii_digit d = true.

(** Every character of the text is a code point below 256. *)
Definition latin (t : pystr) : Prop :=
  Forall (fun c => exists a, c = Latin a) t.

(** The integer that the locator reads from a text, when it reads one. *)
Definition numeric_value (t : pystr) : option Z :=
  match search t with
  | None => None
  | Some m =>
      match sub_non_digits m with
      | [] => None
      | digits => Some (py_int digits)
      end
  end.

(** The text of the word contains a numeric substring. *)
Definition has_number (w : OCRWord) : bool :=
  match search (text w) with
  | Some _ => true
  | None => false
  end.

(** The locator reads a value from the word. *)
Definition has_value (w : OCRWord) : bool :=
  match numeric_value (text w) with
  | Some _ => true
  | None => false
  end.

Definition word_value (w : OCRWord) : Z :=
  match numeric_value (text w) with
  | Some v => v
  | None => 0
  end.

Definition row_anchors (words : list OCRWord) : list OCRWord :=
  filter is_total words.

Definition column_words (words : list OCRWord) : list OCRWord :=
  filter is_agatston words.

(** Arithmetic mean of the [center_x] of the column words. *)
Definition column_mean (words : list OCRWord) : Q :=
  (py_sum (map center_x (column_words words))
   / inject_Z (Z.of_nat (List.length (column_words words))))%Q.

Definition same_ocr_line (a w : OCRWord) : bool :=
  (block_num w =? block_num a) && (line_num w =? line_num a).

(** The words on the OCR line of the row anchor [a] that give a value, in
    word order. *)
Definition numbers_on_line (words : list OCRWord) (a : OCRWord)
  : list OCRWord :=
  filter (fun w => same_ocr_line a w && has_value w) words.

Definition contributes (words : list OCRWord) (a : OCRWord) : bool :=
  match numbers_on_line words a with
  | [] => false
  | _ :: _ => true
  end.

(** Horizontal distance of a word to the column reference. *)
Definition distance (c : Q) (w : OCRWord) : Q := Qabs (center_x w - c).

(** The words that qualify for the fallback with threshold [t]. *)
Definition fallback_words (t : Z) (words : list OCRWord) : list OCRWord :=
  filter (fun w => has_value w && Qle_bool (Qabs (center_y w)) (inject_Z t))
         words.

Section FirstMin.

Variable A : Type.
Variable key : A -> Q.

(** [a] is the element of [l] with the least key, the first of them when
    several have it. *)
Definition first_min (l : list A) (a : A) : Prop :=
  exists l1 l2,
    l = l1 ++ a :: l2
    /\ Forall (fun b => (key a < key b)%Q) l1
    /\ Forall (fun b => (key a <= key b)%Q) l2.

End FirstMin.

(** The candidate that the row anchor [a] contributes: distance and value
    of the first closest word on its line that gives a value. *)
Definition row_candidate (words : list OCRWord) (c : Q) (a : OCRWord)
    (cand : Q * Z) : Prop :=
  exists w,
    first_min (distance c) (numbers_on_line words a) w
    /\ fst cand = distance c w
    /\ numeric_value (text w) = Some (snd cand).

(** The candidate that a word with a value stands for. *)
Definition as_candidate (c : Q) (w : OCRWord) : Q * Z :=
  (distance c w, word_value w).

Definition line_pick (c : Q) (w : OCRWord) : option (Q * Z) :=
  if has_value w then Some (as_candidate c w) else None.

Definition fallback_pick (c : Q) (t : Z) (w : OCRWord) : option (Q * Z) :=
  if has_value w && Qle_bool (Qabs (center_y w)) (inject_Z t)
  then Some (as_candidate c w) else None.

(** The first closest candidate on the line of [a], computed from the
    left. *)
Definition row_best (words : list OCRWord) (c : Q) (a : OCRWord)
  : option (Q * Z) :=
  fold_left keep_closer (map (as_candidate c) (numbers_on_line words a)) None.

Import PatternExtractor.

(** The place [xy] lies inside the pixel bounds of the image. *)
Definition inside (image : Image) (xy : Z * Z) : Prop :=
  0 <= fst xy < fst (size image) /\ 0 <= snd xy < snd (size image).

(** The place that an anchor denotes in an image captured at [origin]. *)
Definition local_xy (origin : Z * Z) (a : AnchorDefinition) : Z * Z :=
  (x a - fst origin, y a - snd origin).

(** The order of the keys [(priority, name)]. *)
Definition key_le (p q : PatternDefinition) : Prop :=
  priority p < priority q
  \/ (priority p = priority q /\ pystr_compare (name p) (name q) <> Gt).

(** The image that keeps the red, green and blue bands of [image] only. *)
Definition without_alpha (image : Image) : Image :=
  {| mode := RGB; size := size image; band := band image |}.

End Spec.

(** ** Sample inputs *)

Module Samples.

Import Extractor PatternExtractor.

Definition word (t : string) (l tp w h ln bl : Z) : OCRWord :=
  {| text := str t; left := l; top := tp; width := w; height := h;
     conf := 90%Q; line_num := ln; block_num := bl;
     page_num := 1; par_num := 1 |}.

Definition w_agatston : OCRWord := word "Agatston" 100 0 20 10 1 1.
Definition w_total : OCRWord := word "Total" 0 50 20 10 2 1.
Definition w_far : OCRWord := word "111" 150 50 20 10 2 1.
Definition w_near : OCRWord := word "222" 105 50 20 10 2 1.
Definition w_mid : OCRWord := word "333" 80 50 20 10 2 1.

(** A header line and a "Total" row with three numbers, at horizontal
    distances 50, 5 and 20 from the column. *)
Definition report_row : list OCRWord :=
  [w_agatston; w_total; w_far; w_near; w_mid].

Definition w_decimal : OCRWord := word "1,234.5" 105 50 20 10 2 1.

Definition report_decimal : list OCRWord :=
  [w_agatston; w_total; w_decimal].

(** A crop without numbers on the "Total" line: one signed number near the
    top edge, one number lower down. *)
Definition w_top : OCRWord := word "-42" 160 20 20 10 3 1.
Definition w_low : OCRWord := word "17" 105 26 10 10 4 1.

Definition report_fallback : list OCRWord :=
  [w_agatston; w_total; w_top; w_low].

Definition report_no_value : list OCRWord :=
  [w_agatston; w_total; w_low].

(** A word that reads "٣" (U+0663, the Arabic-Indic digit three) at a given
    place. *)
Definition arabic_three (l tp ln : Z) : OCRWord :=
  {| text := [Decimal ArabicIndic D3]; left := l; top := tp; width := 20;
     height := 10; conf := 90%Q; line_num := ln; block_num := 1;
     page_num := 1; par_num := 1 |}.

(** The word on the "Total" line, and the word near the top edge. *)
Definition w_arabic : OCRWord := arabic_three 105 50 2.
Definition w_arabic_top : OCRWord := arabic_three 105 20 3.

Definition report_arabic : list OCRWord :=
  [w_agatston; w_total; w_arabic].

Definition report_arabic_top : list OCRWord :=
  [w_agatston; w_total; w_arabic_top].

(** "1٣5": a digit of another script between two digits of [[0-9]]. *)
Definition mixed_digits : pystr :=
  [Latin "1"; Decimal ArabicIndic D3; Latin "5"].

Definition token (t : string) (c : conf_cell) (l tp : Z) : RawToken :=
  {| raw_text := str t; raw_conf := c; raw_left := l; raw_top := tp;
     raw_width := 20; raw_height := 10; raw_line_num := 1;
     raw_block_num := 1; raw_page_num := 1; raw_par_num := 1 |}.

(** Engine output with an empty token, a padded token whose confidence does
    not parse, a blank token and an ordinary token. *)
Definition t_total : RawToken := token " Total " ConfUnparseable 0 50.
Definition t_number : RawToken := token "12" (ConfNumber 87%Q) 100 50.

Definition tokens : list RawToken :=
  [token "" (ConfNumber (-1)%Q) 0 0;
   t_total;
   token "   " (ConfNumber 95%Q) 30 50;
   t_number].

(** A uniformly coloured screen of 4 by 3 pixels captured at (10, 20), with
    and without an alpha band. *)
Definition uniform (b : nat) (px py : Z) : Z :=
  match b with
  | O => 100
  | S O => 150
  | S (S O) => 200
  | _ => 255
  end.

Definition screen : Image := {| mode := RGB; size := (4, 3); band := uniform |}.

Definition screen_alpha : Image :=
  {| mode := RGBA; size := (4, 3); band := uniform |}.

Definition origin : Z * Z := (10, 20).

(** An anchor whose red channel is 30 off, an anchor that fits, and an
    anchor left of the captured region. *)
Definition anchor_off : AnchorDefinition :=
  {| x := 11; y := 21; color := (130, 150, 200); tolerance := 20;
     description := None |}.

Definition anchor_fit : AnchorDefinition :=
  {| x := 12; y := 22; color := (110, 140, 200); tolerance := 20;
     description := None |}.

Definition anchor_outside : AnchorDefinition :=
  {| x := 9; y := 21; color := (100, 150, 200); tolerance := 20;
     description := None |}.

Definition p_strict : PatternDefinition :=
  {| name := str "strict"; anchors := [anchor_off]; priority := 0 |}.

Definition p_default : PatternDefinition :=
  {| name := str "default"; anchors := []; priority := 1 |}.

Definition p_alpha : PatternDefinition :=
  {| name := str "alpha"; anchors := [anchor_fit]; priority := 1 |}.

Definition p_outside : PatternDefinition :=
  {| name := str "outside"; anchors := [anchor_fit; anchor_outside];
     priority := 0 |}.

(** The configuration built from the catch-all pattern of a configuration
    file, the strict pattern of a pattern file and a region override. *)
Definition config : ExtractorConfig :=
  {| hotkey := str "F8"; monitor_region := Some (1920, 0, 3840, 1080);
     patterns := [p_strict; p_default] |}.

End Samples.

(** ** Further vocabulary

    Notions for the properties of the code beside the claims. *)

Module More.

Import Text Extractor PatternExtractor Spec.

(** The anchor lies inside the image and each of the first three bands of
    the pixel at its place is within the tolerance of the expected colour. *)
Definition anchor_passes (image : Image) (origin : Z * Z)
    (a : AnchorDefinition) : Prop :=
  inside image (local_xy origin a)
  /\ let '(r, g, b) := color a in
     let px := fst (local_xy origin a) in
     let py := snd (local_xy origin a) in
     Z.abs (band image 0 px py - r) <= tolerance a
     /\ Z.abs (band image 1 px py - g) <= tolerance a
     /\ Z.abs (band image 2 px py - b) <= tolerance a.

(** The anchor [a'] is the anchor [a] with a tolerance that is not smaller. *)
Definition loosened (a a' : AnchorDefinition) : Prop :=
  x a' = x a /\ y a' = y a /\ color a' = color a
  /\ tolerance a <= tolerance a'.

(** The two words agree on everything but the confidence and the page and
    paragraph indices. *)
Definition same_layout (w w' : OCRWord) : Prop :=
  text w = text w' /\ left w = left w' /\ top w = top w'
  /\ width w = width w' /\ height w = height w'
  /\ line_num w = line_num w' /\ block_num w = block_num w'.

(** The word with confidence and page and paragraph indices blanked. *)
Definition layout_of (w : OCRWord) : OCRWord :=
  {| text := text w; left := left w; top := top w; width := width w;
     height := height w; conf := 0%Q; line_num := line_num w;
     block_num := block_num w; page_num := 0; par_num := 0 |}.

(** The string has no white space at either end. *)
Definition trimmed (s : pystr) : Prop :=
  match s with
  | [] => True
  | c :: _ => is_space c = false /\ is_space (last s c) = false
  end.

(** The pattern [q] has the sort key (priority, name) of [p]. *)
Definition same_key (p q : PatternDefinition) : bool :=
  (priority q =? priority p) && pystr_eqb (name q) (name p).

(** The pattern matches the image. *)
Definition matching (image : Image) (origin : Z * Z) (p : PatternDefinition)
  : bool :=
  match matches p image origin with
  | Ok true => true
  | _ => false
  end.

End More.

(** ** [normalize_hotkey] of [Total_Agatston_Pattern_Extractor.py] *)

Module Hotkey.

Import Text.

(** [s.split("+")] *)
Fixpoint split_plus (s : pystr) : list pystr :=
  match s with
  | [] => [[]]
  | c :: r =>
      if pychar_eqb c "+"%char then [] :: split_plus r
      else
        match split_plus r with
        | t :: ts => (c :: t) :: ts
        | [] => [[c]]
        end
  end.

(** ["+".join(l)] *)
Fixpoint join_plus (l : list pystr) : pystr :=
  match l with
  | [] => []
  | t :: ts =>
      match ts with
      | [] => t
      | _ :: _ => t ++ Latin "+" :: join_plus ts
      end
  end.

(** The dictionary [key_map], and [k in d] with [d[k]]. *)
Definition key_map : list (pystr * pystr) :=
  [(str "ctrl", str "<ctrl>");
   (str "control", str "<ctrl>");
   (str "shift", str "<shift>");
   (str "alt", str "<alt>");
   (str "option", str "<alt>");
   (str "command", str "<cmd>");
   (str "cmd", str "<cmd>");
   (str "win", str "<cmd>")].

Fixpoint dict_get (k : pystr) (d : list (pystr * pystr)) : option pystr :=
  match d with
  | [] => None
  | (k', v) :: r => if pystr_eqb k k' then Some v else dict_get k r
  end.

(** The characters for which [str.isdigit] holds: below code point 256
    [0-9] and the superscripts two, three and one, and every decimal digit
    of another script. *)
Definition is_digit_char (c : pychar) : bool :=
  match c with
  | Latin _ =>
      let n := code c in
      ((48 <=? n) && (n <=? 57) || (n =? 178) || (n =? 179) || (n =? 185))%N
  | Decimal _ _ => true
  end.

(** [s.isdigit()] *)
Definition isdigit (s : pystr) : bool :=
  match s with
  | [] => false
  | _ :: _ => forallb is_digit_char s
  end.

(** Body of the loop over the tokens: what is appended for [token]. *)
Definition normalize_token (token : pystr) : pystr :=
  match dict_get token key_map with
  | Some mapped => mapped
  | None =>
      if startswith token (str "f") && isdigit (tl token)
      then Latin "<" :: token ++ [Latin ">"]
      else if Nat.eqb (List.length token) 1 then token
      else token
  end.

Definition hotkey_tokens (hotkey : pystr) : list pystr :=
  map (fun token => lower (strip token))
      (filter (fun token => match strip token with
                            | [] => false
                            | _ :: _ => true
                            end)
              (split_plus hotkey)).

(** [normalize_hotkey]; [None] is the [ValueError] raised when no token is
    left. *)
Definition normalize_hotkey (hotkey : pystr) : option pystr :=
  match hotkey_tokens hotkey with
  | [] => None
  | tokens => Some (join_plus (map normalize_token tokens))
  end.

End Hotkey.

(** ** The drivers: [main] of [Total_Agatston_Extractor.py] and
    [PatternExtractor.process_once]

    The platform (argument parser, screen capture, OCR engine, alert box,
    file system, clock) is a record of functions.  A driver returns the
    trace of what it asked of the platform and of what it logged at level
    WARNING or ERROR, with its outcome; the records logged at INFO or DEBUG
    are left out.  The screen capture and the OCR engine are taken to
    return; the alert box may raise.  A keyboard interrupt can reach [main]
    at any moment: where it does, if it does, is an argument of [main]. *)

Module Driver.

Import Text Extractor PatternExtractor.

Definition region : Type := (Z * Z * Z * Z)%type.

(** The namespace that [parse_args] returns.  The option [--region] is
    declared with [nargs=4] and [type=int]: it is absent or holds four
    integers. *)
Record Args : Type := {
  arg_region : option region;
  arg_screenshot_path : option pystr;
  arg_tesseract_path : option pystr;
  arg_no_popup : bool;
  arg_debug : bool
}.

Record Platform : Type := {
  (* [parser.parse_args(argv)] of [Total_Agatston_Extractor.py]; [None] when
     argparse leaves by [SystemExit]: a usage error, or [--help] *)
  parse_args : list pystr -> option Args;
  (* [pyautogui.screenshot(region=(left, top, width, height))], and
     [pyautogui.screenshot()] for [None] *)
  grab : option region -> Image;
  (* [pytesseract.image_to_data(image, output_type=Output.DICT)], by rows *)
  image_to_data : Image -> list RawToken;
  (* [pyautogui.alert(message)] with the message of a score: [true] when it
     returns, [false] when it raises an exception of class [Exception] *)
  alert : Z -> bool;
  (* [os.path.expandvars] and [os.path.exists] *)
  expandvars : pystr -> pystr;
  path_exists : pystr -> bool;
  (* [os.name == "nt"] *)
  os_name_nt : bool;
  (* [time.time()] as [process_once] reads it *)
  time_time : Q
}.

(** The exceptions of class [Exception] that the drivers can meet: the
    [ValueError]s of extraction and detection, and those of the region
    checks. *)
Inductive failure : Type :=
| Extraction (e : error)
| RegionArity
| BadRegion
| BadMonitorRegion.

Inductive event : Type :=
| Grabbed (r : option region)
| Saved
| Recognised
| TesseractSet (cmd : pystr)
| Printed (score : Z)
| Alerted (score : Z)
| WarnedNoTesseract
| WarnedFallback
| WarnedPopup
| WarnedBusy
| LoggedError (f : failure).

(** How a call ends: with a value, with an exception of class [Exception],
    or with [SystemExit]. *)
Inductive outcome (A : Type) : Type :=
| Done (a : A)
| Raised (f : failure)
| SystemExit.

Arguments Done {A} a.
Arguments Raised {A} f.
Arguments SystemExit {A}.

Definition act (A : Type) : Type := (list event * outcome A)%type.

Definition ret {A : Type} (a : A) : act A := ([], Done a).

Definition seq_act {A B : Type} (m : act A) (k : A -> act B) : act B :=
  match m with
  | (ev, Done a) => let '(ev', o) := k a in (ev ++ ev', o)
  | (ev, Raised f) => (ev, Raised f)
  | (ev, SystemExit) => (ev, SystemExit)
  end.

Definition lift {A : Type} (r : result A) : act A :=
  match r with
  | Ok a => ([], Done a)
  | Raise e => ([], Raised (Extraction e))
  end.

Definition DEFAULT_REPORT_REGION : region := (3195, 1830, 3237, 1846).

Definition WINDOWS_TESSERACT_PATHS : list pystr :=
  [str "C:\\Program Files\\Tesseract-OCR\\tesseract.exe";
   str "C:\\Program Files (x86)\\Tesseract-OCR\\tesseract.exe"].

(** [any(t)] for a tuple of four integers. *)
Definition any4 (t : region) : bool :=
  let '(a, b, c, d) := t in
  negb (a =? 0) || negb (b =? 0) || negb (c =? 0) || negb (d =? 0).

Definition ensure_region (r : option (list Z)) : act region :=
  match r with
  | Some l =>
      match region_of l with
      | Some t => ret t
      | None => ([], Raised RegionArity)
      end
  | None =>
      if any4 DEFAULT_REPORT_REGION then ret DEFAULT_REPORT_REGION
      else ([], SystemExit)
  end.

Definition configure_tesseract (pf : Platform) (path : option pystr)
  : act unit :=
  match path with
  | Some (c :: p) =>
      let expanded := expandvars pf (c :: p) in
      if path_exists pf expanded then ([TesseractSet expanded], Done tt)
      else ([], SystemExit)
  | _ =>
      if os_name_nt pf then
        match find (path_exists pf) WINDOWS_TESSERACT_PATHS with
        | Some candidate => ([TesseractSet candidate], Done tt)
        | None => ([WarnedNoTesseract], Done tt)
        end
      else ret tt
  end.

Definition capture_region (pf : Platform) (r : region)
    (screenshot_path : option pystr) : act Image :=
  let '(x1, y1, x2, y2) := r in
  if (x2 <=? x1) || (y2 <=? y1) then ([], Raised BadRegion)
  else
    let width := x2 - x1 in
    let height := y2 - y1 in
    let shot := Some (x1, y1, width, height) in
    let image := grab pf shot in
    match screenshot_path with
    | Some (_ :: _) => ([Grabbed shot; Saved], Done image)
    | _ => ([Grabbed shot], Done image)
    end.

(** [extract_words(image)]: the OCR call and the construction of the
    words. *)
Definition recognise (pf : Platform) (image : Image) : act (list OCRWord) :=
  seq_act ([Recognised], Done tt)
          (fun _ => lift (extract_words (image_to_data pf image))).

(** The warnings among the records of the extraction. *)
Definition warnings (log : list log_record) : list event :=
  flat_map (fun r => match r with
                     | WarningFallback => [WarnedFallback]
                     | _ => []
                     end) log.

(** [extract_total_agatston_score(words)] with what it logs. *)
Definition extract_score (words : list OCRWord) : act Z :=
  (warnings (extract_log words),
   snd (lift (extract_total_agatston_score words))).

Definition show_result (pf : Platform) (score : Z) (use_popup : bool)
  : act unit :=
  if use_popup then
    if alert pf score then ([Printed score; Alerted score], Done tt)
    else ([Printed score; Alerted score; WarnedPopup], Done tt)
  else ([Printed score], Done tt).

(** The list that argparse stores for [--region]. *)
Definition region_list (r : region) : list Z :=
  let '(x1, y1, x2, y2) := r in [x1; y1; x2; y2].

(** The region that [main] captures: the one asked for, or the default. *)
Definition requested_region (args : Args) : region :=
  match arg_region args with
  | Some r => r
  | None => DEFAULT_REPORT_REGION
  end.

(** The [try] block of [main]. *)
Definition main_body (pf : Platform) (args : Args) : act Z :=
  seq_act (ensure_region (option_map region_list (arg_region args))) (fun r =>
  seq_act (configure_tesseract pf (arg_tesseract_path args)) (fun _ =>
  seq_act (capture_region pf r (arg_screenshot_path args)) (fun image =>
  seq_act (recognise pf image) (fun words =>
  seq_act (extract_score words) (fun score =>
  seq_act (show_result pf score (negb (arg_no_popup args))) (fun _ =>
  ret 0)))))).

(** Where a keyboard interrupt reaches [main], if one does: before the
    [try] block is entered, in the [try] block after [k] of its events, or
    in the handler of [except Exception], after or before the error is
    logged.  An interrupt that would come later than [main] ends does not
    reach it. *)
Inductive interrupt : Type :=
| NoInterrupt
| BeforeTry
| InTry (k : nat)
| InHandler (logged : bool).

(** How [main] ends: [return code], the [SystemExit] that leaves it, or
    the [KeyboardInterrupt] that leaves it. *)
Inductive ending : Type :=
| Returns (code : Z)
| Exits
| Interrupted.

(** The end of [main] when its [try] block ends with [o] and no interrupt
    comes. *)
Definition ends (ev : list event) (o : outcome Z) : list event * ending :=
  match o with
  | Done code => (ev, Returns code)
  | Raised f => (ev ++ [LoggedError f], Returns 1)
  | SystemExit => (ev, Exits)
  end.

Definition main (pf : Platform) (argv : list pystr) (intr : interrupt)
  : list event * ending :=
  match intr, parse_args pf argv with
  | BeforeTry, _ => ([], Interrupted)
  | _, None => ([], Exits)
  | _, Some args =>
      let '(ev, o) := main_body pf args in
      match intr with
      | InTry k =>
          if (k <=? List.length ev)%nat then (firstn k ev, Returns 130)
          else ends ev o
      | InHandler logged =>
          match o with
          | Raised f =>
              (if logged then ev ++ [LoggedError f] else ev, Interrupted)
          | _ => ends ev o
          end
      | _ => ends ev o
      end
  end.

(** A [PatternExtractor] object: its configuration, whether its lock is
    held, and the time of its last run. *)
Record PatternExtractorObj : Type := {
  config : ExtractorConfig;
  use_popup : bool;
  debug_dir : option pystr;
  _lock : bool;
  _last_capture_at : option Q
}.

Definition with_lock (self : PatternExtractorObj) (held : bool)
  : PatternExtractorObj :=
  {| config := config self; use_popup := use_popup self;
     debug_dir := debug_dir self; _lock := held;
     _last_capture_at := _last_capture_at self |}.

Definition with_last_capture_at (self : PatternExtractorObj) (t : Q)
  : PatternExtractorObj :=
  {| config := config self; use_popup := use_popup self;
     debug_dir := debug_dir self; _lock := _lock self;
     _last_capture_at := Some t |}.

Definition save_debug (self : PatternExtractorObj) : list event :=
  match debug_dir self with
  | Some _ => [Saved]
  | None => []
  end.

Definition capture_monitor (self : PatternExtractorObj) (pf : Platform)
  : act (Image * (Z * Z)) :=
  match monitor_region (config self) with
  | Some (x1, y1, x2, y2) =>
      if (x2 <=? x1) || (y2 <=? y1) then ([], Raised BadMonitorRegion)
      else
        let width := x2 - x1 in
        let height := y2 - y1 in
        let shot := Some (x1, y1, width, height) in
        (Grabbed shot :: save_debug self, Done (grab pf shot, (x1, y1)))
  | None => (Grabbed None :: save_debug self, Done (grab pf None, (0, 0)))
  end.

(** The [try] block of [process_once] after the time is taken. *)
Definition process_body (self : PatternExtractorObj) (pf : Platform)
  : act unit :=
  seq_act (capture_monitor self pf) (fun captured =>
  let '(screenshot, origin) := captured in
  seq_act (lift (detect_pattern (config self) screenshot origin))
          (fun pattern =>
  seq_act (recognise pf screenshot) (fun words =>
  seq_act (extract_score words) (fun score =>
  show_result pf score (use_popup self))))).

(** [process_once]: the trace, the object afterwards, and [true] when an
    exception leaves the call. *)
Definition process_once (self : PatternExtractorObj) (pf : Platform)
  : list event * PatternExtractorObj * bool :=
  if _lock self then ([WarnedBusy], self, false)
  else
    let self := with_lock self true in
    let self := with_last_capture_at self (time_time pf) in
    match process_body self pf with
    | (ev, Done _) => (ev, with_lock self false, false)
    | (ev, Raised f) => (ev ++ [LoggedError f], with_lock self false, false)
    | (ev, SystemExit) => (ev, with_lock self false, true)
    end.

(** The steps that both drivers take after the screenshot: OCR, extraction
    and display. *)
Definition after_capture (pf : Platform) (image : Image) (popup : bool)
  : act unit :=
  seq_act (recognise pf image) (fun words =>
  seq_act (extract_score words) (fun score =>
  show_result pf score popup)).

End Driver.

(** ** Sample inputs for the drivers *)

Module MoreSamples.

Import Extractor PatternExtractor Hotkey Driver.

Definition anchor_negative : AnchorDefinition :=
  {| x := 12; y := 22; color := (100, 150, 200); tolerance := -1;
     description := None |}.

Definition p_negative : PatternDefinition :=
  {| name := str "negative"; anchors := [anchor_negative]; priority := 0 |}.

Definition anchor_loose : AnchorDefinition :=
  {| x := 12; y := 22; color := (110, 140, 200); tolerance := 30;
     description := None |}.

Definition p_loose : PatternDefinition :=
  {| name := str "loose"; anchors := [anchor_loose]; priority := 1 |}.

(** The words of [Samples.report_row] as another engine run reports them:
    other confidences, other page and paragraph indices. *)
Definition reconfided (w : OCRWord) : OCRWord :=
  {| text := text w; left := left w; top := top w; width := width w;
     height := height w; conf := 12%Q; line_num := line_num w;
     block_num := block_num w; page_num := 2; par_num := 7 |}.

Definition report_other_run : list OCRWord :=
  map reconfided Samples.report_row.

Definition w_elsewhere : OCRWord := Samples.word "999" 110 90 20 10 9 1.

Definition token_of (w : OCRWord) : RawToken :=
  {| raw_text := text w; raw_conf := ConfNumber (conf w);
     raw_left := left w; raw_top := top w; raw_width := width w;
     raw_height := height w; raw_line_num := line_num w;
     raw_block_num := block_num w; raw_page_num := page_num w;
     raw_par_num := par_num w |}.

Definition args : Args :=
  {| arg_region := Some (10, 20, 14, 23); arg_screenshot_path := None;
     arg_tesseract_path := None; arg_no_popup := true; arg_debug := false |}.

(** A platform whose parser accepts the empty command line and the command
    line [--no-popup --region 10 20 14 23], whose screen is uniformly
    coloured, whose OCR engine reads the words of [Samples.report_row], and
    on which no Tesseract path exists. *)
Definition argv : list pystr :=
  [str "--no-popup"; str "--region"; str "10"; str "20"; str "14"; str "23"].

Fixpoint same_strings (l l' : list pystr) : bool :=
  match l, l' with
  | [], [] => true
  | s :: r, s' :: r' => Text.pystr_eqb s s' && same_strings r r'
  | _, _ => false
  end.

Definition platform : Platform :=
  {| parse_args := fun l =>
       match l with
       | [] =>
           Some {| arg_region := None; arg_screenshot_path := None;
                   arg_tesseract_path := None; arg_no_popup := false;
                   arg_debug := false |}
       | _ :: _ =>
           if same_strings l argv then Some args else None
       end;
     grab := fun r =>
       match r with
       | Some (_, _, w, h) =>
           {| mode := RGB; size := (w, h); band := Samples.uniform |}
       | None => Samples.screen
       end;
     image_to_data := fun _ => map token_of Samples.report_row;
     alert := fun _ => true;
     expandvars := fun p => p;
     path_exists := fun _ => false;
     os_name_nt := false;
     time_time := 1700000000%Q |}.

Definition extractor : PatternExtractorObj :=
  {| config :=
       {| hotkey := str "F8"; monitor_region := Some (10, 20, 14, 23);
          patterns := [Samples.p_strict; Samples.p_default] |};
     use_popup := false; debug_dir := None; _lock := false;
     _last_capture_at := None |}.

End MoreSamples.

(** * Properties *)

Import Text Extractor PatternExtractor Spec.

Unset Implicit Arguments.

(** ** Characters and strings *)

Ltac by_cases_on_char c :=
  destruct c as [[[] [] [] [] [] [] [] []] | [] []]; vm_compute; intros;
  try reflexivity; try discriminate.

Lemma rank_bound (d : digit) : (rank d < 10)%N.
Proof. destruct d; reflexivity. Qed.

Lemma rank_inj (d d' : digit) : rank d = rank d' -> d = d'.
Proof. destruct d, d'; intros H; try reflexivity; discriminate H. Qed.

Lemma code_latin (a : ascii) : (code (Latin a) < 256)%N.
Proof. apply N_ascii_bounded. Qed.

Lemma code_decimal (s : script) (d : digit) : (256 <= code (Decimal s d))%N.
Proof. destruct s; cbn [code zero_of]; lia. Qed.

(** A character is determined by its code point. *)
Lemma code_inj (c d : pychar) : code c = code d -> c = d.
Proof.
  destruct c as [a | s r], d as [b | s' r']; intros H.
  - cbn [code] in H. f_equal.
    now rewrite <- (ascii_N_embedding a), <- (ascii_N_embedding b), H.
  - pose proof (code_latin a). pose proof (code_decimal s' r'). lia.
  - pose proof (code_latin b). pose proof (code_decimal s r). lia.
  - pose proof (rank_bound r). pose proof (rank_bound r').
    cbn [code] in H.
    assert (E : s = s') by (destruct s, s'; cbn [zero_of] in H; auto; lia).
    subst s'. f_equal. apply rank_inj. lia.
Qed.

Lemma pychar_eqb_eq (c d : pychar) : pychar_eqb c d = true <-> c = d.
Proof.
  unfold pychar_eqb. rewrite N.eqb_eq. split; [apply code_inj | now intros ->].
Qed.

Lemma pychar_eqb_refl (c : pychar) : pychar_eqb c c = true.
Proof. now apply pychar_eqb_eq. Qed.

Lemma ascii_digit_is_digit (c : pychar) :
  is_ascii_digit c = true -> is_digit c = true.
Proof. by_cases_on_char c. Qed.

Lemma latin_digit (a : ascii) : is_digit (Latin a) = is_ascii_digit (Latin a).
Proof. reflexivity. Qed.

Lemma digit_not_space (c : pychar) : is_digit c = true -> is_space c = false.
Proof. by_cases_on_char c. Qed.

Lemma digit_not_upper (c : pychar) : is_digit c = true -> is_upper c = false.
Proof. by_cases_on_char c. Qed.

Lemma digit_not_sign (c : pychar) : is_digit c = true -> is_sign c = false.
Proof. by_cases_on_char c. Qed.

Lemma digit_is_tail (c : pychar) : is_digit c = true -> is_tail c = true.
Proof. unfold is_tail. now intros ->. Qed.


Lemma is_sign_inv (c : pychar) :
  is_sign c = true -> c = Latin "-" \/ c = Latin "+".
Proof.
  unfold is_sign. intros H. apply orb_true_iff in H.
  destruct H as [H | H]; apply pychar_eqb_eq in H; auto.
Qed.

Lemma pystr_eqb_eq (s t : pystr) : pystr_eqb s t = true <-> s = t.
Proof.
  revert t. induction s as [| a s IH]; intros [| b t]; simpl;
    try (split; [discriminate | congruence]); try tauto.
  rewrite andb_true_iff, pychar_eqb_eq, IH. split.
  - now intros [-> ->].
  - intros E. now inversion E.
Qed.

Lemma startswith_prefix (s p : pystr) :
  startswith s p = true <-> exists rest, s = p ++ rest.
Proof.
  revert s. induction p as [| a p IH]; intros s; simpl.
  - split; [intros _; now exists s | reflexivity].
  - destruct s as [| b s].
    + split; [discriminate | intros [rest E]; discriminate].
    + rewrite andb_true_iff, pychar_eqb_eq, IH. split.
      * intros [-> [rest ->]]. now exists rest.
      * intros [rest E]. inversion E. eauto.
Qed.

(** ** The numeric pattern *)

Lemma take_while_split (p : pychar -> bool) (s : pystr) :
  exists post, s = take_while p s ++ post.
Proof.
  induction s as [| c r [post IH]]; simpl.
  - now exists [].
  - destruct (p c).
    + exists post. simpl. now f_equal.
    + now exists (c :: r).
Qed.

Lemma take_while_all (p : pychar -> bool) (s : pystr) :
  forallb p (take_while p s) = true.
Proof.
  induction s as [| c r IH]; simpl; auto.
  destruct (p c) eqn:E; simpl; auto. now rewrite E.
Qed.

Lemma take_while_longest (p : pychar -> bool) (s tail post : pystr) :
  s = tail ++ post -> forallb p tail = true ->
  (List.length tail <= List.length (take_while p s))%nat.
Proof.
  revert s. induction tail as [| c tail IH]; intros s -> H; simpl in *.
  - lia.
  - apply andb_true_iff in H. destruct H as [Hc Ht]. rewrite Hc. simpl.
    apply le_n_S. now apply IH.
Qed.

Lemma shape_has_digit (m : pystr) :
  numeric_shape m -> exists d, In d m /\ is_digit d = true.
Proof.
  intros (sign & d & tail & -> & _ & Hd & _). exists d. split; auto.
  apply in_or_app. right. now left.
Qed.

Lemma match_here_some (s m : pystr) :
  match_here s = Some m ->
  exists post,
    s = m ++ post /\ numeric_shape m
    /\ forall m' post', s = m' ++ post' -> numeric_shape m' ->
                        (List.length m' <= List.length m)%nat.
Proof.
  destruct s as [| c r]; simpl; [discriminate |].
  destruct (is_sign c) eqn:Hs.
  - destruct r as [| d r']; [discriminate |].
    destruct (is_digit d) eqn:Hd; [| discriminate].
    intros E. injection E as <-.
    destruct (take_while_split is_tail r') as [post Hpost].
    exists post. split; [simpl; now rewrite <- Hpost |]. split.
    + exists [c], d, (take_while is_tail r'). repeat split; auto.
      * destruct (is_sign_inv _ Hs) as [-> | ->]; auto.
      * apply take_while_all.
    + intros m' post' E (sign & d' & tail & -> & Hsign & Hd' & Htail).
      destruct Hsign as [-> | [-> | ->]]; simpl in E.
      * injection E as -> _. apply digit_not_sign in Hd'. congruence.
      * injection E as _ _ E. rewrite !length_cons. simpl.
        do 2 apply le_n_S. now apply take_while_longest with (post := post').
      * injection E as _ _ E. rewrite !length_cons. simpl.
        do 2 apply le_n_S. now apply take_while_longest with (post := post').
  - destruct (is_digit c) eqn:Hd; [| discriminate].
    intros E. injection E as <-.
    destruct (take_while_split is_tail r) as [post Hpost].
    exists post. split; [simpl; now rewrite <- Hpost |]. split.
    + exists [], c, (take_while is_tail r). repeat split; auto.
      apply take_while_all.
    + intros m' post' E (sign & d' & tail & -> & Hsign & Hd' & Htail).
      destruct Hsign as [-> | [-> | ->]]; simpl in E.
      * injection E as _ E. simpl. apply le_n_S.
        now apply take_while_longest with (post := post').
      * injection E as -> _. discriminate.
      * injection E as -> _. discriminate.
Qed.

Lemma match_here_none (s m' post' : pystr) :
  match_here s = None -> s = m' ++ post' -> ~ numeric_shape m'.
Proof.
  intros H E (sign & d & tail & -> & Hsign & Hd & _).
  destruct s as [| c r].
  - destruct Hsign as [-> | [-> | ->]]; discriminate.
  - simpl in H. destruct (is_sign c) eqn:Hs.
    + destruct Hsign as [-> | [-> | ->]]; simpl in E.
      * injection E as -> _. apply digit_not_sign in Hd. congruence.
      * injection E as _ ->. simpl in H. now rewrite Hd in H.
      * injection E as _ ->. simpl in H. now rewrite Hd in H.
    + destruct Hsign as [-> | [-> | ->]]; simpl in E.
      * injection E as -> _. now rewrite Hd in H.
      * injection E as -> _. discriminate.
      * injection E as -> _. discriminate.
Qed.

Lemma search_first_match (t m : pystr) :
  search t = Some m -> first_match t m.
Proof.
  induction t as [| c r IH]; [discriminate |].
  cbn [search]. destruct (match_here (c :: r)) as [m0 |] eqn:Hm.
  - intros E. injection E as ->.
    destruct (match_here_some _ _ Hm) as (post & Ht & Hshape & Hlong).
    exists [], post. repeat split; auto.
    + intros pre1 pre2 m' post' E Hne.
      destruct pre1; destruct pre2; simpl in E; congruence.
    + intros m' post' E. apply Hlong with (post' := post'). now rewrite <- E.
  - intros Hs. destruct (IH Hs) as (pre & post & Ht & Hshape & Hleft & Hlong).
    exists (c :: pre), post. repeat split; auto.
    + simpl. now f_equal.
    + intros pre1 pre2 m' post' E Hne E'.
      destruct pre1 as [| c1 pre1]; simpl in E.
      * subst pre2. apply match_here_none with (s := c :: r) (post' := post');
          auto. rewrite <- E'. simpl. now f_equal.
      * injection E as _ E. now apply (Hleft pre1 pre2 m' post').
Qed.

Lemma search_none (t : pystr) : search t = None -> ~ contains_numeric t.
Proof.
  induction t as [| c r IH]; intros H (pre & m & post & E & Hshape).
  - destruct Hshape as (sign & d & tail & -> & _).
    destruct pre; destruct sign; discriminate.
  - cbn [search] in H. destruct (match_here (c :: r)) eqn:Hm; [discriminate |].
    destruct pre as [| c' pre]; simpl in E.
    + now apply (match_here_none _ _ _ Hm E).
    + injection E as _ E. apply (IH H). now exists pre, m, post.
Qed.

Lemma search_some_iff (t : pystr) :
  contains_numeric t <-> exists m, search t = Some m.
Proof.
  split.
  - intros H. destruct (search t) as [m |] eqn:E; eauto.
    now apply search_none in E.
  - intros [m Hm].
    destruct (search_first_match _ _ Hm) as (pre & post & E & S & _).
    now exists pre, m, post.
Qed.

Lemma app_same_length {A : Type} (l1 l2 r1 r2 : list A) :
  l1 ++ r1 = l2 ++ r2 -> List.length l1 = List.length l2 -> l1 = l2.
Proof.
  revert l2. induction l1 as [| a l1 IH]; intros [| b l2] E L;
    simpl in *; try discriminate; auto.
  injection E as -> E. f_equal. apply (IH l2); auto.
Qed.

(** A text has at most one first match. *)
Lemma first_match_unique (t m m' : pystr) :
  first_match t m -> first_match t m' -> m = m'.
Proof.
  intros (pre & post & E & S & Hleft & Hlong)
         (pre' & post' & E' & S' & Hleft' & Hlong').
  assert (P : pre = pre').
  { rewrite E in E'. apply app_eq_app in E'.
    destruct E' as [l [[P Q] | [P Q]]]; destruct l as [| c l];
      try (now rewrite app_nil_r in P).
    - exfalso. apply (Hleft pre' (c :: l) m' post'); auto. discriminate.
    - exfalso. apply (Hleft' pre (c :: l) m post); auto. discriminate. }
  subst pre'. rewrite E in E'. apply app_inv_head in E'.
  apply (app_same_length _ _ _ _ E'). apply Nat.le_antisymm.
  - now apply (Hlong' m post).
  - now apply (Hlong m' post').
Qed.

Lemma first_match_search (t m : pystr) :
  first_match t m <-> search t = Some m.
Proof.
  split; [| apply search_first_match].
  intros H. destruct (search t) as [m0 |] eqn:E.
  - f_equal. apply (first_match_unique t); auto.
    now apply search_first_match.
  - exfalso. apply (search_none _ E).
    destruct H as (pre & post & Ht & S & _). now exists pre, m, post.
Qed.

Lemma sub_non_digits_nil (m : pystr) :
  sub_non_digits m <> [] <-> exists d, In d m /\ is_ascii_digit d = true.
Proof.
  unfold sub_non_digits. split.
  - destruct (filter is_ascii_digit m) as [| d l] eqn:E; [congruence |].
    intros _. exists d. apply filter_In. rewrite E. now left.
  - intros (d & Hd) E. apply filter_In in Hd. rewrite E in Hd. destruct Hd.
Qed.

(** On text of code points below 256 every match of the pattern holds a
    digit of [[0-9]]. *)
Lemma latin_search_digits (t m : pystr) :
  latin t -> search t = Some m -> sub_non_digits m <> [].
Proof.
  intros L H.
  destruct (search_first_match _ _ H) as (pre & post & -> & Hshape & _).
  destruct (shape_has_digit _ Hshape) as (d & Hin & Hd).
  apply sub_non_digits_nil. exists d. split; auto.
  unfold latin in L. rewrite Forall_forall in L.
  destruct (L d) as [a ->]; auto.
  apply in_or_app. right. apply in_or_app. now left.
Qed.

Lemma search_digit_in_text (t m : pystr) :
  search t = Some m -> existsb is_digit t = true.
Proof.
  intros H.
  destruct (search_first_match _ _ H) as (pre & post & -> & Hshape & _).
  destruct (shape_has_digit _ Hshape) as (d & Hin & Hd).
  apply existsb_exists. exists d. split; auto.
  apply in_or_app. right. apply in_or_app. now left.
Qed.

Lemma numeric_value_search (t m : pystr) :
  search t = Some m ->
  numeric_value t
  = match sub_non_digits m with
    | [] => None
    | _ :: _ => Some (py_int (sub_non_digits m))
    end.
Proof.
  intros H. unfold numeric_value. rewrite H. now destruct (sub_non_digits m).
Qed.

Lemma numeric_value_digits (t m : pystr) :
  search t = Some m -> sub_non_digits m <> [] ->
  numeric_value t = Some (py_int (sub_non_digits m)).
Proof.
  intros H D. rewrite (numeric_value_search _ _ H).
  now destruct (sub_non_digits m).
Qed.

Lemma gives_value_iff (t : pystr) :
  gives_value t <-> exists v, numeric_value t = Some v.
Proof.
  unfold gives_value. split.
  - intros (m & F & D). apply first_match_search in F.
    apply sub_non_digits_nil in D.
    rewrite (numeric_value_digits _ _ F D). eauto.
  - intros (v & H). unfold numeric_value in H.
    destruct (search t) as [m |] eqn:E; [| discriminate].
    exists m. split; [now apply first_match_search |].
    apply sub_non_digits_nil. now destruct (sub_non_digits m).
Qed.

Lemma has_value_gives (w : OCRWord) :
  has_value w = true <-> gives_value (text w).
Proof.
  rewrite gives_value_iff. unfold has_value.
  destruct (numeric_value (text w)) as [v |]; split; eauto; try discriminate.
  now intros [v H].
Qed.

Lemma has_value_number (w : OCRWord) :
  has_value w = true -> has_number w = true.
Proof.
  unfold has_value, has_number, numeric_value.
  now destruct (search (text w)).
Qed.



(** ** Loops that keep the first closest candidate *)

Lemma Qltb_lt (a b : Q) : Qltb a b = true <-> (a < b)%Q.
Proof.
  unfold Qltb. rewrite negb_true_iff. split.
  - intros H. apply Qnot_le_lt. intros L. apply Qle_bool_iff in L. congruence.
  - intros H. destruct (Qle_bool b a) eqn:E; auto.
    apply Qle_bool_iff in E. now apply Qlt_not_le in H.
Qed.

Lemma Qltb_ge (a b : Q) : Qltb a b = false <-> (b <= a)%Q.
Proof. unfold Qltb. now rewrite negb_false_iff, Qle_bool_iff. Qed.

Lemma pick_all_app {A B : Type} (f : A -> option B) (l1 l2 : list A) :
  pick_all f (l1 ++ l2) = pick_all f l1 ++ pick_all f l2.
Proof. apply flat_map_app. Qed.

Lemma pick_all_ext {A B : Type} (f g : A -> option B) (l : list A) :
  (forall a, In a l -> f a = g a) -> pick_all f l = pick_all g l.
Proof.
  induction l as [| a l IH]; intros H; simpl; auto.
  rewrite (H a (or_introl eq_refl)). f_equal. apply IH.
  intros b Hb. apply H. now right.
Qed.

Lemma pick_all_map {A B C : Type} (g : A -> B) (f : B -> option C)
    (l : list A) :
  pick_all (fun a => f (g a)) l = pick_all f (map g l).
Proof. induction l as [| a l IH]; simpl; auto. now rewrite IH. Qed.

Lemma pick_all_in {A B : Type} (f : A -> option B) (l : list A) (b : B) :
  In b (pick_all f l) <-> exists a, In a l /\ f a = Some b.
Proof.
  unfold pick_all. rewrite in_flat_map. split.
  - intros (a & Ha & Hb). exists a. split; auto.
    destruct (f a); simpl in Hb; [| tauto]. destruct Hb; [congruence | tauto].
  - intros (a & Ha & Hb). exists a. split; auto. rewrite Hb. now left.
Qed.

Lemma pick_all_total {A B : Type} (p : A -> bool) (g : A -> B) (l : list A) :
  pick_all (fun a => if p a then Some (g a) else None) l = map g (filter p l).
Proof.
  induction l as [| a l IH]; simpl; auto.
  destruct (p a); simpl; now rewrite IH.
Qed.

Lemma pick_all_Forall2 {A B : Type} (f : A -> option B) (l : list A) :
  Forall2 (fun a b => f a = Some b)
          (filter (fun a => match f a with
                            | Some _ => true
                            | None => false
                            end) l)
          (pick_all f l).
Proof.
  induction l as [| a l IH]; simpl; [constructor |].
  destruct (f a) eqn:E; simpl; auto.
Qed.

Lemma fold_left_pick {A B S : Type} (f : A -> option B) (g : S -> B -> S)
    (l : list A) (s : S) :
  fold_left (fun st a => match f a with Some b => g st b | None => st end) l s
  = fold_left g (pick_all f l) s.
Proof.
  revert s. induction l as [| a l IH]; intros s; simpl; auto.
  rewrite IH. now destruct (f a).
Qed.

Lemma fold_left_collect {A B : Type} (f : A -> option B) (l : list A)
    (acc : list B) :
  fold_left (fun acc a => match f a with Some b => acc ++ [b] | None => acc end)
            l acc
  = acc ++ pick_all f l.
Proof.
  revert acc. induction l as [| a l IH]; intros acc; simpl.
  - now rewrite app_nil_r.
  - rewrite IH. destruct (f a); simpl; auto. now rewrite <- app_assoc.
Qed.

Section FirstMinFacts.

Context {A : Type} (key : A -> Q).

Lemma first_min_in (l : list A) (a : A) : first_min key l a -> In a l.
Proof.
  intros (l1 & l2 & -> & _). apply in_or_app. right. now left.
Qed.

Lemma first_min_least (l : list A) (a b : A) :
  first_min key l a -> In b l -> (key a <= key b)%Q.
Proof.
  intros (l1 & l2 & -> & H1 & H2) Hb.
  rewrite Forall_forall in H1, H2.
  apply in_app_or in Hb. destruct Hb as [Hb | [<- | Hb]].
  - apply Qlt_le_weak. now apply H1.
  - apply Qle_refl.
  - now apply H2.
Qed.

Lemma first_min_single (a : A) : first_min key [a] a.
Proof. exists [], []. repeat split; constructor. Qed.

Lemma first_min_snoc_lt (l : list A) (a b : A) :
  first_min key l a -> (key b < key a)%Q -> first_min key (l ++ [b]) b.
Proof.
  intros H Hlt. exists l, []. repeat split; [| constructor].
  apply Forall_forall. intros c Hc.
  apply Qlt_le_trans with (key a); auto. now apply first_min_least with l.
Qed.

Lemma first_min_snoc_ge (l : list A) (a b : A) :
  first_min key l a -> (key a <= key b)%Q -> first_min key (l ++ [b]) a.
Proof.
  intros (l1 & l2 & -> & H1 & H2) Hle. exists l1, (l2 ++ [b]).
  repeat split; auto.
  - now rewrite <- app_assoc.
  - apply Forall_app. split; auto.
Qed.

Lemma first_min_cons_lt (l : list A) (a b : A) :
  first_min key l a -> (key a < key b)%Q -> first_min key (b :: l) a.
Proof.
  intros (l1 & l2 & -> & H1 & H2) Hlt. exists (b :: l1), l2.
  repeat split; auto.
Qed.

Lemma first_min_cons_le (l : list A) (a b : A) :
  first_min key l a -> (key b <= key a)%Q -> first_min key (b :: l) b.
Proof.
  intros H Hle. exists [], l. repeat split; [constructor |].
  apply Forall_forall. intros c Hc.
  apply Qle_trans with (key a); auto. now apply first_min_least with l.
Qed.

Lemma app_cons_split (l1 l2 l1' l2' : list A) (a b : A) :
  l1 ++ a :: l2 = l1' ++ b :: l2' ->
  (l1 = l1' /\ a = b /\ l2 = l2')
  \/ (exists m, l1' = l1 ++ a :: m /\ l2 = m ++ b :: l2')
  \/ (exists m, l1 = l1' ++ b :: m /\ l2' = m ++ a :: l2).
Proof.
  revert l1'. induction l1 as [| x l1 IH]; intros [| y l1'] E; simpl in E.
  - injection E as -> ->. now left.
  - injection E as -> ->. right; left. now exists l1'.
  - injection E as -> <-. right; right. now exists l1.
  - injection E as -> E. destruct (IH _ E) as [(-> & -> & ->) | [H | H]].
    + now left.
    + destruct H as (m & -> & ->). right; left. now exists m.
    + destruct H as (m & -> & ->). right; right. now exists m.
Qed.

Lemma first_min_unique (l : list A) (a b : A) :
  first_min key l a -> first_min key l b -> a = b.
Proof.
  intros (l1 & l2 & -> & H1 & H2) (l1' & l2' & E & H1' & H2').
  destruct (app_cons_split _ _ _ _ _ _ E) as [(_ & -> & _) | [H | H]]; auto.
  - destruct H as (m & -> & ->). exfalso.
    rewrite Forall_forall in H1', H2.
    assert (Hlt : (key b < key a)%Q)
      by (apply H1'; apply in_or_app; right; now left).
    assert (Hle : (key a <= key b)%Q)
      by (apply H2; apply in_or_app; right; now left).
    now apply Qlt_not_le in Hlt.
  - destruct H as (m & -> & ->). exfalso.
    rewrite Forall_forall in H1, H2'.
    assert (Hlt : (key a < key b)%Q)
      by (apply H1; apply in_or_app; right; now left).
    assert (Hle : (key b <= key a)%Q)
      by (apply H2'; apply in_or_app; right; now left).
    now apply Qlt_not_le in Hlt.
Qed.

Lemma first_min_nil (a : A) : ~ first_min key [] a.
Proof. intros (l1 & l2 & E & _). now destruct l1. Qed.

End FirstMinFacts.

Lemma first_min_map {A B : Type} (g : A -> B) (key : B -> Q) (l : list A)
    (b : B) :
  first_min key (map g l) b <->
  exists a, first_min (fun a => key (g a)) l a /\ b = g a.
Proof.
  split.
  - intros (l1 & l2 & E & H1 & H2).
    apply map_eq_app in E. destruct E as (m1 & m & -> & <- & E).
    apply map_eq_cons in E. destruct E as (a & m2 & -> & <- & <-).
    exists a. split; auto. exists m1, m2.
    rewrite Forall_map in H1, H2. auto.
  - intros (a & (l1 & l2 & -> & H1 & H2) & ->).
    exists (map g l1), (map g l2). rewrite map_app. simpl.
    rewrite !Forall_map. auto.
Qed.

Lemma keep_closer_fold (done cs : list (Q * Z)) (b : Q * Z) :
  first_min fst done b ->
  exists c, fold_left keep_closer cs (Some b) = Some c
            /\ first_min fst (done ++ cs) c.
Proof.
  revert done b. induction cs as [| x cs IH]; intros done b H.
  - exists b. rewrite app_nil_r. auto.
  - cbn [fold_left keep_closer].
    replace (done ++ x :: cs) with ((done ++ [x]) ++ cs)
      by (now rewrite <- app_assoc).
    destruct (Qltb (fst x) (fst b)) eqn:E; apply IH.
    + apply Qltb_lt in E. now apply first_min_snoc_lt with b.
    + apply Qltb_ge in E. now apply first_min_snoc_ge.
Qed.

Lemma keep_closer_none (cs : list (Q * Z)) :
  fold_left keep_closer cs None = None <-> cs = [].
Proof.
  destruct cs as [| x cs]; simpl; [tauto |].
  destruct (keep_closer_fold [x] cs x (first_min_single fst x)) as (c & -> & _).
  split; discriminate.
Qed.

Lemma keep_closer_some (cs : list (Q * Z)) (c : Q * Z) :
  fold_left keep_closer cs None = Some c <-> first_min fst cs c.
Proof.
  destruct cs as [| x cs]; simpl.
  - split; [discriminate | intros H; now apply first_min_nil in H].
  - destruct (keep_closer_fold [x] cs x (first_min_single fst x))
      as (c' & -> & Hc'). simpl in Hc'. split.
    + now intros [= <-].
    + intros H. f_equal. now apply first_min_unique with fst (x :: cs).
Qed.

(** ** The stable sort *)

Lemma hd_insert_sorted {A : Type} (leb : A -> A -> bool) (d a : A)
    (l : list A) :
  hd d (insert_sorted leb a l)
  = match l with
    | [] => a
    | b :: _ => if leb a b then a else b
    end.
Proof. destruct l as [| b l]; simpl; auto. now destruct (leb a b). Qed.

Lemma insert_sorted_perm {A : Type} (leb : A -> A -> bool) (a : A)
    (l : list A) :
  Permutation (a :: l) (insert_sorted leb a l).
Proof.
  induction l as [| b l IH]; simpl; auto.
  destruct (leb a b); auto.
  rewrite perm_swap. now constructor.
Qed.

Lemma stable_sort_perm {A : Type} (leb : A -> A -> bool) (l : list A) :
  Permutation l (stable_sort leb l).
Proof.
  induction l as [| a l IH]; simpl; auto.
  rewrite <- insert_sorted_perm. now constructor.
Qed.

Lemma stable_sort_first (l : list (Q * Z)) (d : Q * Z) :
  l <> [] -> first_min fst l (hd d (stable_sort by_distance l)).
Proof.
  induction l as [| a l IH]; intros Hne; [congruence |].
  cbn [stable_sort fold_right]. fold (stable_sort by_distance l).
  rewrite hd_insert_sorted.
  destruct l as [| b l]; [apply first_min_single |].
  assert (H : first_min fst (b :: l) (hd d (stable_sort by_distance (b :: l))))
    by (apply IH; discriminate).
  destruct (stable_sort by_distance (b :: l)) as [| c r] eqn:E.
  - pose proof (stable_sort_perm by_distance (b :: l)) as P.
    rewrite E in P. apply Permutation_sym, Permutation_nil in P. discriminate.
  - simpl in H. unfold by_distance. destruct (Qle_bool (fst a) (fst c)) eqn:L.
    + apply Qle_bool_iff in L. now apply first_min_cons_le with c.
    + apply first_min_cons_lt; auto. apply Qltb_lt. unfold Qltb. now rewrite L.
Qed.

(** ** Normalised text and numbers *)

Lemma collapse_keeps (c : pychar) (s : pystr) (in_run : bool) :
  In c s -> is_space c = false -> In c (collapse in_run s).
Proof.
  revert in_run. induction s as [| a s IH]; intros in_run Hin Hc; [easy |].
  simpl. destruct Hin as [-> | Hin].
  - rewrite Hc. now left.
  - destruct (is_space a); [destruct in_run |]; simpl; auto.
Qed.

Lemma lstrip_keeps (c : pychar) (s : pystr) :
  In c s -> is_space c = false -> In c (lstrip s).
Proof.
  induction s as [| a s IH]; intros Hin Hc; [easy |].
  simpl. destruct (is_space a) eqn:E; auto.
  destruct Hin as [-> | Hin]; [congruence | auto].
Qed.

Lemma strip_keeps (c : pychar) (s : pystr) :
  In c s -> is_space c = false -> In c (strip s).
Proof.
  intros Hin Hc. unfold strip, rstrip. rewrite <- in_rev.
  apply lstrip_keeps; auto. rewrite <- in_rev. now apply lstrip_keeps.
Qed.

Lemma normalize_keeps_digit (s : pystr) :
  existsb is_digit s = true -> existsb is_digit (_normalize s) = true.
Proof.
  rewrite !existsb_exists. intros (d & Hin & Hd). exists d. split; auto.
  unfold _normalize, lower.
  replace d with (lower_char d)
    by (unfold lower_char; now rewrite digit_not_upper).
  apply in_map. apply strip_keeps; [| now apply digit_not_space].
  apply collapse_keeps; auto. now apply digit_not_space.
Qed.

Lemma total_has_no_number (w : OCRWord) :
  is_total w = true -> has_number w = false.
Proof.
  unfold is_total, has_number. intros H. apply pystr_eqb_eq in H.
  destruct (search (text w)) as [m |] eqn:E; auto.
  apply search_digit_in_text, normalize_keeps_digit in E.
  rewrite H in E. discriminate.
Qed.

Lemma total_has_no_value (w : OCRWord) :
  is_total w = true -> has_value w = false.
Proof.
  intros H. apply total_has_no_number in H.
  destruct (has_value w) eqn:V; auto. apply has_value_number in V. congruence.
Qed.

Lemma has_value_value (w : OCRWord) :
  numeric_value (text w)
  = if has_value w then Some (word_value w) else None.
Proof.
  unfold has_value, word_value. now destruct (numeric_value (text w)).
Qed.

(** ** Word objects *)

Lemma refs_from (words : list OCRWord) (k : nat) :
  map fst (combine (seq k (List.length words)) words)
  = seq k (List.length words)
  /\ map snd (combine (seq k (List.length words)) words) = words.
Proof.
  revert k. induction words as [| w words IH]; intros k; simpl; auto.
  destruct (IH (S k)) as [-> ->]. auto.
Qed.

Lemma refs_obj (words : list OCRWord) : map obj (refs words) = words.
Proof. apply (refs_from words 0). Qed.

Lemma refs_ident_unique (words : list OCRWord) (a b : word_ref) :
  In a (refs words) -> In b (refs words) -> ident a = ident b -> a = b.
Proof.
  unfold refs. pose proof (seq_NoDup (List.length words) 0) as N.
  rewrite <- (proj1 (refs_from words 0)) in N.
  induction (combine (seq 0 (List.length words)) words) as [| o l IH];
    [easy |].
  simpl in N. inversion N as [| ? ? Hnot N']; subst.
  intros [-> | Ha] [-> | Hb] E; auto.
  - exfalso. apply Hnot. unfold ident in E. rewrite E. now apply in_map.
  - exfalso. apply Hnot. unfold ident in E. rewrite <- E. now apply in_map.
Qed.

Lemma filter_obj (p : OCRWord -> bool) (l : list word_ref) :
  map obj (filter (fun o => p (obj o)) l) = filter p (map obj l).
Proof.
  induction l as [| o l IH]; simpl; auto.
  destruct (p (obj o)); simpl; now rewrite IH.
Qed.

Lemma in_refs_obj (words : list OCRWord) (o : word_ref) :
  In o (refs words) -> In (obj o) words.
Proof.
  intros H. rewrite <- (refs_obj words). now apply in_map.
Qed.

Lemma refs_nil_iff (p : OCRWord -> bool) (words : list OCRWord) :
  filter (fun o => p (obj o)) (refs words) = [] <-> filter p words = [].
Proof.
  rewrite <- (refs_obj words) at 2. rewrite <- filter_obj.
  destruct (filter (fun o => p (obj o)) (refs words)); simpl;
    split; congruence.
Qed.

(** ** The loops of the locator *)

Lemma closest_step_shape (a w : word_ref) (c : Q) (best : option (Q * Z)) :
  closest_step a c (unzip_state best) w
  = unzip_state
      (if Nat.eqb (ident w) (ident a) then best
       else match line_pick c (obj w) with
            | Some cand => keep_closer best cand
            | None => best
            end).
Proof.
  unfold closest_step, line_pick, as_candidate, word_value, has_value.
  destruct (Nat.eqb (ident w) (ident a)); auto.
  destruct (search (text (obj w))) as [m |] eqn:E;
    [| unfold numeric_value; now rewrite E].
  rewrite (numeric_value_search _ _ E).
  destruct (sub_non_digits m) eqn:D; auto.
  unfold unzip_state, keep_closer, distance.
  destruct best as [[d v] |]; cbn [option_map snd fst]; auto.
  now destruct (Qltb _ d).
Qed.

Lemma closest_fold (a : word_ref) (c : Q) (l : list word_ref)
    (best : option (Q * Z)) :
  (forall w, In w l -> ident w = ident a -> has_value (obj w) = false) ->
  fold_left (closest_step a c) l (unzip_state best)
  = unzip_state
      (fold_left keep_closer (pick_all (line_pick c) (map obj l)) best).
Proof.
  revert best. induction l as [| w l IH]; intros best H; simpl; auto.
  rewrite closest_step_shape, IH
    by (intros; apply H; [now right | assumption]).
  f_equal. destruct (Nat.eqb (ident w) (ident a)) eqn:E.
  - apply Nat.eqb_eq in E. unfold line_pick.
    rewrite (H w (or_introl eq_refl) E). reflexivity.
  - destruct (line_pick c (obj w)); simpl; auto.
Qed.

Lemma same_line_as_obj (a w : word_ref) :
  same_line_as a w = same_ocr_line (obj a) (obj w).
Proof. unfold same_line_as, same_ocr_line. apply andb_comm. Qed.

Lemma pick_line_numbers (c : Q) (words : list OCRWord) (a : OCRWord) :
  pick_all (line_pick c) (filter (same_ocr_line a) words)
  = map (as_candidate c) (numbers_on_line words a).
Proof.
  unfold numbers_on_line, line_pick.
  induction words as [| w words IH]; simpl; auto.
  destruct (same_ocr_line a w); simpl; auto.
  destruct (has_value w); simpl; now rewrite IH.
Qed.

Lemma candidates_step_shape (words : list OCRWord) (c : Q)
    (cands : list (Q * Z)) (a : word_ref) :
  In a (refs words) -> is_total (obj a) = true ->
  candidates_step (refs words) c cands a
  = match row_best words c (obj a) with
    | Some b => cands ++ [b]
    | None => cands
    end.
Proof.
  intros Ha Ht. unfold candidates_step.
  change (@None Z, @None Q) with (unzip_state None).
  rewrite closest_fold.
  - rewrite (filter_ext _ (fun w => same_ocr_line (obj a) (obj w)))
      by (intros; apply same_line_as_obj).
    rewrite (filter_obj (same_ocr_line (obj a))), refs_obj, pick_line_numbers.
    fold (row_best words c (obj a)).
    now destruct (row_best words c (obj a)) as [[d v] |].
  - intros w Hw E. apply filter_In in Hw. destruct Hw as [Hw _].
    rewrite (refs_ident_unique words w a Hw Ha E).
    now apply total_has_no_value.
Qed.

Lemma fold_left_ext_in {A S : Type} (f g : S -> A -> S) (l : list A) (s : S) :
  (forall st a, In a l -> f st a = g st a) ->
  fold_left f l s = fold_left g l s.
Proof.
  revert s. induction l as [| a l IH]; intros s H; simpl; auto.
  rewrite (H s a (or_introl eq_refl)). apply IH.
  intros st b Hb. apply H. now right.
Qed.

Lemma extract_candidates_shape (words : list OCRWord) (c : Q) :
  extract_candidates (refs words)
                     (filter (fun o => is_total (obj o)) (refs words)) c
  = pick_all (row_best words c) (row_anchors words).
Proof.
  unfold extract_candidates, row_anchors.
  rewrite fold_left_ext_in
    with (g := fun acc a => match row_best words c (obj a) with
                            | Some b => acc ++ [b]
                            | None => acc
                            end).
  - rewrite (fold_left_collect (fun a => row_best words c (obj a))). simpl.
    rewrite (pick_all_map obj), filter_obj, refs_obj. reflexivity.
  - intros st a Ha. apply filter_In in Ha. destruct Ha as [Ha Ht].
    now apply candidates_step_shape.
Qed.

Lemma row_best_none (words : list OCRWord) (c : Q) (a : OCRWord) :
  row_best words c a = None <-> numbers_on_line words a = [].
Proof.
  unfold row_best. rewrite keep_closer_none.
  destruct (numbers_on_line words a); simpl; split; congruence.
Qed.

Lemma in_numbers_value (words : list OCRWord) (a w : OCRWord) :
  In w (numbers_on_line words a) ->
  numeric_value (text w) = Some (word_value w).
Proof.
  intros H. apply filter_In in H. destruct H as [_ H].
  apply andb_true_iff in H. destruct H as [_ H].
  now rewrite has_value_value, H.
Qed.

Lemma row_best_some (words : list OCRWord) (c : Q) (a : OCRWord)
    (cand : Q * Z) :
  row_best words c a = Some cand <-> row_candidate words c a cand.
Proof.
  unfold row_best, row_candidate. rewrite keep_closer_some, first_min_map.
  split.
  - intros (w & Hw & ->). exists w. repeat split; auto.
    apply (in_numbers_value words a). now apply first_min_in in Hw.
  - intros (w & Hw & Hd & Hv). exists w. split; auto.
    unfold as_candidate, word_value. rewrite Hv, <- Hd. now destruct cand.
Qed.

Lemma row_candidates_Forall2 (words : list OCRWord) (c : Q) :
  Forall2 (row_candidate words c)
          (filter (contributes words) (row_anchors words))
          (pick_all (row_best words c) (row_anchors words)).
Proof.
  rewrite (filter_ext (contributes words)
             (fun a => match row_best words c a with
                       | Some _ => true
                       | None => false
                       end)).
  - eapply Forall2_impl; [| apply pick_all_Forall2].
    intros a b. apply row_best_some.
  - intros a. unfold contributes.
    destruct (row_best words c a) eqn:E.
    + destruct (numbers_on_line words a) eqn:N; auto.
      apply (row_best_none words c a) in N. congruence.
    + apply row_best_none in E. now rewrite E.
Qed.

Lemma fallback_step_shape (c : Q) (t : Z) (best : option (Q * Z))
    (w : word_ref) :
  fallback_step c t best w
  = match fallback_pick c t (obj w) with
    | Some cand => keep_closer best cand
    | None => best
    end.
Proof.
  unfold fallback_step, fallback_pick, as_candidate, word_value, has_value.
  destruct (search (text (obj w))) as [m |] eqn:E;
    [| unfold numeric_value; now rewrite E].
  rewrite (numeric_value_search _ _ E).
  destruct (sub_non_digits m) eqn:D; auto.
  unfold Qltb. cbn [andb negb].
  destruct (Qle_bool (Qabs (center_y (obj w))) (inject_Z t)); cbn [negb]; auto.
  unfold keep_closer, distance.
  destruct best as [b |]; cbn [snd fst]; auto.
Qed.

Lemma fallback_search_shape (words : list OCRWord) (c : Q) (t : Z) :
  fallback_search (refs words) c t
  = option_map snd
      (fold_left keep_closer (map (as_candidate c) (fallback_words t words))
                 None).
Proof.
  unfold fallback_search.
  rewrite (fold_left_ext_in _ _ _ _
             (fun st w _ => fallback_step_shape c t st w)).
  rewrite (fold_left_pick (fun w => fallback_pick c t (obj w)) keep_closer).
  rewrite (pick_all_map obj), refs_obj.
  unfold fallback_pick. rewrite pick_all_total. fold (fallback_words t words).
  now destruct (fold_left keep_closer _ None).
Qed.

(** ** The extraction as a whole *)

Lemma find_total_words_shape (words : list OCRWord) :
  find_total_words (refs words)
  = match row_anchors words with
    | [] => Raise RowLabelNotFound
    | _ :: _ => Ok (filter (fun o => is_total (obj o)) (refs words))
    end.
Proof.
  unfold find_total_words, row_anchors.
  pose proof (refs_nil_iff is_total words) as H.
  destruct (filter (fun o => is_total (obj o)) (refs words)) eqn:E.
  - now rewrite (proj1 H eq_refl).
  - destruct (filter is_total words); auto.
    discriminate (proj2 H eq_refl).
Qed.

Lemma find_center_shape (words : list OCRWord) :
  find_agatston_column_center (refs words)
  = match column_words words with
    | [] => Raise ColumnLabelNotFound
    | _ :: _ => Ok (column_mean words)
    end.
Proof.
  unfold find_agatston_column_center, column_mean, column_words.
  assert (E : filter is_agatston words
              = map obj (filter (fun o => is_agatston (obj o)) (refs words)))
    by (now rewrite filter_obj, refs_obj).
  rewrite E, length_map, map_map.
  now destruct (filter (fun o => is_agatston (obj o)) (refs words)).
Qed.

Lemma run_shape (words : list OCRWord) :
  extract_total_agatston_score_run words
  = match row_anchors words with
    | [] => ([], Raise RowLabelNotFound)
    | _ :: _ =>
        match column_words words with
        | [] => ([], Raise ColumnLabelNotFound)
        | _ :: _ =>
            let c := column_mean words in
            match pick_all (row_best words c) (row_anchors words) with
            | first :: rest =>
                let best :=
                  hd first (stable_sort by_distance (first :: rest)) in
                ([InfoIntersection (snd best)], Ok (snd best))
            | [] =>
                match fold_left keep_closer
                        (map (as_candidate c)
                             (fallback_words y_threshold_default words))
                        None with
                | Some b =>
                    ([WarningFallback; InfoFallback (snd b)], Ok (snd b))
                | None => ([WarningFallback], Raise NoIntersectionValue)
                end
            end
        end
    end.
Proof.
  unfold extract_total_agatston_score_run.
  rewrite find_total_words_shape, find_center_shape.
  destruct (row_anchors words) eqn:R; auto.
  destruct (column_words words) eqn:C; auto.
  rewrite extract_candidates_shape, R, fallback_search_shape.
  cbv zeta.
  destruct (pick_all (row_best words (column_mean words)) (o :: l)); auto.
  now destruct (fold_left keep_closer _ None).
Qed.

Lemma row_anchors_in (words : list OCRWord) (a : OCRWord) :
  In a (row_anchors words)
  <-> In a words /\ _normalize (text a) = str "total".
Proof.
  unfold row_anchors, is_total. now rewrite filter_In, pystr_eqb_eq.
Qed.

Lemma column_words_in (words : list OCRWord) (k : OCRWord) :
  In k (column_words words)
  <-> In k words /\ exists rest, _normalize (text k) = str "agatston" ++ rest.
Proof.
  unfold column_words, is_agatston. now rewrite filter_In, startswith_prefix.
Qed.

Lemma has_number_contains (w : OCRWord) :
  has_number w = true <-> contains_numeric (text w).
Proof.
  rewrite search_some_iff. unfold has_number.
  destruct (search (text w)) as [m |]; split; eauto; try discriminate.
  now intros [m H].
Qed.

Lemma numbers_on_line_in (words : list OCRWord) (a w : OCRWord) :
  In w (numbers_on_line words a)
  <-> In w words /\ block_num w = block_num a /\ line_num w = line_num a
      /\ gives_value (text w).
Proof.
  unfold numbers_on_line, same_ocr_line.
  rewrite filter_In, !andb_true_iff, !Z.eqb_eq, has_value_gives. tauto.
Qed.

Lemma in_not_nil {A : Type} (l : list A) (a : A) : In a l -> l <> [].
Proof. now destruct l. Qed.

Lemma row_candidates_nil (words : list OCRWord) (c : Q) :
  pick_all (row_best words c) (row_anchors words) = []
  <-> forall a, In a (row_anchors words) -> numbers_on_line words a = [].
Proof.
  split.
  - intros E a Ha. apply (row_best_none words c).
    destruct (row_best words c a) as [b |] eqn:B; auto.
    assert (H : In b (pick_all (row_best words c) (row_anchors words)))
      by (apply pick_all_in; eauto).
    rewrite E in H. destruct H.
  - intros H. destruct (pick_all _ _) as [| b l] eqn:E; auto.
    assert (Hb : In b (pick_all (row_best words c) (row_anchors words)))
      by (rewrite E; now left).
    apply pick_all_in in Hb. destruct Hb as (a & Ha & Hb).
    apply H, (row_best_none words c) in Ha. congruence.
Qed.

(** ** C1: selection among the same-row candidates *)

(** C1, as the code has it.  When the word set has a row anchor (normalised
    text "total") and a column word (normalised text starting with
    "agatston"), and some row anchor shares its OCR line with a word that
    gives a value (the first numeric match of its text holds a digit of
    [[0-9]]), the extraction returns the value of the first candidate of
    least distance to the mean [center_x] of the column words; the
    candidates are, in row anchor order, one per row anchor that has a word
    giving a value on its line, namely the first closest such word.  A
    numeric substring alone does not make a candidate: a word whose first
    match holds only digits of another script is passed over. *)
Theorem c1_same_row_selection (words : list OCRWord) :
  (exists a, In a words /\ _normalize (text a) = str "total") ->
  (exists k, In k words
             /\ exists rest, _normalize (text k) = str "agatston" ++ rest) ->
  (exists a w, In a words /\ _normalize (text a) = str "total"
               /\ In w words /\ block_num w = block_num a
               /\ line_num w = line_num a /\ gives_value (text w)) ->
  exists cands best,
    Forall2 (row_candidate words (column_mean words))
            (filter (contributes words) (row_anchors words)) cands
    /\ first_min fst cands best
    /\ extract_total_agatston_score words = Ok (snd best).
Proof.
  intros _ (k & Hk) (a & w & Ha & Hta & Hw).
  unfold extract_total_agatston_score. rewrite run_shape.
  assert (Ra : In a (row_anchors words)) by (now apply row_anchors_in).
  apply column_words_in, in_not_nil in Hk.
  apply (numbers_on_line_in words a w), in_not_nil in Hw.
  pose proof (in_not_nil _ _ Ra) as Hr.
  destruct (row_anchors words) as [| a0 r0] eqn:R; [congruence |].
  destruct (column_words words) as [| k0 c0]; [congruence |].
  cbv zeta. rewrite <- R in *.
  pose proof (row_candidates_Forall2 words (column_mean words)) as F.
  destruct (pick_all _ (row_anchors words)) as [| first rest] eqn:E.
  - exfalso. apply Hw.
    now apply (proj1 (row_candidates_nil words (column_mean words)) E).
  - exists (first :: rest),
      (hd first (stable_sort by_distance (first :: rest))).
    repeat split; auto. now apply stable_sort_first.
Qed.

Ltac in_list := simpl; tauto.

Ltac shape_of sign d tail :=
  exists sign, d, tail; repeat split; auto.

Lemma c1_same_row_selection_witness :
  exists cands best,
    Forall2 (row_candidate Samples.report_row
                           (column_mean Samples.report_row))
            (filter (contributes Samples.report_row)
                    (row_anchors Samples.report_row)) cands
    /\ first_min fst cands best
    /\ extract_total_agatston_score Samples.report_row = Ok (snd best).
Proof.
  apply (c1_same_row_selection Samples.report_row).
  - exists Samples.w_total. split; [in_list | reflexivity].
  - exists Samples.w_agatston. split; [in_list |]. exists []. reflexivity.
  - exists Samples.w_total, Samples.w_near.
    split; [in_list |]. split; [reflexivity |]. split; [in_list |].
    split; [reflexivity |]. split; [reflexivity |].
    apply gives_value_iff. exists 222. reflexivity.
Defined.

(** C1 as the specification words it does not hold: with the column word
    "Agatston", the row anchor "Total" and, on the line of the anchor, the
    word "٣", which the numeric pattern matches, no value is returned: the
    match holds no digit of [[0-9]], the word is passed over, and the
    extraction fails. *)
Lemma c1_digits_of_another_script :
  (exists a, In a Samples.report_arabic /\ _normalize (text a) = str "total")
  /\ (exists k, In k Samples.report_arabic
                /\ exists rest, _normalize (text k) = str "agatston" ++ rest)
  /\ (exists a w,
        In a Samples.report_arabic /\ _normalize (text a) = str "total"
        /\ In w Samples.report_arabic /\ block_num w = block_num a
        /\ line_num w = line_num a /\ contains_numeric (text w))
  /\ extract_total_agatston_score Samples.report_arabic
     = Raise NoIntersectionValue.
Proof.
  split; [| split; [| split]].
  - exists Samples.w_total. split; [in_list | reflexivity].
  - exists Samples.w_agatston. split; [in_list |]. exists []. reflexivity.
  - exists Samples.w_total, Samples.w_arabic.
    split; [in_list |]. split; [reflexivity |]. split; [in_list |].
    split; [reflexivity |]. split; [reflexivity |].
    exists [], [Decimal ArabicIndic D3], []. split; [reflexivity |].
    shape_of (@nil pychar) (Decimal ArabicIndic D3) (@nil pychar).
  - reflexivity.
Qed.

Example report_row_value :
  extract_total_agatston_score Samples.report_row = Ok 222.
Proof. reflexivity. Qed.

(** ** C2, C6: the value read from a word *)


Lemma closest_step_value (a w : word_ref) (c : Q) (st : option Z * option Q) :
  closest_step a c st w
  = if Nat.eqb (ident w) (ident a) then st
    else match numeric_value (text (obj w)) with
         | None => st
         | Some value =>
             let distance := Qabs (center_x (obj w) - c) in
             if match snd st with
                | None => true
                | Some closest_distance => Qltb distance closest_distance
                end
             then (Some value, Some distance) else st
         end.
Proof.
  unfold closest_step, numeric_value.
  destruct (Nat.eqb (ident w) (ident a)); auto.
  destruct (search (text (obj w))) as [m |]; auto.
  now destruct (sub_non_digits m).
Qed.

Lemma fallback_step_value (c : Q) (t : Z) (best : option (Q * Z))
    (w : word_ref) :
  fallback_step c t best w
  = match numeric_value (text (obj w)) with
    | None => best
    | Some value =>
        let distance_x := Qabs (center_x (obj w) - c) in
        if Qltb (inject_Z t) (Qabs (center_y (obj w))) then best
        else match best with
             | None => Some (distance_x, value)
             | Some b =>
                 if Qltb distance_x (fst b) then Some (distance_x, value)
                 else best
             end
    end.
Proof.
  unfold fallback_step, numeric_value.
  destruct (search (text (obj w))) as [m |]; auto.
  now destruct (sub_non_digits m).
Qed.

(** C2, as the code has it.  A text that contains a substring matching the
    numeric pattern has a first match.  Both search loops of the locator
    delete from that match every character that is not a digit of [[0-9]];
    when digits are left the value of the word is their integer, and when
    none is left the word has no value and is passed over.  The digits of
    another script, which the pattern matches as [\d], are deleted with the
    signs, commas and periods.  On text of code points below 256 a digit is
    always left, so there every numeric substring gives a value.  The token
    "1,234.5" gives 12345. *)
Theorem c2_digit_stripping :
  numeric_value (str "1,234.5") = Some 12345
  /\ extract_total_agatston_score Samples.report_decimal = Ok 12345
  /\ (forall a w c st,
         closest_step a c st w
         = if Nat.eqb (ident w) (ident a) then st
           else match numeric_value (text (obj w)) with
                | None => st
                | Some value =>
                    let distance := Qabs (center_x (obj w) - c) in
                    if match snd st with
                       | None => true
                       | Some closest_distance => Qltb distance closest_distance
                       end
                    then (Some value, Some distance) else st
                end)
  /\ (forall c t best w,
         fallback_step c t best w
         = match numeric_value (text (obj w)) with
           | None => best
           | Some value =>
               let distance_x := Qabs (center_x (obj w) - c) in
               if Qltb (inject_Z t) (Qabs (center_y (obj w))) then best
               else match best with
                    | None => Some (distance_x, value)
                    | Some b =>
                        if Qltb distance_x (fst b)
                        then Some (distance_x, value) else best
                    end
           end)
  /\ (forall t,
         contains_numeric t ->
         exists m,
           first_match t m /\ search t = Some m
           /\ numeric_value t
              = match filter is_ascii_digit m with
                | [] => None
                | _ :: _ => Some (py_int (filter is_ascii_digit m))
                end)
  /\ (forall t,
         latin t -> contains_numeric t ->
         exists m,
           first_match t m /\ search t = Some m
           /\ numeric_value t = Some (py_int (filter is_ascii_digit m)))
  /\ (forall t, gives_value t <-> exists v, numeric_value t = Some v).
Proof.
  split; [reflexivity |]. split; [reflexivity |].
  split; [exact closest_step_value |]. split; [exact fallback_step_value |].
  split; [| split; [| exact gives_value_iff]].
  - intros t H. apply search_some_iff in H. destruct H as [m Hm].
    exists m. split; [now apply search_first_match |]. split; auto.
    now apply numeric_value_search.
  - intros t L H. apply search_some_iff in H. destruct H as [m Hm].
    exists m. split; [now apply search_first_match |]. split; auto.
    apply numeric_value_digits; auto. now apply latin_search_digits with t.
Qed.

Lemma c2_digit_stripping_witness :
  exists m,
    first_match (str "x-12,5.y7") m /\ search (str "x-12,5.y7") = Some m
    /\ numeric_value (str "x-12,5.y7")
       = Some (py_int (filter is_ascii_digit m)).
Proof.
  apply (proj1 (proj2 (proj2 (proj2 (proj2 (proj2 c2_digit_stripping)))))).
  - repeat constructor; eexists; reflexivity.
  - exists (str "x"), (str "-12,5."), (str "y7"). split; [reflexivity |].
    shape_of [Latin "-"] (Latin "1") (str "2,5.").
Defined.

(** C2 as the specification words it does not hold: the text "٣" contains
    a numeric substring and the locator reads no value from it; from "1٣5"
    it reads 15, the digit in the middle being deleted. *)
Lemma c2_digits_of_another_script :
  contains_numeric (text Samples.w_arabic)
  /\ search (text Samples.w_arabic) = Some [Decimal ArabicIndic D3]
  /\ numeric_value (text Samples.w_arabic) = None
  /\ search Samples.mixed_digits = Some Samples.mixed_digits
  /\ numeric_value Samples.mixed_digits = Some 15.
Proof.
  split; [| repeat split].
  exists [], [Decimal ArabicIndic D3], []. split; [reflexivity |].
  shape_of (@nil pychar) (Decimal ArabicIndic D3) (@nil pychar).
Qed.



(** ** C8: missing labels *)

Lemma filter_nil_iff {A : Type} (p : A -> bool) (l : list A) :
  filter p l = [] <-> forall a, In a l -> p a = false.
Proof.
  induction l as [| a l IH]; simpl.
  - tauto.
  - destruct (p a) eqn:E.
    + split; [discriminate |]. intros H.
      rewrite (H a (or_introl eq_refl)) in E. discriminate.
    + rewrite IH. split.
      * intros H b [<- | Hb]; auto.
      * intros H b Hb. apply H. now right.
Qed.

Lemma row_anchors_nil (words : list OCRWord) :
  row_anchors words = []
  <-> ~ exists a, In a words /\ _normalize (text a) = str "total".
Proof.
  split.
  - intros E (a & Ha). apply row_anchors_in in Ha. rewrite E in Ha.
    destruct Ha.
  - intros H. destruct (row_anchors words) as [| a l] eqn:E; auto.
    exfalso. apply H. exists a. apply row_anchors_in. rewrite E. now left.
Qed.

Lemma column_words_nil (words : list OCRWord) :
  column_words words = []
  <-> ~ exists k, In k words
                  /\ exists rest, _normalize (text k) = str "agatston" ++ rest.
Proof.
  split.
  - intros E (k & Hk). apply column_words_in in Hk. rewrite E in Hk.
    destruct Hk.
  - intros H. destruct (column_words words) as [| k l] eqn:E; auto.
    exfalso. apply H. exists k. apply column_words_in. rewrite E. now left.
Qed.

(** C8.  The extraction fails with [RowLabelNotFound] exactly when no word
    has the normalised text "total"; it fails with [ColumnLabelNotFound]
    exactly when such a word exists and no word has a normalised text that
    starts with "agatston".  The row is looked for first: without a row
    anchor the failure is [RowLabelNotFound] whatever the column words. *)
Theorem c8_label_failures (words : list OCRWord) :
  (extract_total_agatston_score words = Raise RowLabelNotFound
   <-> ~ exists a, In a words /\ _normalize (text a) = str "total")
  /\ (extract_total_agatston_score words = Raise ColumnLabelNotFound
      <-> (exists a, In a words /\ _normalize (text a) = str "total")
          /\ ~ exists k, In k words
                 /\ exists rest, _normalize (text k) = str "agatston" ++ rest).
Proof.
  unfold extract_total_agatston_score. rewrite run_shape.
  rewrite <- row_anchors_nil, <- column_words_nil.
  assert (R : (exists a, In a words /\ _normalize (text a) = str "total")
              <-> row_anchors words <> []).
  { split.
    - intros (a & Ha). apply row_anchors_in in Ha. now apply in_not_nil in Ha.
    - intros H. destruct (row_anchors words) as [| a l] eqn:E; [congruence |].
      exists a. apply row_anchors_in. rewrite E. now left. }
  rewrite R.
  destruct (row_anchors words) as [| a0 r0].
  - simpl. split; split; auto; try discriminate. now intros [H _].
  - destruct (column_words words) as [| k0 c0].
    + simpl. split; split; try discriminate; auto. split; [discriminate | auto].
    + cbv zeta. destruct (pick_all _ _); [destruct (fold_left _ _ _) |];
        simpl; split; split; try discriminate; now intros [_ H].
Qed.

(** ** C3, C9: the fallback *)

Lemma closest_candidate_spec (c : Q) (l : list OCRWord) :
  (fold_left keep_closer (map (as_candidate c) l) None = None <-> l = [])
  /\ forall b,
       fold_left keep_closer (map (as_candidate c) l) None = Some b
       <-> exists w, first_min (distance c) l w /\ b = as_candidate c w.
Proof.
  split.
  - rewrite keep_closer_none. destruct l; simpl; split; congruence.
  - intros b. rewrite keep_closer_some.
    exact (first_min_map (as_candidate c) fst l b).
Qed.

Lemma fallback_words_in (t : Z) (words : list OCRWord) (w : OCRWord) :
  In w (fallback_words t words)
  <-> In w words /\ gives_value (text w)
      /\ (Qabs (center_y w) <= inject_Z t)%Q.
Proof.
  unfold fallback_words.
  now rewrite filter_In, andb_true_iff, has_value_gives, Qle_bool_iff.
Qed.

Lemma fallback_search_spec (words : list OCRWord) (c : Q) (t : Z) :
  (fallback_search (refs words) c t = None <-> fallback_words t words = [])
  /\ forall v,
       fallback_search (refs words) c t = Some v
       <-> exists w, first_min (distance c) (fallback_words t words) w
                     /\ numeric_value (text w) = Some v.
Proof.
  rewrite fallback_search_shape.
  destruct (closest_candidate_spec c (fallback_words t words)) as [N S].
  split.
  - rewrite <- N. destruct (fold_left keep_closer _ None); simpl;
      split; congruence.
  - intros v.
    assert (V : forall w, In w (fallback_words t words) ->
                          numeric_value (text w) = Some (word_value w)).
    { intros w Hw. apply fallback_words_in in Hw.
      destruct Hw as (_ & Hw & _). apply has_value_gives in Hw.
      now rewrite has_value_value, Hw. }
    destruct (fold_left keep_closer _ None) as [b |] eqn:F; simpl.
    + destruct (proj1 (S b) eq_refl) as (w & Hw & ->). simpl. split.
      * intros [= <-]. exists w. split; auto. apply V.
        now apply first_min_in in Hw.
      * intros (w' & Hw' & Hv).
        rewrite (first_min_unique _ _ _ _ Hw Hw'), V in *.
        -- congruence.
        -- now apply first_min_in in Hw'.
    + rewrite (proj1 N eq_refl). split; [discriminate |].
      intros (w & Hw & _). now apply first_min_nil in Hw.
Qed.

Lemma fallback_ran_iff (words : list OCRWord) :
  In WarningFallback (extract_log words)
  <-> row_anchors words <> [] /\ column_words words <> []
      /\ pick_all (row_best words (column_mean words)) (row_anchors words) = [].
Proof.
  unfold extract_log. rewrite run_shape.
  destruct (row_anchors words) as [| a0 r0] eqn:R.
  - simpl. split; [tauto | now intros [H _]].
  - destruct (column_words words) as [| k0 c0].
    + simpl. split; [tauto | now intros (_ & H & _)].
    + cbv zeta. destruct (pick_all _ _) as [| first rest].
      * destruct (fold_left keep_closer _ None); simpl;
          (split; [repeat split; discriminate || auto | auto]).
      * simpl. split; [intros [H | []]; discriminate |].
        intros (_ & _ & H). discriminate.
Qed.

Lemma fallback_result (words : list OCRWord) :
  In WarningFallback (extract_log words) ->
  extract_total_agatston_score words
  = match fallback_search (refs words) (column_mean words) 30 with
    | Some v => Ok v
    | None => Raise NoIntersectionValue
    end.
Proof.
  intros H. apply fallback_ran_iff in H. destruct H as (R & C & E).
  unfold extract_total_agatston_score. rewrite run_shape, fallback_search_shape.
  destruct (row_anchors words) as [| a0 r0]; [congruence |].
  destruct (column_words words) as [| k0 c0]; [congruence |].
  cbv zeta. rewrite E. unfold y_threshold_default.
  now destruct (fold_left keep_closer _ None).
Qed.

Lemma no_intersection_iff (words : list OCRWord) :
  extract_total_agatston_score words = Raise NoIntersectionValue
  <-> In WarningFallback (extract_log words)
      /\ fallback_words 30 words = [].
Proof.
  split.
  - intros H.
    assert (R : In WarningFallback (extract_log words)).
    { unfold extract_total_agatston_score, extract_log in *.
      rewrite run_shape in *.
      destruct (row_anchors words); [discriminate |].
      destruct (column_words words); [discriminate |].
      cbv zeta in *. destruct (pick_all _ _); [| discriminate].
      destruct (fold_left keep_closer _ None); [discriminate |]. now left. }
    split; auto. rewrite (fallback_result words R) in H.
    apply (fallback_search_spec words (column_mean words) 30).
    now destruct (fallback_search _ _ 30).
  - intros [R E]. rewrite (fallback_result words R).
    apply (fallback_search_spec words (column_mean words) 30) in E.
    now rewrite E.
Qed.

(** C3, as the code has it.  The fallback search runs (its warning is
    logged) exactly when the row anchors and the column were found and the
    same-row search gave no candidate.  It looks at every word of the set: a
    word qualifies when it gives a value (the first numeric match of its
    text holds a digit of [[0-9]]) and [abs(center_y)] is at most the
    threshold; the search returns the value of the first qualifying word of
    least horizontal distance to the column reference and returns nothing
    exactly when no word qualifies, in which case, and in no other, the
    extraction fails with [NoIntersectionValue].  A numeric substring alone
    does not qualify a word: its first match must hold a digit of
    [[0-9]]. *)
Theorem c3_fallback_path (words : list OCRWord) :
  (In WarningFallback (extract_log words)
   <-> exists total_words center,
         find_total_words (refs words) = Ok total_words
         /\ find_agatston_column_center (refs words) = Ok center
         /\ extract_candidates (refs words) total_words center = [])
  /\ (forall t w,
         In w (fallback_words t words)
         <-> In w words /\ gives_value (text w)
             /\ (Qabs (center_y w) <= inject_Z t)%Q)
  /\ (forall center t,
         (forall v,
             fallback_search (refs words) center t = Some v
             <-> exists w,
                   first_min (distance center) (fallback_words t words) w
                   /\ numeric_value (text w) = Some v)
         /\ (fallback_search (refs words) center t = None
             <-> fallback_words t words = []))
  /\ (In WarningFallback (extract_log words) ->
      extract_total_agatston_score words
      = match fallback_search (refs words) (column_mean words)
                              y_threshold_default with
        | Some v => Ok v
        | None => Raise NoIntersectionValue
        end)
  /\ (extract_total_agatston_score words = Raise NoIntersectionValue
      <-> In WarningFallback (extract_log words)
          /\ fallback_words y_threshold_default words = []).
Proof.
  split; [| split; [| split; [| split]]].
  - rewrite fallback_ran_iff, find_total_words_shape, find_center_shape.
    split.
    + intros (R & C & E).
      exists (filter (fun o => is_total (obj o)) (refs words)),
        (column_mean words).
      rewrite extract_candidates_shape.
      destruct (row_anchors words); [congruence |].
      destruct (column_words words); [congruence |]. auto.
    + intros (tw & center & R & C & E).
      destruct (row_anchors words) eqn:Hr; [discriminate |].
      destruct (column_words words) eqn:Hc; [discriminate |].
      injection R as <-. injection C as <-.
      rewrite extract_candidates_shape, Hr in E.
      repeat split; auto; discriminate.
  - intros t w. apply fallback_words_in.
  - intros center t.
    destruct (fallback_search_spec words center t) as [N S]. split; auto.
  - apply fallback_result.
  - apply no_intersection_iff.
Qed.

Lemma c3_fallback_path_witness :
  extract_total_agatston_score Samples.report_fallback
  = match fallback_search (refs Samples.report_fallback)
                          (column_mean Samples.report_fallback)
                          y_threshold_default with
    | Some v => Ok v
    | None => Raise NoIntersectionValue
    end.
Proof.
  apply (proj1 (proj2 (proj2 (proj2
           (c3_fallback_path Samples.report_fallback))))).
  simpl. tauto.
Defined.

(** C3 as the specification words it does not hold: the fallback runs on
    a word set whose word "٣" contains a numeric substring and lies within
    the threshold, [abs(center_y) = 25], and the extraction fails with
    [NoIntersectionValue] all the same. *)
Lemma c3_digits_of_another_script :
  In WarningFallback (extract_log Samples.report_arabic_top)
  /\ In Samples.w_arabic_top Samples.report_arabic_top
  /\ contains_numeric (text Samples.w_arabic_top)
  /\ (Qabs (center_y Samples.w_arabic_top)
      <= inject_Z y_threshold_default)%Q
  /\ extract_total_agatston_score Samples.report_arabic_top
     = Raise NoIntersectionValue.
Proof.
  split; [now left |]. split; [in_list |]. split; [| split].
  - exists [], [Decimal ArabicIndic D3], []. split; [reflexivity |].
    shape_of (@nil pychar) (Decimal ArabicIndic D3) (@nil pychar).
  - now vm_compute.
  - reflexivity.
Qed.

Example report_fallback_value :
  extract_total_agatston_score_run Samples.report_fallback
  = ([WarningFallback; InfoFallback 42], Ok 42).
Proof. reflexivity. Qed.

Example report_no_value_fails :
  extract_total_agatston_score_run Samples.report_no_value
  = ([WarningFallback], Raise NoIntersectionValue).
Proof. reflexivity. Qed.

(** C9.  The extraction takes the word set only; when its fallback runs, the
    threshold is 30 for every word set: the result is that of
    [fallback_search] at 30, a value is returned exactly for the first
    closest word that gives a value and has [abs(center_y) <= 30], and the
    failure is [NoIntersectionValue] exactly when every word that gives a
    value has [abs(center_y) > 30]. *)
Theorem c9_fixed_threshold (words : list OCRWord) :
  In WarningFallback (extract_log words) ->
  extract_total_agatston_score words
  = match fallback_search (refs words) (column_mean words) 30 with
    | Some v => Ok v
    | None => Raise NoIntersectionValue
    end
  /\ (forall v,
         extract_total_agatston_score words = Ok v
         <-> exists w,
               first_min (distance (column_mean words))
                         (filter (fun w => has_value w
                                           && Qle_bool (Qabs (center_y w)) 30)
                                 words) w
               /\ numeric_value (text w) = Some v)
  /\ (extract_total_agatston_score words = Raise NoIntersectionValue
      <-> forall w, In w words -> gives_value (text w) ->
                    (30 < Qabs (center_y w))%Q).
Proof.
  intros R. split; [now apply fallback_result |]. split.
  - intros v. rewrite (fallback_result words R).
    destruct (fallback_search_spec words (column_mean words) 30) as [_ S].
    specialize (S v). unfold fallback_words in S.
    change (inject_Z 30) with 30%Q in S. rewrite <- S.
    destruct (fallback_search _ _ 30); split; congruence.
  - rewrite no_intersection_iff. unfold fallback_words.
    change (inject_Z 30) with 30%Q.
    rewrite filter_nil_iff. split.
    + intros [_ H] w Hw Hn. specialize (H w Hw).
      apply has_value_gives in Hn. rewrite Hn in H. cbn [andb] in H.
      apply Qltb_lt. unfold Qltb. now rewrite H.
    + intros H. split; auto. intros w Hw.
      destruct (has_value w) eqn:Hn; auto. cbn [andb].
      apply has_value_gives in Hn. specialize (H w Hw Hn).
      apply Qltb_lt in H. unfold Qltb in H. now apply negb_true_iff in H.
Qed.

Lemma c9_fixed_threshold_witness :
  extract_total_agatston_score Samples.report_no_value
  = Raise NoIntersectionValue
  <-> forall w, In w Samples.report_no_value -> gives_value (text w) ->
                (30 < Qabs (center_y w))%Q.
Proof.
  apply (c9_fixed_threshold Samples.report_no_value). simpl. tauto.
Defined.

(** ** C7: construction of the word list *)

Lemma extract_words_fold (data : list RawToken) (acc : list OCRWord) :
  fold_left extract_words_step data acc
  = acc ++ map (fun r => make_word (strip (raw_text r)) r) (filter kept data).
Proof.
  revert acc. induction data as [| r data IH]; intros acc; simpl.
  - now rewrite app_nil_r.
  - rewrite IH. unfold extract_words_step, kept.
    destruct (strip (raw_text r)) eqn:E; simpl; auto.
    now rewrite <- app_assoc, E.
Qed.

Lemma word_of_token_make (r : RawToken) (w : OCRWord) :
  word_of_token r w <-> w = make_word (strip (raw_text r)) r.
Proof.
  unfold word_of_token, make_word, float_or_sentinel. split.
  - destruct w; simpl. intros (-> & -> & -> & -> & -> & -> & -> & -> & -> & ->).
    reflexivity.
  - intros ->. simpl. repeat split; reflexivity.
Qed.

Lemma Forall2_map_iff {A B : Type} (f : A -> B) (R : A -> B -> Prop)
    (l : list A) (l' : list B) :
  (forall a b, R a b <-> b = f a) -> (Forall2 R l l' <-> l' = map f l).
Proof.
  intros H. revert l'. induction l as [| a l IH]; intros l'; split.
  - now inversion 1.
  - intros ->. constructor.
  - inversion 1 as [| ? b ? m Hab Hm]; subst. simpl.
    apply H in Hab. apply IH in Hm. congruence.
  - intros ->. simpl. constructor; [now apply H | now apply IH].
Qed.

(** C7.  The word list holds exactly the raw tokens whose trimmed text is
    not empty, in their original order, each with its trimmed text, its
    geometry and indices, and its confidence, which is [-1] when the
    confidence cell does not parse; such a token is kept.  The construction
    fails, with [NoTextRecognized], exactly when no token is kept. *)
Theorem c7_word_construction (data : list RawToken) :
  (extract_words data = Raise NoTextRecognized
   <-> forall r, In r data -> strip (raw_text r) = [])
  /\ (forall words,
         extract_words data = Ok words
         <-> words <> [] /\ Forall2 word_of_token (filter kept data) words)
  /\ (forall words r,
         extract_words data = Ok words ->
         In r data -> strip (raw_text r) <> [] ->
         raw_conf r = ConfUnparseable ->
         exists w, In w words /\ text w = strip (raw_text r)
                   /\ conf w = (-1)%Q).
Proof.
  assert (E : extract_words data
              = match map (fun r => make_word (strip (raw_text r)) r)
                          (filter kept data) with
                | [] => Raise NoTextRecognized
                | w :: ws => Ok (w :: ws)
                end).
  { unfold extract_words. rewrite extract_words_fold. cbn [app].
    now destruct (map _ (filter kept data)). }
  assert (K : forall words,
             Forall2 word_of_token (filter kept data) words
             <-> words = map (fun r => make_word (strip (raw_text r)) r)
                             (filter kept data)).
  { intros words. apply Forall2_map_iff. apply word_of_token_make. }
  split; [| split].
  - rewrite E. destruct (filter kept data) as [| r l] eqn:F; simpl.
    + split; auto. intros _ r Hr.
      pose proof (proj1 (filter_nil_iff kept data) F r Hr) as B.
      unfold kept in B. now destruct (strip (raw_text r)).
    + split; [discriminate |]. intros H.
      assert (Hr : In r (filter kept data)) by (rewrite F; now left).
      apply filter_In in Hr. destruct Hr as [Hr B].
      unfold kept in B. now rewrite (H r Hr) in B.
  - intros words. rewrite K, E.
    destruct (map _ (filter kept data)) as [| w ws].
    + split; [discriminate | intros [H ->]; congruence].
    + split.
      * intros [= <-]. split; [discriminate | reflexivity].
      * now intros [_ ->].
  - intros words r H Hr Hne Hc. rewrite E in H.
    exists (make_word (strip (raw_text r)) r). split.
    + assert (Hin : In (make_word (strip (raw_text r)) r)
                       (map (fun r => make_word (strip (raw_text r)) r)
                            (filter kept data))).
      { apply in_map with (f := fun r => make_word (strip (raw_text r)) r).
        apply filter_In. split; auto.
        unfold kept. now destruct (strip (raw_text r)). }
      destruct (map _ (filter kept data)); [discriminate |].
      now injection H as <-.
    + split; auto. simpl. now rewrite Hc.
Qed.

Lemma c7_word_construction_witness :
  exists w,
    In w [make_word (str "Total") Samples.t_total;
          make_word (str "12") Samples.t_number]
    /\ text w = strip (str " Total ") /\ conf w = (-1)%Q.
Proof.
  apply (proj2 (proj2 (c7_word_construction Samples.tokens)) _
           Samples.t_total).
  - reflexivity.
  - in_list.
  - discriminate.
  - reflexivity.
Defined.

Example tokens_words :
  option_map (map (fun w => (text w, conf w)))
             (match extract_words Samples.tokens with
              | Ok ws => Some ws
              | Raise _ => None
              end)
  = Some [(str "Total", (-1)%Q); (str "12", 87%Q)].
Proof. reflexivity. Qed.

Example no_tokens_no_text :
  extract_words [Samples.token "  " (ConfNumber 1%Q) 0 0]
  = Raise NoTextRecognized.
Proof. reflexivity. Qed.

(** ** Anchors and pixels *)

Lemma color_test_total (image : Image) (xy : Z * Z) (col : Z * Z * Z)
    (tol : Z) :
  exists b,
    _color_within_tolerance (getpixel image xy) (color_tuple col) tol = Ok b.
Proof.
  unfold _color_within_tolerance, getpixel. destruct col as [[r g] b].
  destruct (mode image);
    cbn [band_count seq map color_tuple combine py_max bind];
    eexists; reflexivity.
Qed.

Lemma in_bounds_inside (image : Image) (xy : Z * Z) :
  in_bounds image xy = true <-> inside image xy.
Proof.
  unfold in_bounds, inside. destruct (size image) as [w h]. cbn [fst snd].
  rewrite !andb_true_iff, !Z.leb_le, !Z.ltb_lt. tauto.
Qed.

Lemma check_anchors_cons (image : Image) (origin : Z * Z)
    (a : AnchorDefinition) (rest : list AnchorDefinition) :
  check_anchors image origin (a :: rest)
  = if negb (in_bounds image (local_xy origin a)) then ([], Ok false)
    else
      match _color_within_tolerance (getpixel image (local_xy origin a))
                                    (color_tuple (color a)) (tolerance a) with
      | Raise e => ([local_xy origin a], Raise e)
      | Ok false => ([local_xy origin a], Ok false)
      | Ok true =>
          (local_xy origin a :: fst (check_anchors image origin rest),
           snd (check_anchors image origin rest))
      end.
Proof.
  cbn [check_anchors]. destruct origin as [ox oy]. unfold local_xy.
  cbn [fst snd]. destruct (negb _); auto.
  destruct (_color_within_tolerance _ _ _) as [[|] |]; auto.
  now destruct (check_anchors image (ox, oy) rest).
Qed.

Lemma check_anchors_total (image : Image) (origin : Z * Z)
    (l : list AnchorDefinition) :
  exists b, snd (check_anchors image origin l) = Ok b.
Proof.
  induction l as [| a l [b IH]]; [now exists true |].
  rewrite check_anchors_cons.
  destruct (negb _); [now exists false |].
  destruct (color_test_total image (local_xy origin a) (color a) (tolerance a))
    as [[|] ->]; [now exists b | now exists false].
Qed.

Lemma check_anchors_inside (image : Image) (origin : Z * Z)
    (l : list AnchorDefinition) :
  Forall (inside image) (fst (check_anchors image origin l)).
Proof.
  induction l as [| a l IH]; [constructor |].
  rewrite check_anchors_cons.
  destruct (in_bounds image (local_xy origin a)) eqn:B; cbn [negb];
    [| constructor].
  apply in_bounds_inside in B.
  destruct (_color_within_tolerance _ _ _) as [[|] |]; cbn [fst]; auto.
Qed.

Lemma check_anchors_outside (image : Image) (origin : Z * Z)
    (l : list AnchorDefinition) :
  (exists a, In a l /\ ~ inside image (local_xy origin a)) ->
  snd (check_anchors image origin l) = Ok false.
Proof.
  induction l as [| a l IH]; intros (a' & Hin & Hout); [destruct Hin |].
  rewrite check_anchors_cons.
  destruct (in_bounds image (local_xy origin a)) eqn:B; cbn [negb]; auto.
  apply in_bounds_inside in B.
  destruct (color_test_total image (local_xy origin a) (color a) (tolerance a))
    as [[|] ->]; auto.
  cbn [snd]. apply IH. destruct Hin as [-> | Hin]; [contradiction |].
  now exists a'.
Qed.

Lemma matches_run_check (p : PatternDefinition) (image : Image)
    (origin : Z * Z) :
  matches_run p image origin = check_anchors image origin (anchors p).
Proof. unfold matches_run. now destruct (anchors p). Qed.

Lemma matches_total (p : PatternDefinition) (image : Image) (origin : Z * Z) :
  {matches p image origin = Ok true} + {matches p image origin = Ok false}.
Proof.
  unfold matches. rewrite matches_run_check.
  destruct (snd (check_anchors image origin (anchors p))) as [[|] | e] eqn:E;
    auto.
  exfalso. destruct (check_anchors_total image origin (anchors p)) as [b H].
  congruence.
Qed.

(** ** The order of the patterns *)

Lemma pychar_compare_eq (a b : pychar) : pychar_compare a b = Eq <-> a = b.
Proof.
  unfold pychar_compare. rewrite N.compare_eq_iff.
  split; [apply code_inj | now intros ->].
Qed.

Lemma pychar_compare_trans (a b d : pychar) (c : comparison) :
  pychar_compare a b = c -> pychar_compare b d = c -> pychar_compare a d = c.
Proof.
  unfold pychar_compare. destruct c.
  - rewrite !N.compare_eq_iff. congruence.
  - rewrite !N.compare_lt_iff. lia.
  - rewrite !N.compare_gt_iff. lia.
Qed.

Lemma pychar_compare_opp (a b : pychar) :
  pychar_compare b a = CompOpp (pychar_compare a b).
Proof. apply N.compare_antisym. Qed.

Lemma pystr_compare_opp (s t : pystr) :
  pystr_compare t s = CompOpp (pystr_compare s t).
Proof.
  apply (list_compare_antisym pychar_compare pychar_compare_eq).
  apply pychar_compare_opp.
Qed.

Lemma pystr_le_trans (s t u : pystr) :
  pystr_compare s t <> Gt -> pystr_compare t u <> Gt ->
  pystr_compare s u <> Gt.
Proof.
  intros H1 H2.
  destruct (pystr_compare s t) eqn:E1; [| | congruence].
  - apply (list_compare_refl pychar_compare pychar_compare_eq) in E1. now subst.
  - destruct (pystr_compare t u) eqn:E2; [| | congruence].
    + apply (list_compare_refl pychar_compare pychar_compare_eq) in E2. subst.
      now rewrite E1.
    + unfold pystr_compare in *.
      rewrite (list_compare_trans pychar_compare pychar_compare_eq s t u
                 pychar_compare_trans pychar_compare_opp E1 E2).
      discriminate.
Qed.

Lemma key_leb_le (p q : PatternDefinition) : key_leb p q = true <-> key_le p q.
Proof.
  unfold key_leb, key_le.
  destruct (priority p ?= priority q) eqn:E.
  - apply Z.compare_eq_iff in E.
    destruct (pystr_compare (name p) (name q)).
    + split; auto. intros _. right. split; [assumption | discriminate].
    + split; auto. intros _. right. split; [assumption | discriminate].
    + split; [discriminate |]. intros [H | [_ H]]; [lia | congruence].
  - apply Z.compare_lt_iff in E. split; auto.
  - apply Z.compare_gt_iff in E. split; [discriminate |].
    intros [H | [H _]]; lia.
Qed.

Lemma key_le_total (p q : PatternDefinition) : key_le p q \/ key_le q p.
Proof.
  unfold key_le. destruct (Z.lt_trichotomy (priority p) (priority q))
    as [H | [H | H]]; auto.
  destruct (pystr_compare (name p) (name q)) eqn:E.
  - left. right. split; auto. discriminate.
  - left. right. split; auto. discriminate.
  - right. right. split; auto. rewrite pystr_compare_opp, E. discriminate.
Qed.

Lemma key_le_trans (p q r : PatternDefinition) :
  key_le p q -> key_le q r -> key_le p r.
Proof.
  unfold key_le. intros [H1 | [H1 N1]] [H2 | [H2 N2]];
    try (left; lia).
  right. split; [lia |]. now apply pystr_le_trans with (name q).
Qed.

Lemma insert_sorted_keys (a : PatternDefinition) (l : list PatternDefinition) :
  StronglySorted key_le l -> StronglySorted key_le (insert_sorted key_leb a l).
Proof.
  induction l as [| b l IH]; intros S; simpl.
  - repeat constructor.
  - inversion S as [| ? ? Sl Fb]; subst.
    destruct (key_leb a b) eqn:E.
    + apply key_leb_le in E. constructor; auto. constructor; auto.
      eapply Forall_impl; [| exact Fb]. intros c. now apply key_le_trans.
    + assert (L : key_le b a).
      { destruct (key_le_total a b) as [H | H]; auto.
        apply key_leb_le in H. congruence. }
      constructor; auto.
      apply (Permutation_Forall (insert_sorted_perm key_leb a l)).
      now constructor.
Qed.

Lemma stable_sort_keys (l : list PatternDefinition) :
  StronglySorted key_le (stable_sort key_leb l).
Proof.
  induction l as [| a l IH]; simpl; [constructor |].
  now apply insert_sorted_keys.
Qed.

(** ** The detection loop *)

Lemma detect_loop_cons (q : PatternDefinition) (ps : list PatternDefinition)
    (image : Image) (origin : Z * Z) :
  detect_loop (q :: ps) image origin
  = match matches q image origin with
    | Ok true => (samples q image origin, Ok q)
    | Ok false =>
        (samples q image origin ++ fst (detect_loop ps image origin),
         snd (detect_loop ps image origin))
    | Raise e => (samples q image origin, Raise e)
    end.
Proof.
  cbn [detect_loop]. unfold matches, samples.
  destruct (matches_run q image origin) as [tr [[|] | e]]; cbn [fst snd]; auto.
  now destruct (detect_loop ps image origin).
Qed.

Lemma detect_loop_found (ps : list PatternDefinition) (image : Image)
    (origin : Z * Z) (p : PatternDefinition) :
  snd (detect_loop ps image origin) = Ok p
  <-> exists earlier later,
        ps = earlier ++ p :: later
        /\ Forall (fun q => matches q image origin = Ok false) earlier
        /\ matches p image origin = Ok true.
Proof.
  induction ps as [| q ps IH].
  - simpl. split; [discriminate |].
    intros (l1 & l2 & E & _). now destruct l1.
  - rewrite detect_loop_cons.
    destruct (matches_total q image origin) as [M | M]; rewrite M; cbn [snd].
    + split.
      * intros [= <-]. exists [], ps. repeat split; auto.
      * intros (l1 & l2 & E & F & _). destruct l1 as [| q' l1]; simpl in E.
        -- now injection E as <- _.
        -- injection E as <- _. inversion F; congruence.
    + rewrite IH. split.
      * intros (l1 & l2 & -> & F & Hp). exists (q :: l1), l2.
        repeat split; auto.
      * intros (l1 & l2 & E & F & Hp). destruct l1 as [| q' l1]; simpl in E.
        -- injection E as <- _. congruence.
        -- injection E as <- ->. inversion F; subst. now exists l1, l2.
Qed.

Lemma detect_loop_none (ps : list PatternDefinition) (image : Image)
    (origin : Z * Z) :
  snd (detect_loop ps image origin) = Raise NoPatternMatched
  <-> forall q, In q ps -> matches q image origin <> Ok true.
Proof.
  induction ps as [| q ps IH].
  - simpl. split; [intros _ q [] | reflexivity].
  - rewrite detect_loop_cons.
    destruct (matches_total q image origin) as [M | M]; rewrite M; cbn [snd].
    + split; [discriminate |]. intros H. exfalso.
      now apply (H q (or_introl eq_refl)).
    + rewrite IH. split.
      * intros H q' [<- | Hq]; [congruence | auto].
      * intros H q' Hq. apply H. now right.
Qed.

Lemma detect_loop_samples (earlier later : list PatternDefinition)
    (p : PatternDefinition) (image : Image) (origin : Z * Z) :
  Forall (fun q => matches q image origin = Ok false) earlier ->
  matches p image origin = Ok true ->
  fst (detect_loop (earlier ++ p :: later) image origin)
  = List.concat (map (fun q => samples q image origin) earlier)
    ++ samples p image origin.
Proof.
  intros F Hp. induction F as [| q l M F IH]; simpl app.
  - rewrite detect_loop_cons, Hp. reflexivity.
  - rewrite detect_loop_cons, M. cbn [fst map List.concat].
    now rewrite IH, app_assoc.
Qed.

Lemma samples_inside (p : PatternDefinition) (image : Image) (origin : Z * Z) :
  Forall (inside image) (samples p image origin).
Proof.
  unfold samples. rewrite matches_run_check. apply check_anchors_inside.
Qed.

Lemma detect_loop_inside (ps : list PatternDefinition) (image : Image)
    (origin : Z * Z) :
  Forall (inside image) (fst (detect_loop ps image origin)).
Proof.
  induction ps as [| q ps IH]; [constructor |].
  rewrite detect_loop_cons.
  pose proof (samples_inside q image origin) as S.
  destruct (matches q image origin) as [[|] | e]; cbn [fst]; auto.
  apply Forall_app. auto.
Qed.

(** ** C4: detection in key order *)

(** C4.  The configuration holds the loaded patterns sorted by the key
    (priority, name): priorities ascending, equal priorities by name
    ascending.  Detection returns the first pattern of that order whose
    [matches] is true, samples no pixel for any later pattern, and fails,
    with [NoPatternMatched], exactly when no loaded pattern matches.  A
    pattern without anchors matches every image. *)
Theorem c4_first_match_in_key_order
    (config_patterns file_patterns : list PatternDefinition)
    (hotkey_override data_hotkey : option pystr)
    (region_override data_region : option (list Z))
    (config : ExtractorConfig) (screenshot : Image) (origin : Z * Z) :
  from_sources config_patterns file_patterns hotkey_override data_hotkey
               region_override data_region = Some config ->
  let loaded := config_patterns ++ file_patterns in
  Permutation loaded (patterns config)
  /\ StronglySorted key_le (patterns config)
  /\ (forall p,
         detect_pattern config screenshot origin = Ok p
         <-> exists earlier later,
               patterns config = earlier ++ p :: later
               /\ Forall (fun q => matches q screenshot origin = Ok false)
                         earlier
               /\ matches p screenshot origin = Ok true)
  /\ (forall earlier p later,
         patterns config = earlier ++ p :: later ->
         Forall (fun q => matches q screenshot origin = Ok false) earlier ->
         matches p screenshot origin = Ok true ->
         detect_samples config screenshot origin
         = List.concat (map (fun q => samples q screenshot origin) earlier)
           ++ samples p screenshot origin)
  /\ (detect_pattern config screenshot origin = Raise NoPatternMatched
      <-> forall q, In q loaded -> matches q screenshot origin <> Ok true)
  /\ (forall q, anchors q = [] -> matches q screenshot origin = Ok true).
Proof.
  intros H loaded.
  assert (P : patterns config = stable_sort key_leb loaded).
  { unfold from_sources in H. fold loaded in H.
    destruct loaded; [discriminate |].
    destruct (match region_override with
              | Some (v :: r) => option_map Some (region_of (v :: r))
              | _ => match data_region with
                     | Some region_seq => option_map Some (region_of region_seq)
                     | None => Some None
                     end
              end); [| discriminate].
    now injection H as <-. }
  unfold detect_pattern, detect_samples. rewrite P.
  split; [apply stable_sort_perm |]. split; [apply stable_sort_keys |].
  split; [intros p; apply detect_loop_found |]. split.
  - intros earlier p later -> F Hp. now apply detect_loop_samples.
  - split.
    + rewrite detect_loop_none. split; intros M q Hq; apply M.
      * now apply (Permutation_in _ (stable_sort_perm key_leb loaded)).
      * now apply (Permutation_in _
                     (Permutation_sym (stable_sort_perm key_leb loaded))).
    + intros q Hq. unfold matches, matches_run. now rewrite Hq.
Qed.

Lemma c4_first_match_in_key_order_witness :
  detect_pattern Samples.config Samples.screen Samples.origin
  = Raise NoPatternMatched
  <-> forall q, In q ([Samples.p_default] ++ [Samples.p_strict]) ->
                matches q Samples.screen Samples.origin <> Ok true.
Proof.
  apply (c4_first_match_in_key_order [Samples.p_default] [Samples.p_strict]
           None None (Some [1920; 0; 3840; 1080]) None
           Samples.config Samples.screen Samples.origin).
  reflexivity.
Defined.

Example catch_all_detected :
  from_sources [Samples.p_default] [Samples.p_strict] None None
               (Some [1920; 0; 3840; 1080]) None
  = Some Samples.config
  /\ detect_pattern Samples.config Samples.screen Samples.origin
     = Ok Samples.p_default
  /\ detect_samples Samples.config Samples.screen Samples.origin = [(1, 1)].
Proof. repeat split. Qed.

Example bad_region_exits :
  from_sources [Samples.p_default] [] None None (Some [1920; 0; 3840]) None
  = None.
Proof. reflexivity. Qed.

Example equal_priority_by_name :
  stable_sort key_leb [Samples.p_default; Samples.p_alpha]
  = [Samples.p_alpha; Samples.p_default].
Proof. reflexivity. Qed.

(** ** C5: anchors outside the image *)

(** C5.  Every place at which [matches] samples a pixel lies inside the
    image, also during a whole detection, and a pattern that has an anchor
    whose place, origin subtracted, lies outside the image does not match,
    whatever the pixels of the image are. *)
Theorem c5_out_of_frame_anchor (p : PatternDefinition) (image : Image)
    (origin : Z * Z) :
  Forall (inside image) (samples p image origin)
  /\ (forall config,
         Forall (inside image) (detect_samples config image origin))
  /\ (anchors p <> [] ->
      (exists a, In a (anchors p) /\ ~ inside image (local_xy origin a)) ->
      forall pixels,
        matches p {| mode := mode image; size := size image; band := pixels |}
                origin
        = Ok false).
Proof.
  split; [apply samples_inside |]. split.
  - intros config. apply detect_loop_inside.
  - intros _ H pixels. unfold matches. rewrite matches_run_check.
    now apply check_anchors_outside.
Qed.

Lemma c5_out_of_frame_anchor_witness :
  matches Samples.p_outside
          {| mode := RGB; size := (4, 3); band := fun _ _ _ => 100 |}
          Samples.origin
  = Ok false.
Proof.
  apply (proj2 (proj2 (c5_out_of_frame_anchor Samples.p_outside Samples.screen
                         Samples.origin))).
  - discriminate.
  - exists Samples.anchor_outside. split; [in_list |].
    unfold inside. simpl. lia.
Defined.

(** ** C10: channels beyond the third *)

Lemma combine_firstn {A B : Type} (l : list A) (l' : list B) :
  combine l l' = combine (firstn (List.length l') l) l'.
Proof.
  revert l. induction l' as [| b l' IH]; intros [| a l]; simpl; auto.
  now rewrite <- IH.
Qed.

Lemma check_anchors_without_alpha (image : Image) (origin : Z * Z)
    (l : list AnchorDefinition) :
  check_anchors image origin l = check_anchors (without_alpha image) origin l.
Proof.
  induction l as [| a l IH]; auto.
  rewrite !check_anchors_cons, IH.
  replace (_color_within_tolerance
             (getpixel (without_alpha image) (local_xy origin a))
             (color_tuple (color a)) (tolerance a))
    with (_color_within_tolerance
            (getpixel image (local_xy origin a))
            (color_tuple (color a)) (tolerance a)); auto.
  unfold _color_within_tolerance, getpixel, without_alpha.
  destruct (color a) as [[r g] b]. now destruct (mode image).
Qed.

(** C10.  Against an expected colour of three channels, the colour test
    looks at the first three channels of the sampled pixel only: further
    channels are dropped by the pairing, so an image with an alpha band
    matches a pattern exactly when the same image without that band does. *)
Theorem c10_alpha_ignored :
  (forall actual expected tol,
      List.length expected = 3%nat -> (3 < List.length actual)%nat ->
      _color_within_tolerance actual expected tol
      = _color_within_tolerance (firstn 3 actual) expected tol)
  /\ (forall r g b alpha alpha' expected tol,
         List.length expected = 3%nat ->
         _color_within_tolerance [r; g; b; alpha] expected tol
         = _color_within_tolerance [r; g; b; alpha'] expected tol)
  /\ (forall p image origin,
         matches p image origin = matches p (without_alpha image) origin).
Proof.
  split; [| split].
  - intros actual expected tol E _. unfold _color_within_tolerance.
    now rewrite (combine_firstn actual expected), E.
  - intros r g b alpha alpha' expected tol E. unfold _color_within_tolerance.
    rewrite (combine_firstn [r; g; b; alpha] expected),
      (combine_firstn [r; g; b; alpha'] expected), E. reflexivity.
  - intros p image origin. unfold matches. rewrite !matches_run_check.
    now rewrite check_anchors_without_alpha.
Qed.

Lemma c10_alpha_ignored_witness :
  _color_within_tolerance [100; 150; 200; 255] [110; 140; 200] 20
  = _color_within_tolerance (firstn 3 [100; 150; 200; 255]) [110; 140; 200] 20.
Proof.
  apply (proj1 c10_alpha_ignored); [reflexivity | simpl; lia].
Defined.

Example alpha_screen_matches :
  matches Samples.p_alpha Samples.screen_alpha Samples.origin = Ok true
  /\ matches Samples.p_alpha Samples.screen Samples.origin = Ok true
  /\ _color_within_tolerance [100; 150; 200; 0] [130; 150; 200] 20 = Ok false.
Proof. repeat split. Qed.

(** * Further properties of the code *)

Import More.

(** ** The colour test and [matches] *)

Lemma fold_max_le (l : list Z) (a bound : Z) :
  fold_left Z.max l a <= bound <-> a <= bound /\ Forall (fun v => v <= bound) l.
Proof.
  revert a. induction l as [| v l IH]; intros a; cbn [fold_left].
  - split; [intros H; split; [assumption | constructor] | tauto].
  - rewrite IH. split.
    + intros [H F]. split; [lia |]. constructor; [lia | assumption].
    + intros [H F]. inversion F; subst. split; [lia | assumption].
Qed.

Lemma py_max_le (l : list Z) (bound : Z) :
  l <> [] ->
  exists m, py_max l = Ok m /\ (m <= bound <-> Forall (fun v => v <= bound) l).
Proof.
  destruct l as [| a l]; [congruence |]. intros _.
  exists (fold_left Z.max l a). split; [reflexivity |].
  rewrite fold_max_le. split.
  - intros [H F]. now constructor.
  - intros F. inversion F; subst. auto.
Qed.

(** The colour test raises exactly when one of the two colours has no
    channel; otherwise it is true exactly when every paired channel differs
    by at most the tolerance. *)
Theorem color_test_spec (actual expected : list Z) (tol : Z) :
  (_color_within_tolerance actual expected tol = Raise MaxOfEmptySequence
   <-> actual = [] \/ expected = [])
  /\ (_color_within_tolerance actual expected tol = Ok true
      <-> actual <> [] /\ expected <> []
          /\ Forall (fun ab => Z.abs (fst ab - snd ab) <= tol)
                    (combine actual expected))
  /\ (_color_within_tolerance actual expected tol = Ok false
      <-> actual <> [] /\ expected <> []
          /\ Exists (fun ab => tol < Z.abs (fst ab - snd ab))
                    (combine actual expected)).
Proof.
  unfold _color_within_tolerance.
  destruct actual as [| a actual].
  - simpl. repeat split; auto; try discriminate; intros [H _]; congruence.
  - destruct expected as [| e expected].
    + simpl. repeat split; auto; try discriminate; intros (_ & H & _);
        congruence.
    + set (pairs := combine (a :: actual) (e :: expected)).
      set (diffs := map (fun ab => Z.abs (fst ab - snd ab)) pairs).
      assert (Hne : diffs <> []) by discriminate.
      destruct (py_max_le diffs tol Hne) as (m & -> & Hm).
      cbn [bind]. unfold diffs in Hm. rewrite Forall_map in Hm.
      split; [| split].
      * split; [discriminate | intros [H | H]; discriminate].
      * rewrite <- Hm. split.
        -- intros [= H]. apply Z.leb_le in H.
           repeat split; auto; discriminate.
        -- intros (_ & _ & H). apply Z.leb_le in H. now rewrite H.
      * split.
        -- intros [= H]. apply Z.leb_gt in H.
           repeat split; try discriminate.
           apply Exists_exists.
           destruct (Forall_Exists_dec
                       (fun ab => Z.abs (fst ab - snd ab) <= tol)
                       (fun ab => Z_le_dec _ _) pairs) as [F | E].
           ++ apply Hm in F. lia.
           ++ apply Exists_exists in E. destruct E as (ab & Hin & Hab).
              exists ab. split; auto. lia.
        -- intros (_ & _ & H). f_equal. apply Z.leb_gt.
           apply Exists_exists in H. destruct H as (ab & Hin & Hab).
           destruct (Z_le_gt_dec m tol) as [L | G]; [| lia].
           apply Hm in L. rewrite Forall_forall in L.
           specialize (L ab Hin). lia.
Qed.

Lemma anchor_color_test (image : Image) (origin : Z * Z)
    (a : AnchorDefinition) :
  _color_within_tolerance (getpixel image (local_xy origin a))
                          (color_tuple (color a)) (tolerance a)
  = Ok true
  <-> let '(r, g, b) := color a in
      let px := fst (local_xy origin a) in
      let py := snd (local_xy origin a) in
      Z.abs (band image 0 px py - r) <= tolerance a
      /\ Z.abs (band image 1 px py - g) <= tolerance a
      /\ Z.abs (band image 2 px py - b) <= tolerance a.
Proof.
  destruct (color_test_spec (getpixel image (local_xy origin a))
              (color_tuple (color a)) (tolerance a)) as (_ & -> & _).
  unfold getpixel. destruct (color a) as [[r g] b].
  destruct (mode image); cbn [band_count seq map color_tuple combine];
    split.
  all: try (intros (_ & _ & F); inversion F as [| ? ? H0 F0]; subst;
            inversion F0 as [| ? ? H1 F1]; subst;
            inversion F1 as [| ? ? H2 F2]; subst; auto).
  all: intros (H0 & H1 & H2); repeat split; try discriminate;
    repeat constructor; auto.
Qed.

Lemma check_anchors_true (image : Image) (origin : Z * Z)
    (l : list AnchorDefinition) :
  snd (check_anchors image origin l) = Ok true
  <-> Forall (anchor_passes image origin) l.
Proof.
  induction l as [| a l IH].
  - simpl. split; [constructor | reflexivity].
  - rewrite check_anchors_cons. unfold anchor_passes at 1.
    pose proof (in_bounds_inside image (local_xy origin a)) as B.
    pose proof (anchor_color_test image origin a) as C.
    destruct (in_bounds image (local_xy origin a)); cbn [negb].
    + destruct (color_test_total image (local_xy origin a) (color a)
                  (tolerance a)) as [[|] E]; rewrite E in *; cbn [snd].
      * rewrite IH. split.
        -- intros F. constructor; auto. split; [now apply B | now apply C].
        -- intros F. now inversion F.
      * split; [discriminate |]. intros F. inversion F as [| ? ? [_ H] _].
        apply C in H. discriminate.
    + split; [discriminate |]. intros F. inversion F as [| ? ? [H _] _].
      apply B in H. discriminate.
Qed.

(** A pattern matches exactly when every one of its anchors lies inside the
    image and has a pixel within its tolerance; with no anchors this is
    always so.  Otherwise the result is [False], never an exception. *)
Theorem matches_all_anchors (p : PatternDefinition) (image : Image)
    (origin : Z * Z) :
  (matches p image origin = Ok true
   <-> Forall (anchor_passes image origin) (anchors p))
  /\ (matches p image origin = Ok false
      <-> Exists (fun a => ~ anchor_passes image origin a) (anchors p)).
Proof.
  assert (T : matches p image origin = Ok true
              <-> Forall (anchor_passes image origin) (anchors p)).
  { unfold matches. rewrite matches_run_check. apply check_anchors_true. }
  split; auto.
  destruct (matches_total p image origin) as [M | M]; rewrite M; split;
    try discriminate; auto.
  - intros E. exfalso. apply Exists_exists in E.
    destruct E as (a & Hin & Ha). apply Ha.
    apply T in M. rewrite Forall_forall in M. auto.
  - intros _. apply Exists_exists.
    assert (N : ~ Forall (anchor_passes image origin) (anchors p))
      by (intros F; apply T in F; congruence).
    clear T M. induction (anchors p) as [| a l IH].
    + now contradict N.
    + destruct (matches_total {| name := []; anchors := [a]; priority := 0 |}
                  image origin) as [Ma | Ma].
      * unfold matches in Ma. rewrite matches_run_check in Ma.
        apply check_anchors_true in Ma. inversion Ma; subst.
        destruct IH as (b & Hb & Hnb).
        -- intros F. apply N. now constructor.
        -- exists b. split; [now right | assumption].
      * exists a. split; [now left |]. intros Pa.
        unfold matches in Ma. rewrite matches_run_check in Ma.
        assert (F : Forall (anchor_passes image origin) [a])
          by (now constructor).
        apply check_anchors_true in F. cbn [anchors] in Ma. congruence.
Qed.

(** An anchor with a negative tolerance passes on no image, so a pattern
    that has one never matches. *)
Theorem negative_tolerance_never_matches (p : PatternDefinition)
    (image : Image) (origin : Z * Z) :
  (exists a, In a (anchors p) /\ tolerance a < 0) ->
  matches p image origin = Ok false.
Proof.
  intros (a & Hin & Hneg).
  destruct (matches_total p image origin) as [M | M]; auto.
  exfalso. unfold matches in M. rewrite matches_run_check in M.
  apply check_anchors_true in M. rewrite Forall_forall in M.
  destruct (M a Hin) as [_ H]. destruct (color a) as [[r g] b].
  destruct H as (H & _). pose proof (Z.abs_nonneg
    (band image 0 (fst (local_xy origin a)) (snd (local_xy origin a)) - r)).
  lia.
Qed.

(** Raising tolerances keeps a match: a pattern whose anchors are those of
    a matching pattern with tolerances not smaller matches as well. *)
Theorem matches_monotone_in_tolerance (p p' : PatternDefinition)
    (image : Image) (origin : Z * Z) :
  Forall2 loosened (anchors p) (anchors p') ->
  matches p image origin = Ok true ->
  matches p' image origin = Ok true.
Proof.
  unfold matches. rewrite !matches_run_check, !check_anchors_true.
  induction 1 as [| a a' l l' (Hx & Hy & Hc & Ht) F IH]; intros H;
    [constructor |].
  inversion H as [| ? ? [Hin Hcol] Hl]; subst.
  constructor; auto. unfold anchor_passes, local_xy in *.
  rewrite Hx, Hy, Hc. split; auto.
  destruct (color a) as [[r g] b]. cbn [fst snd] in *. lia.
Qed.

(** ** Trimming and case *)

Lemma lstrip_head (s : pystr) (c : pychar) (r : pystr) :
  lstrip s = c :: r -> is_space c = false.
Proof.
  induction s as [| a s IH]; simpl; [discriminate |].
  destruct (is_space a) eqn:E; auto. now intros [= <- _].
Qed.

Lemma lstrip_fixed (c : pychar) (r : pystr) :
  is_space c = false -> lstrip (c :: r) = c :: r.
Proof. intros H. simpl. now rewrite H. Qed.

Lemma lstrip_snoc (l : pystr) (c : pychar) :
  is_space c = false -> lstrip (l ++ [c]) = lstrip l ++ [c].
Proof.
  intros H. induction l as [| a l IH]; simpl.
  - now rewrite H.
  - now destruct (is_space a).
Qed.

Lemma rstrip_cons (c : pychar) (r : pystr) :
  is_space c = false -> rstrip (c :: r) = c :: rstrip r.
Proof.
  intros H. unfold rstrip. simpl rev. rewrite lstrip_snoc by assumption.
  now rewrite rev_app_distr.
Qed.

Lemma rstrip_last (s : pystr) (d : pychar) :
  rstrip s <> [] -> is_space (last (rstrip s) d) = false.
Proof.
  unfold rstrip. destruct (lstrip (rev s)) as [| c u] eqn:E; [easy |].
  intros _. simpl rev. rewrite last_last. now apply lstrip_head in E.
Qed.

Lemma strip_trimmed (s : pystr) : trimmed (strip s).
Proof.
  unfold strip. destruct (lstrip s) as [| c r] eqn:E; [exact I |].
  pose proof (lstrip_head _ _ _ E) as Hc.
  pose proof (rstrip_last (c :: r) c) as L.
  rewrite rstrip_cons in * by assumption.
  split; auto. apply L. discriminate.
Qed.

Lemma rev_head_last (s : pystr) (d : pychar) :
  s <> [] -> rev s = last s d :: rev (removelast s).
Proof.
  intros H. rewrite (app_removelast_last d H) at 1.
  now rewrite rev_app_distr.
Qed.

Lemma trimmed_strip (s : pystr) : trimmed s -> strip s = s.
Proof.
  destruct s as [| c r]; [reflexivity |]. intros [Hc Hl].
  unfold strip. rewrite lstrip_fixed by assumption.
  unfold rstrip. rewrite (rev_head_last (c :: r) c) by discriminate.
  rewrite lstrip_fixed by assumption.
  rewrite <- (rev_head_last (c :: r) c) by discriminate.
  apply rev_involutive.
Qed.

Lemma strip_idempotent (s : pystr) : strip (strip s) = strip s.
Proof. apply trimmed_strip, strip_trimmed. Qed.

Lemma lower_char_space (c : pychar) : is_space (lower_char c) = is_space c.
Proof. by_cases_on_char c. Qed.

Lemma lower_char_idempotent (c : pychar) :
  lower_char (lower_char c) = lower_char c.
Proof. by_cases_on_char c. Qed.

Lemma lower_idempotent (s : pystr) : lower (lower s) = lower s.
Proof.
  unfold lower. rewrite map_map. apply map_ext. apply lower_char_idempotent.
Qed.

Lemma lstrip_lower (s : pystr) : lstrip (lower s) = lower (lstrip s).
Proof.
  induction s as [| c s IH]; simpl; auto.
  rewrite lower_char_space. now destruct (is_space c).
Qed.

Lemma lower_rev (s : pystr) : lower (rev s) = rev (lower s).
Proof. apply map_rev. Qed.

Lemma rstrip_lower (s : pystr) : rstrip (lower s) = lower (rstrip s).
Proof.
  unfold rstrip. now rewrite <- lower_rev, lstrip_lower, lower_rev.
Qed.

Lemma strip_lower (s : pystr) : strip (lower s) = lower (strip s).
Proof. unfold strip. now rewrite lstrip_lower, rstrip_lower. Qed.

Lemma collapse_lower (in_run : bool) (s : pystr) :
  collapse in_run (lower s) = lower (collapse in_run s).
Proof.
  revert in_run. induction s as [| c s IH]; intros in_run; simpl; auto.
  rewrite lower_char_space.
  destruct (is_space c); [destruct in_run |]; simpl; now rewrite IH.
Qed.

Lemma normalize_lower (s : pystr) : _normalize (lower s) = _normalize s.
Proof.
  unfold _normalize, sub_spaces.
  now rewrite collapse_lower, strip_lower, lower_idempotent.
Qed.

(** ** The word list *)

(** Every word that [extract_words] builds has a text that is not empty and
    has no white space at either end, so that trimming it again changes
    nothing; no word is invented: the list is at most as long as the token
    list. *)
Theorem extract_words_texts (data : list RawToken) (words : list OCRWord) :
  extract_words data = Ok words ->
  Forall (fun w => text w <> [] /\ trimmed (text w)
                   /\ strip (text w) = text w) words
  /\ (List.length words <= List.length data)%nat.
Proof.
  unfold extract_words. rewrite extract_words_fold. cbn [app].
  destruct (map _ (filter kept data)) as [| w ws] eqn:E; [discriminate |].
  intros [= <-]. rewrite <- E. split.
  - apply Forall_forall. intros w' Hw. apply in_map_iff in Hw.
    destruct Hw as (r & <- & Hr). apply filter_In in Hr.
    destruct Hr as [_ K]. unfold kept in K. cbn [text make_word].
    split; [now destruct (strip (raw_text r)) |].
    split; [apply strip_trimmed | apply strip_idempotent].
  - rewrite length_map. apply filter_length_le.
Qed.

(** Label matching ignores case: two words whose texts differ in case only
    are both row anchors or both not, and both column words or both not. *)
Theorem label_matching_ignores_case (w w' : OCRWord) :
  lower (text w) = lower (text w') ->
  is_total w = is_total w' /\ is_agatston w = is_agatston w'.
Proof.
  intros H. unfold is_total, is_agatston.
  now rewrite <- (normalize_lower (text w)), <- (normalize_lower (text w')), H.
Qed.

(** ** What the extraction does not look at *)

Lemma filter_map_comm {A B : Type} (p : B -> bool) (f : A -> B) (l : list A) :
  filter p (map f l) = map f (filter (fun a => p (f a)) l).
Proof.
  induction l as [| a l IH]; simpl; auto.
  destruct (p (f a)); simpl; now rewrite IH.
Qed.

Lemma numbers_on_line_layout (words : list OCRWord) (a : OCRWord) :
  numbers_on_line (map layout_of words) (layout_of a)
  = map layout_of (numbers_on_line words a).
Proof. unfold numbers_on_line. now rewrite filter_map_comm. Qed.

Lemma row_best_layout (words : list OCRWord) (c : Q) (a : OCRWord) :
  row_best (map layout_of words) c (layout_of a) = row_best words c a.
Proof.
  unfold row_best. now rewrite numbers_on_line_layout, map_map.
Qed.

Lemma run_layout (words : list OCRWord) :
  extract_total_agatston_score_run (map layout_of words)
  = extract_total_agatston_score_run words.
Proof.
  rewrite !run_shape.
  assert (R : row_anchors (map layout_of words)
              = map layout_of (row_anchors words))
    by (unfold row_anchors; now rewrite filter_map_comm).
  assert (C : column_words (map layout_of words)
              = map layout_of (column_words words))
    by (unfold column_words; now rewrite filter_map_comm).
  assert (M : column_mean (map layout_of words) = column_mean words)
    by (unfold column_mean; now rewrite C, map_map, length_map).
  assert (F : forall t, fallback_words t (map layout_of words)
                        = map layout_of (fallback_words t words))
    by (intros t; unfold fallback_words; now rewrite filter_map_comm).
  cbv zeta. rewrite R, C, M, F, map_map.
  rewrite <- (pick_all_map layout_of
                (row_best (map layout_of words) (column_mean words))).
  rewrite (pick_all_ext
             (fun a => row_best (map layout_of words) (column_mean words)
                                (layout_of a))
             (row_best words (column_mean words)))
    by (intros; apply row_best_layout).
  destruct (row_anchors words); [reflexivity |].
  destruct (column_words words); reflexivity.
Qed.

Lemma same_layout_eq (w w' : OCRWord) :
  same_layout w w' -> layout_of w = layout_of w'.
Proof.
  unfold same_layout, layout_of.
  intros (-> & -> & -> & -> & -> & -> & ->). reflexivity.
Qed.

(** The extraction, log included, does not depend on the confidence of the
    words nor on their page and paragraph indices: word lists that agree on
    texts, boxes, line and block indices give the same outcome.  Low
    confidence filters nothing, and words of different paragraphs or pages
    with equal block and line indices count as one line. *)
Theorem extraction_ignores_confidence (words words' : list OCRWord) :
  Forall2 same_layout words words' ->
  extract_total_agatston_score_run words
  = extract_total_agatston_score_run words'.
Proof.
  intros F. rewrite <- (run_layout words), <- (run_layout words').
  f_equal. induction F as [| w w' l l' H F IH]; simpl; auto.
  now rewrite IH, (same_layout_eq _ _ H).
Qed.

(** ** The hotkey string *)

Import Hotkey.

Lemma plus_eqb (c : pychar) : pychar_eqb c (Latin "+") = true <-> c = Latin "+".
Proof. apply pychar_eqb_eq. Qed.

Lemma split_plus_step (c : pychar) (r : pystr) :
  pychar_eqb c (Latin "+") = false ->
  exists t ts, split_plus r = t :: ts /\ split_plus (c :: r) = (c :: t) :: ts.
Proof.
  intros H. cbn [split_plus]. rewrite H.
  destruct r as [| d r]; [now exists [], [] |].
  cbn [split_plus]. destruct (pychar_eqb d (Latin "+")); [eauto |].
  destruct (split_plus r); eauto.
Qed.

Lemma split_plus_chars (s : pystr) (c : pychar) :
  (exists t, In t (split_plus s) /\ In c t) <-> In c s /\ c <> Latin "+".
Proof.
  induction s as [| a s IH].
  - simpl. split; [intros (t & [<- | []] & []) | tauto].
  - destruct (pychar_eqb a (Latin "+")) eqn:E.
    + cbn [split_plus]. rewrite E. apply plus_eqb in E. subst a. split.
      * intros (t & [<- | Ht] & Hc); [destruct Hc |].
        destruct (proj1 IH (ex_intro _ t (conj Ht Hc))). split; auto.
        now right.
      * intros [[<- | Hc] Hne]; [congruence |].
        destruct (proj2 IH (conj Hc Hne)) as (t & Ht & Hct).
        exists t. split; auto. now right.
    + destruct (split_plus_step a s E) as (t0 & ts & Es & ->).
      rewrite Es in IH. split.
      * intros (t & [<- | Ht] & Hc).
        -- destruct Hc as [<- | Hc].
           ++ split; [now left |]. intros ->. discriminate.
           ++ destruct (proj1 IH (ex_intro _ t0 (conj (or_introl eq_refl) Hc))).
              split; auto. now right.
        -- destruct (proj1 IH (ex_intro _ t (conj (or_intror Ht) Hc))).
           split; auto. now right.
      * intros [[<- | Hc] Hne].
        -- exists (a :: t0). split; now left.
        -- destruct (proj2 IH (conj Hc Hne)) as (t & [<- | Ht] & Hct).
           ++ exists (a :: t0). split; [now left | now right].
           ++ exists t. split; auto. now right.
Qed.

Lemma lstrip_nil_iff (t : pystr) :
  lstrip t = [] <-> forall c, In c t -> is_space c = true.
Proof.
  induction t as [| a t IH]; simpl.
  - split; [intros _ c [] | reflexivity].
  - destruct (is_space a) eqn:E.
    + rewrite IH. split.
      * intros H c [<- | Hc]; auto.
      * intros H c Hc. apply H. now right.
    + split; [discriminate |]. intros H.
      rewrite (H a (or_introl eq_refl)) in E. discriminate.
Qed.

Lemma strip_nil_iff (t : pystr) :
  strip t = [] <-> forall c, In c t -> is_space c = true.
Proof.
  rewrite <- lstrip_nil_iff. unfold strip.
  destruct (lstrip t) as [| c r] eqn:E; [reflexivity |].
  rewrite rstrip_cons by (now apply lstrip_head in E).
  split; discriminate.
Qed.

Lemma tokens_nil_iff (h : pystr) :
  hotkey_tokens h = []
  <-> forall c, In c h -> is_space c = true \/ c = Latin "+".
Proof.
  unfold hotkey_tokens. split.
  - intros H c Hc. apply map_eq_nil in H.
    destruct (pychar_eqb c (Latin "+")) eqn:E; [right; now apply plus_eqb |].
    left. assert (Hne : c <> Latin "+") by (intros ->; discriminate).
    destruct (proj2 (split_plus_chars h c) (conj Hc Hne)) as (t & Ht & Hct).
    pose proof (proj1 (filter_nil_iff _ _) H t Ht) as B. cbv beta in B.
    destruct (strip t) eqn:S; [| discriminate].
    now apply (proj1 (strip_nil_iff t) S).
  - intros H. replace (filter _ (split_plus h)) with (@nil pystr);
      [reflexivity |].
    symmetry. apply filter_nil_iff. intros t Ht.
    assert (S : strip t = []).
    { apply strip_nil_iff. intros c Hc.
      destruct (proj1 (split_plus_chars h c) (ex_intro _ t (conj Ht Hc)))
        as [Hin Hne].
      destruct (H c Hin); [assumption | contradiction]. }
    now rewrite S.
Qed.

(** [normalize_hotkey] raises exactly when the string holds nothing but
    white space and plus signs, the empty string included; every other
    string is normalised. *)
Theorem normalize_hotkey_fails_iff_blank (h : pystr) :
  normalize_hotkey h = None
  <-> forall c, In c h -> is_space c = true \/ c = Latin "+".
Proof.
  rewrite <- tokens_nil_iff. unfold normalize_hotkey.
  destruct (hotkey_tokens h); split; auto; discriminate.
Qed.

Lemma lower_char_plus (c : pychar) :
  pychar_eqb (lower_char c) (Latin "+") = pychar_eqb c (Latin "+").
Proof. by_cases_on_char c. Qed.

Lemma split_plus_lower (s : pystr) :
  split_plus (lower s) = map lower (split_plus s).
Proof.
  induction s as [| c s IH]; [reflexivity |].
  change (lower (c :: s)) with (lower_char c :: lower s).
  cbn [split_plus]. rewrite lower_char_plus, IH.
  destruct (pychar_eqb c (Latin "+")); [reflexivity |].
  now destruct (split_plus s).
Qed.

Lemma tokens_lower (h : pystr) : hotkey_tokens (lower h) = hotkey_tokens h.
Proof.
  unfold hotkey_tokens. rewrite split_plus_lower, filter_map_comm, map_map.
  rewrite (filter_ext _ (fun token => match strip token with
                                      | [] => false
                                      | _ :: _ => true
                                      end)).
  - apply map_ext. intros t. now rewrite strip_lower, lower_idempotent.
  - intros t. rewrite strip_lower. now destruct (strip t).
Qed.

(** The normal form does not depend on the case of the letters of the
    hotkey string. *)
Theorem normalize_hotkey_ignores_case (h h' : pystr) :
  lower h = lower h' -> normalize_hotkey h = normalize_hotkey h'.
Proof.
  intros H. unfold normalize_hotkey.
  now rewrite <- (tokens_lower h), <- (tokens_lower h'), H.
Qed.

Lemma split_plus_noplus (t : pystr) :
  ~ In (Latin "+") t -> split_plus t = [t].
Proof.
  induction t as [| c t IH]; intros H; [reflexivity |].
  assert (E : pychar_eqb c (Latin "+") = false).
  { destruct (pychar_eqb c (Latin "+")) eqn:E; auto. apply plus_eqb in E.
    exfalso. apply H. now left. }
  cbn [split_plus]. rewrite E, IH; auto. intros Hin. apply H. now right.
Qed.

Lemma split_plus_app (t r : pystr) :
  ~ In (Latin "+") t -> split_plus (t ++ (Latin "+") :: r) = t :: split_plus r.
Proof.
  induction t as [| c t IH]; intros H; [reflexivity |].
  assert (E : pychar_eqb c (Latin "+") = false).
  { destruct (pychar_eqb c (Latin "+")) eqn:E; auto. apply plus_eqb in E.
    exfalso. apply H. now left. }
  simpl app. cbn [split_plus]. rewrite E, IH; auto.
  intros Hin. apply H. now right.
Qed.

Lemma split_join (us : list pystr) :
  us <> [] -> Forall (fun t => ~ In (Latin "+") t) us ->
  split_plus (join_plus us) = us.
Proof.
  induction us as [| t ts IH]; intros Hne F; [congruence |].
  inversion F as [| ? ? Ht Fts]; subst.
  destruct ts as [| u ts]; cbn [join_plus].
  - now apply split_plus_noplus.
  - rewrite split_plus_app by assumption. f_equal. apply IH; auto.
    discriminate.
Qed.

Lemma dict_get_values (t v : pystr) :
  dict_get t key_map = Some v ->
  In v [str "<ctrl>"; str "<shift>"; str "<alt>"; str "<cmd>"].
Proof.
  unfold key_map. cbn [dict_get].
  repeat (destruct (pystr_eqb t _); [intros [= <-]; simpl; tauto |]).
  discriminate.
Qed.

Lemma bracketed_token (t : pystr) :
  normalize_token (Latin "<" :: t ++ [Latin ">"]) = Latin "<" :: t ++ [Latin ">"].
Proof.
  unfold normalize_token.
  change (dict_get (Latin "<" :: t ++ [Latin ">"]) key_map) with (@None pystr).
  change (startswith (Latin "<" :: t ++ [Latin ">"]) (str "f")) with false.
  cbn [andb]. now destruct (Nat.eqb _ 1).
Qed.

Lemma normalize_token_fixed (t : pystr) :
  normalize_token (normalize_token t) = normalize_token t.
Proof.
  unfold normalize_token at 2 3.
  destruct (dict_get t key_map) as [v |] eqn:D.
  - apply dict_get_values in D.
    destruct D as [<- | [<- | [<- | [<- | []]]]]; reflexivity.
  - destruct (startswith t (str "f") && isdigit (tl t)) eqn:F.
    + apply bracketed_token.
    + replace (if Nat.eqb (List.length t) 1 then t else t) with t
        by (now destruct (Nat.eqb _ 1)).
      unfold normalize_token. rewrite D, F. now destruct (Nat.eqb _ 1).
Qed.

Lemma normalize_token_clean (t : pystr) :
  t <> [] -> ~ In (Latin "+") t -> trimmed t -> lower t = t ->
  normalize_token t <> [] /\ ~ In (Latin "+") (normalize_token t)
  /\ trimmed (normalize_token t)
  /\ lower (normalize_token t) = normalize_token t.
Proof.
  intros Hne Hplus Htrim Hlow. unfold normalize_token.
  destruct (dict_get t key_map) as [v |] eqn:D.
  - apply dict_get_values in D.
    destruct D as [<- | [<- | [<- | [<- | []]]]];
      (split; [discriminate |]); (split; [| split; [split | ]; reflexivity]);
      simpl; intros H; repeat (destruct H as [H | H]; [discriminate |]);
      destruct H.
  - destruct (startswith t (str "f") && isdigit (tl t)).
    + split; [discriminate |]. split; [| split].
      * intros [H | H]; [discriminate |]. apply in_app_or in H.
        destruct H as [H | [H | []]]; [contradiction | discriminate].
      * split; [reflexivity |].
        change (Latin "<" :: t ++ [Latin ">"])
          with ((Latin "<" :: t) ++ [Latin ">"]).
        now rewrite last_last.
      * unfold lower in *. simpl map. rewrite map_app, Hlow. reflexivity.
    + now destruct (Nat.eqb _ 1).
Qed.

Lemma lstrip_incl (s : pystr) (c : pychar) : In c (lstrip s) -> In c s.
Proof.
  induction s as [| a s IH]; simpl; auto.
  destruct (is_space a); auto.
Qed.

Lemma strip_incl (s : pystr) (c : pychar) : In c (strip s) -> In c s.
Proof.
  unfold strip, rstrip. intros H. apply in_rev, lstrip_incl in H.
  apply in_rev in H. now apply lstrip_incl.
Qed.

Lemma first_tokens_clean (h t : pystr) :
  In t (hotkey_tokens h) ->
  t <> [] /\ ~ In (Latin "+") t /\ trimmed t /\ lower t = t.
Proof.
  unfold hotkey_tokens. intros H. apply in_map_iff in H.
  destruct H as (p & <- & Hp). apply filter_In in Hp. destruct Hp as [Hp B].
  split; [| split; [| split]].
  - unfold lower. destruct (strip p); [discriminate | discriminate].
  - intros H. apply in_map_iff in H. destruct H as (c & Hc & Hin).
    assert (E : c = Latin "+").
    { apply plus_eqb. rewrite <- lower_char_plus, Hc. reflexivity. }
    subst c. apply strip_incl in Hin.
    destruct (proj1 (split_plus_chars h (Latin "+"))
                (ex_intro _ p (conj Hp Hin))) as [_ N].
    now apply N.
  - rewrite <- strip_lower. apply strip_trimmed.
  - apply lower_idempotent.
Qed.

Lemma map_filter_fixed {A : Type} (p : A -> bool) (f : A -> A) (l : list A) :
  Forall (fun a => p a = true /\ f a = a) l -> map f (filter p l) = l.
Proof.
  induction 1 as [| a l [Hp Hf] F IH]; [reflexivity |].
  simpl. rewrite Hp. simpl. now rewrite Hf, IH.
Qed.

Lemma clean_tokens_again (vs : list pystr) :
  vs <> [] ->
  Forall (fun v => v <> [] /\ ~ In (Latin "+") v /\ trimmed v /\ lower v = v) vs ->
  hotkey_tokens (join_plus vs) = vs.
Proof.
  intros Hne F. unfold hotkey_tokens. rewrite split_join; auto.
  - apply map_filter_fixed. eapply Forall_impl; [| exact F].
    intros v (Hv & _ & Ht & Hl). rewrite (trimmed_strip v Ht).
    split; [now destruct v | assumption].
  - eapply Forall_impl; [| exact F]. now intros v (_ & H & _).
Qed.

(** [normalize_hotkey] is idempotent: a normalised hotkey string is its own
    normal form, so normalising twice is harmless. *)
Theorem normalize_hotkey_idempotent (h k : pystr) :
  normalize_hotkey h = Some k -> normalize_hotkey k = Some k.
Proof.
  unfold normalize_hotkey at 1.
  remember (hotkey_tokens h) as toks eqn:E.
  destruct toks as [| t ts]; [discriminate |].
  intros H.
  assert (K : k = join_plus (map normalize_token (t :: ts)))
    by (now injection H).
  clear H. subst k.
  assert (C : Forall (fun v => v <> [] /\ ~ In (Latin "+") v /\ trimmed v
                               /\ lower v = v)
                     (map normalize_token (t :: ts))).
  { apply Forall_map, Forall_forall. intros u Hu. rewrite E in Hu.
    destruct (first_tokens_clean h u Hu) as (H1 & H2 & H3 & H4).
    now apply normalize_token_clean. }
  assert (N : map normalize_token (t :: ts) <> []) by discriminate.
  unfold normalize_hotkey. rewrite (clean_tokens_again _ N C).
  assert (F : map normalize_token (map normalize_token (t :: ts))
              = map normalize_token (t :: ts))
    by (rewrite map_map; apply map_ext, normalize_token_fixed).
  destruct (map normalize_token (t :: ts)) as [| v vs]; [congruence |].
  now rewrite F.
Qed.

(** ** The drivers *)

Import Driver.

Lemma seq_act_done {A B : Type} (m : act A) (k : A -> act B) (ev : list event)
    (b : B) :
  seq_act m k = (ev, Done b)
  <-> exists ev1 a ev2,
        m = (ev1, Done a) /\ k a = (ev2, Done b) /\ ev = ev1 ++ ev2.
Proof.
  unfold seq_act. destruct m as [ev1 [a | f |]].
  - destruct (k a) as [ev2 o] eqn:K. split.
    + intros [= <- ->]. now exists ev1, a, ev2.
    + intros (e1 & a' & e2 & [= <- <-] & K' & ->).
      rewrite K in K'. now injection K' as <- <-.
  - split; [discriminate | intros (? & ? & ? & [=] & _)].
  - split; [discriminate | intros (? & ? & ? & [=] & _)].
Qed.

Lemma seq_act_events {A B : Type} (m : act A) (k : A -> act B) (e : event) :
  In e (fst (seq_act m k))
  <-> In e (fst m) \/ exists a, snd m = Done a /\ In e (fst (k a)).
Proof.
  unfold seq_act. destruct m as [ev1 [a | f |]]; cbn [fst snd].
  - destruct (k a) as [ev2 o] eqn:K. cbn [fst]. rewrite in_app_iff. split.
    + intros [H | H]; auto. right. exists a. now rewrite K.
    + intros [H | (a' & [= <-] & H)]; auto. rewrite K in H. auto.
  - split; auto. intros [H | (a & [=] & _)]; auto.
  - split; auto. intros [H | (a & [=] & _)]; auto.
Qed.

Lemma ensure_region_cases (r : option (list Z)) :
  (exists t, ensure_region r = ([], Done t)
             /\ (r = None -> t = DEFAULT_REPORT_REGION)
             /\ (forall l, r = Some l -> region_of l = Some t))
  \/ (ensure_region r = ([], Raised RegionArity)
      /\ exists l, r = Some l /\ region_of l = None).
Proof.
  destruct r as [l |]; unfold ensure_region.
  - destruct (region_of l) as [t |] eqn:E.
    + left. exists t. repeat split; [discriminate |]. now intros l' [= <-].
    + right. split; auto. now exists l.
  - left. exists DEFAULT_REPORT_REGION. repeat split; discriminate.
Qed.

Lemma capture_region_done (pf : Platform) (r : region)
    (path : option pystr) (ev : list event) (image : Image) :
  capture_region pf r path = (ev, Done image)
  -> let '(x1, y1, x2, y2) := r in
     x1 < x2 /\ y1 < y2
     /\ image = grab pf (Some (x1, y1, x2 - x1, y2 - y1))
     /\ (ev = [Grabbed (Some (x1, y1, x2 - x1, y2 - y1))]
         \/ ev = [Grabbed (Some (x1, y1, x2 - x1, y2 - y1)); Saved]).
Proof.
  destruct r as [[[x1 y1] x2] y2]. unfold capture_region.
  destruct ((x2 <=? x1) || (y2 <=? y1)) eqn:B; [discriminate |].
  apply orb_false_iff in B. destruct B as [Bx By].
  apply Z.leb_gt in Bx, By.
  destruct path as [[| c p] |]; intros [= <- <-]; auto.
Qed.

Lemma seq_act_snd {A B : Type} (m : act A) (k : A -> act B) (a : A) :
  snd m = Done a -> snd (seq_act m k) = snd (k a).
Proof.
  destruct m as [ev o]. cbn [snd]. intros ->. unfold seq_act.
  now destruct (k a).
Qed.

Lemma seq_act_stops {A B : Type} (m : act A) (k : A -> act B) :
  (forall a, snd m <> Done a) ->
  fst (seq_act m k) = fst m
  /\ ((exists f, snd m = Raised f /\ snd (seq_act m k) = Raised f)
      \/ (snd m = SystemExit /\ snd (seq_act m k) = SystemExit)).
Proof.
  destruct m as [ev [a | f |]]; cbn [fst snd seq_act]; intros H.
  - now destruct (H a).
  - split; auto. left. now exists f.
  - split; auto.
Qed.

Lemma configure_tesseract_events (pf : Platform) (path : option pystr)
    (e : event) :
  In e (fst (configure_tesseract pf path)) ->
  (exists cmd, e = TesseractSet cmd) \/ e = WarnedNoTesseract.
Proof.
  unfold configure_tesseract.
  destruct path as [[| c p] |];
    repeat match goal with
           | |- context [if ?b then _ else _] => destruct b
           | |- context [match find ?f ?l with _ => _ end] =>
               destruct (find f l)
           end;
    cbn [fst ret]; intros H; repeat (destruct H as [<- | H]); eauto;
    destruct H.
Qed.

Lemma capture_region_events (pf : Platform) (r : region)
    (path : option pystr) (e : event) :
  In e (fst (capture_region pf r path)) ->
  e = Saved
  \/ exists x y w h, e = Grabbed (Some (x, y, w, h)) /\ 0 < w /\ 0 < h.
Proof.
  destruct r as [[[x1 y1] x2] y2]. unfold capture_region.
  destruct ((x2 <=? x1) || (y2 <=? y1)) eqn:B; [intros [] |].
  apply orb_false_iff in B. destruct B as [Bx By].
  apply Z.leb_gt in Bx, By.
  destruct path as [[| c p] |]; cbn [fst]; intros H;
    repeat (destruct H as [<- | H]); auto; try destruct H;
    right; exists x1, y1, (x2 - x1), (y2 - y1); repeat split; lia.
Qed.

Lemma recognise_shape (pf : Platform) (image : Image) :
  recognise pf image
  = match extract_words (image_to_data pf image) with
    | Ok words => ([Recognised], Done words)
    | Raise e => ([Recognised], Raised (Extraction e))
    end.
Proof.
  unfold recognise. cbn [seq_act].
  now destruct (extract_words (image_to_data pf image)).
Qed.

Lemma configure_tesseract_exits (pf : Platform) (path : option pystr) :
  snd (configure_tesseract pf path) = SystemExit
  <-> exists c p, path = Some (c :: p)
                  /\ path_exists pf (expandvars pf (c :: p)) = false.
Proof.
  unfold configure_tesseract. destruct path as [[| c p] |].
  - destruct (os_name_nt pf); [destruct (find _ _) |]; cbn [snd ret];
      split; try discriminate; intros (? & ? & [=] & _).
  - destruct (path_exists pf (expandvars pf (c :: p))) eqn:E; cbn [snd].
    + split; [discriminate |]. intros (c' & p' & [= <- <-] & H). congruence.
    + split; auto. intros _. now exists c, p.
  - destruct (os_name_nt pf); [destruct (find _ _) |]; cbn [snd ret];
      split; try discriminate; intros (? & ? & [=] & _).
Qed.

Lemma configure_tesseract_ends (pf : Platform) (path : option pystr) :
  snd (configure_tesseract pf path) = Done tt
  \/ (snd (configure_tesseract pf path) = SystemExit
      /\ fst (configure_tesseract pf path) = []).
Proof.
  unfold configure_tesseract.
  destruct path as [[| c p] |];
    repeat match goal with
           | |- context [if ?b then _ else _] => destruct b
           | |- context [match find ?f ?l with _ => _ end] =>
               destruct (find f l)
           end; cbn [fst snd ret]; auto.
Qed.

Lemma capture_region_ends (pf : Platform) (r : region)
    (path : option pystr) :
  (exists image, snd (capture_region pf r path) = Done image)
  \/ capture_region pf r path = ([], Raised BadRegion).
Proof.
  destruct r as [[[x1 y1] x2] y2]. unfold capture_region.
  destruct ((x2 <=? x1) || (y2 <=? y1)); auto.
  left. destruct path as [[| c p] |]; cbn [snd]; eauto.
Qed.

Lemma show_result_shape (pf : Platform) (score : Z) (popup : bool) :
  snd (show_result pf score popup) = Done tt
  /\ In (Printed score) (fst (show_result pf score popup))
  /\ forall e, In e (fst (show_result pf score popup)) ->
               e = Printed score \/ e = Alerted score \/ e = WarnedPopup.
Proof.
  unfold show_result. destruct popup; [destruct (alert pf score) |];
    cbn [fst snd]; (split; [reflexivity |]); (split; [now left |]);
    intros e H; simpl in H;
    repeat (destruct H as [<- | H]; auto); destruct H.
Qed.

Lemma warnings_events (log : list log_record) (e : event) :
  In e (warnings log) -> e = WarnedFallback.
Proof.
  unfold warnings. rewrite in_flat_map. intros (r & _ & H).
  destruct r; simpl in H; try destruct H as [<- | H]; auto; destruct H.
Qed.

Lemma extract_score_shape (words : list OCRWord) :
  extract_score words
  = (warnings (extract_log words),
     match extract_total_agatston_score words with
     | Ok v => Done v
     | Raise e => Raised (Extraction e)
     end).
Proof.
  unfold extract_score. now destruct (extract_total_agatston_score words).
Qed.

Lemma after_capture_shape (pf : Platform) (image : Image) (popup : bool) :
  after_capture pf image popup
  = match extract_words (image_to_data pf image) with
    | Raise e => ([Recognised], Raised (Extraction e))
    | Ok words =>
        match extract_total_agatston_score words with
        | Raise e =>
            (Recognised :: warnings (extract_log words),
             Raised (Extraction e))
        | Ok score =>
            (Recognised :: warnings (extract_log words)
               ++ fst (show_result pf score popup), Done tt)
        end
    end.
Proof.
  unfold after_capture. rewrite recognise_shape.
  destruct (extract_words (image_to_data pf image)) as [words | e];
    cbn [seq_act]; auto.
  rewrite extract_score_shape.
  destruct (extract_total_agatston_score words) as [score | e];
    cbn [seq_act app]; auto.
  destruct (show_result_shape pf score popup) as [D _].
  destruct (show_result pf score popup) as [ev o]. cbn [fst snd] in *.
  now subst o.
Qed.

Lemma after_capture_printed (pf : Platform) (image : Image) (popup : bool)
    (score : Z) :
  In (Printed score) (fst (after_capture pf image popup))
  <-> exists words,
        extract_words (image_to_data pf image) = Ok words
        /\ extract_total_agatston_score words = Ok score.
Proof.
  rewrite after_capture_shape.
  destruct (extract_words (image_to_data pf image)) as [words | e].
  - destruct (extract_total_agatston_score words) as [s | e] eqn:S;
      cbn [fst].
    + destruct (show_result_shape pf s popup) as (_ & P & E). split.
      * intros [[=] | H]. apply in_app_or in H. destruct H as [H | H].
        -- apply warnings_events in H. discriminate.
        -- apply E in H. destruct H as [[= <-] | [[=] | [=]]].
           now exists words.
      * intros (w & [= <-] & S'). rewrite S in S'. injection S' as <-.
        right. apply in_or_app. now right.
    + split.
      * intros [[=] | H]. apply warnings_events in H. discriminate.
      * intros (w & [= <-] & S'). congruence.
  - split; [intros [[=] | []] | intros (w & [=] & _)].
Qed.

Lemma after_capture_done (pf : Platform) (image : Image) (popup : bool) :
  snd (after_capture pf image popup) = Done tt
  <-> exists score, In (Printed score) (fst (after_capture pf image popup)).
Proof.
  split.
  - intros H.
    assert (E : exists words score,
               extract_words (image_to_data pf image) = Ok words
               /\ extract_total_agatston_score words = Ok score).
    { rewrite after_capture_shape in H.
      destruct (extract_words (image_to_data pf image)) as [words | e];
        [| discriminate].
      destruct (extract_total_agatston_score words) as [s | e] eqn:S;
        [| discriminate].
      now exists words, s. }
    destruct E as (words & score & W & S). exists score.
    apply after_capture_printed. now exists words.
  - intros (score & H). apply after_capture_printed in H.
    destruct H as (words & W & S). rewrite after_capture_shape, W, S.
    reflexivity.
Qed.

Lemma after_capture_ends (pf : Platform) (image : Image) (popup : bool) :
  snd (after_capture pf image popup) = Done tt
  \/ exists e, snd (after_capture pf image popup) = Raised (Extraction e).
Proof.
  rewrite after_capture_shape.
  destruct (extract_words (image_to_data pf image)) as [words | e];
    [| right; now exists e].
  destruct (extract_total_agatston_score words) as [s | e]; auto.
  right. now exists e.
Qed.

Lemma after_capture_events (pf : Platform) (image : Image) (popup : bool)
    (e : event) :
  In e (fst (after_capture pf image popup)) ->
  e = Recognised \/ e = WarnedFallback \/ e = WarnedPopup
  \/ exists score, e = Printed score \/ e = Alerted score.
Proof.
  rewrite after_capture_shape.
  destruct (extract_words (image_to_data pf image)) as [words | err].
  - destruct (extract_total_agatston_score words) as [s | err]; cbn [fst].
    + intros [<- | H]; auto. apply in_app_or in H. destruct H as [H | H].
      * apply warnings_events in H. auto.
      * apply (show_result_shape pf s popup) in H.
        destruct H as [-> | [-> | ->]]; eauto 6.
    + intros [<- | H]; auto. apply warnings_events in H. auto.
  - intros [<- | []]. auto.
Qed.

Lemma seq_act_ret {A B : Type} (a : A) (k : A -> act B) :
  seq_act (ret a) k = k a.
Proof. unfold ret. cbn [seq_act]. now destruct (k a). Qed.

Lemma ensure_region_requested (args : Args) :
  ensure_region (option_map region_list (arg_region args))
  = ret (requested_region args).
Proof.
  unfold requested_region.
  destruct (arg_region args) as [[[[x1 y1] x2] y2] |]; reflexivity.
Qed.

Lemma main_body_shape (pf : Platform) (args : Args) :
  main_body pf args
  = seq_act (configure_tesseract pf (arg_tesseract_path args)) (fun _ =>
    seq_act (capture_region pf (requested_region args)
                            (arg_screenshot_path args)) (fun image =>
    seq_act (after_capture pf image (negb (arg_no_popup args)))
            (fun _ => ret 0))).
Proof.
  unfold main_body, after_capture.
  rewrite ensure_region_requested, seq_act_ret.
  destruct (configure_tesseract pf (arg_tesseract_path args))
    as [ev1 [[] | f |]]; auto.
  cbn [seq_act].
  destruct (capture_region pf (requested_region args)
                           (arg_screenshot_path args))
    as [ev2 [image | f |]]; auto.
  cbn [seq_act]. rewrite recognise_shape.
  destruct (extract_words (image_to_data pf image)) as [words | e]; auto.
  cbn [seq_act]. rewrite extract_score_shape.
  destruct (extract_total_agatston_score words) as [score | e]; auto.
  cbn [seq_act].
  destruct (show_result_shape pf score (negb (arg_no_popup args)))
    as [D _].
  destruct (show_result pf score (negb (arg_no_popup args))) as [ev o].
  cbn [snd] in D. subst o. cbn [seq_act ret].
  now rewrite !app_nil_r.
Qed.

Lemma main_body_printed (pf : Platform) (args : Args) (score : Z) :
  In (Printed score) (fst (main_body pf args)) ->
  snd (main_body pf args) = Done 0
  /\ exists x1 y1 x2 y2 words,
       requested_region args = (x1, y1, x2, y2)
       /\ x1 < x2 /\ y1 < y2
       /\ extract_words
            (image_to_data pf (grab pf (Some (x1, y1, x2 - x1, y2 - y1))))
          = Ok words
       /\ extract_total_agatston_score words = Ok score.
Proof.
  rewrite main_body_shape. intros H.
  apply seq_act_events in H. destruct H as [H | (u & Eu & H)].
  { apply configure_tesseract_events in H.
    destruct H as [(cmd & [=]) | [=]]. }
  rewrite (seq_act_snd _ _ _ Eu).
  apply seq_act_events in H. destruct H as [H | (image & Ei & H)].
  { apply capture_region_events in H.
    destruct H as [[=] | (? & ? & ? & ? & [=] & _)]. }
  rewrite (seq_act_snd _ _ _ Ei).
  apply seq_act_events in H. destruct H as [H | (v & _ & [])].
  assert (A : snd (after_capture pf image (negb (arg_no_popup args)))
              = Done tt)
    by (apply after_capture_done; now exists score).
  rewrite (seq_act_snd _ _ _ A). split; [reflexivity |].
  apply after_capture_printed in H. destruct H as (words & W & S).
  destruct (capture_region pf (requested_region args)
                           (arg_screenshot_path args)) as [evc oc] eqn:C.
  cbn [snd] in Ei. subst oc.
  pose proof (capture_region_done pf _ _ _ _ C) as D.
  destruct (requested_region args) as [[[x1 y1] x2] y2].
  destruct D as (Hx & Hy & -> & _).
  exists x1, y1, x2, y2, words. auto.
Qed.

Lemma main_body_done (pf : Platform) (args : Args) (code : Z) :
  snd (main_body pf args) = Done code ->
  code = 0 /\ exists score, In (Printed score) (fst (main_body pf args)).
Proof.
  rewrite main_body_shape. intros B.
  destruct (configure_tesseract pf (arg_tesseract_path args))
    as [e1 [[] | f |]]; try discriminate. cbn [seq_act] in *.
  destruct (capture_region pf (requested_region args)
                           (arg_screenshot_path args))
    as [e2 [image | f |]]; try discriminate. cbn [seq_act] in *.
  destruct (after_capture pf image (negb (arg_no_popup args)))
    as [e3 o3] eqn:A.
  assert (D : o3 = Done tt).
  { destruct o3 as [[] | f |]; auto; discriminate. }
  subst o3.
  destruct (proj1 (after_capture_done pf image (negb (arg_no_popup args))))
    as (score & Hs); [now rewrite A |].
  rewrite A in Hs. cbn [fst snd seq_act ret] in *. split.
  - now injection B.
  - exists score. rewrite !in_app_iff. auto.
Qed.

Lemma main_body_exits (pf : Platform) (args : Args) :
  (snd (main_body pf args) = SystemExit
   <-> exists c p,
         arg_tesseract_path args = Some (c :: p)
         /\ path_exists pf (expandvars pf (c :: p)) = false)
  /\ (snd (main_body pf args) = SystemExit -> fst (main_body pf args) = []).
Proof.
  rewrite <- configure_tesseract_exits, main_body_shape.
  destruct (configure_tesseract_ends pf (arg_tesseract_path args))
    as [D | [X Q]];
    destruct (configure_tesseract pf (arg_tesseract_path args)) as [e1 o1];
    cbn [fst snd] in *; subst; cbn [seq_act fst snd]; [| tauto].
  assert (N : snd (seq_act
                    (capture_region pf (requested_region args)
                                    (arg_screenshot_path args))
                    (fun image =>
                       seq_act (after_capture pf image
                                              (negb (arg_no_popup args)))
                               (fun _ => ret 0))) <> SystemExit).
  { destruct (capture_region_ends pf (requested_region args)
                (arg_screenshot_path args)) as [(image & C) | ->].
    - destruct (capture_region pf _ _) as [e2 o2]. cbn [snd] in C.
      subst o2. cbn [seq_act].
      destruct (after_capture_ends pf image (negb (arg_no_popup args)))
        as [A | (e & A)];
        destruct (after_capture pf image (negb (arg_no_popup args)))
          as [e3 o3]; cbn [snd] in A; subst o3; cbn [seq_act ret snd];
        discriminate.
    - cbn [seq_act snd]. discriminate. }
  destruct (seq_act _ _) as [ev o]. cbn [snd] in *.
  split; [split |]; intros H; try discriminate; contradiction.
Qed.

Lemma main_unfold (pf : Platform) (argv : list pystr) (intr : interrupt) :
  main pf argv intr
  = match intr, parse_args pf argv with
    | BeforeTry, _ => ([], Interrupted)
    | _, None => ([], Exits)
    | InTry k, Some args =>
        if (k <=? List.length (fst (main_body pf args)))%nat
        then (firstn k (fst (main_body pf args)), Returns 130)
        else ends (fst (main_body pf args)) (snd (main_body pf args))
    | InHandler logged, Some args =>
        match snd (main_body pf args) with
        | Raised f =>
            (if logged then fst (main_body pf args) ++ [LoggedError f]
             else fst (main_body pf args), Interrupted)
        | _ => ends (fst (main_body pf args)) (snd (main_body pf args))
        end
    | NoInterrupt, Some args =>
        ends (fst (main_body pf args)) (snd (main_body pf args))
    end.
Proof.
  unfold main.
  destruct intr, (parse_args pf argv) as [args |]; auto;
    now destruct (main_body pf args).
Qed.

Lemma ends_events (ev : list event) (o : outcome Z) (e : event) :
  In e (fst (ends ev o))
  <-> In e ev \/ exists f, o = Raised f /\ e = LoggedError f.
Proof.
  destruct o as [code | f |]; cbn [ends fst].
  - split; auto. intros [H | (f & [=] & _)]; auto.
  - rewrite in_app_iff. simpl. split.
    + intros [H | [<- | []]]; auto. right. now exists f.
    + intros [H | (f' & [= <-] & ->)]; auto.
  - split; auto. intros [H | (f & [=] & _)]; auto.
Qed.

Lemma firstn_in {A : Type} (k : nat) (l : list A) (a : A) :
  In a (firstn k l) -> In a l.
Proof.
  intros H. rewrite <- (firstn_skipn k l). apply in_or_app. now left.
Qed.

Lemma main_events (pf : Platform) (argv : list pystr) (intr : interrupt)
    (e : event) :
  In e (fst (main pf argv intr)) ->
  exists args,
    parse_args pf argv = Some args
    /\ (In e (fst (main_body pf args))
        \/ exists f, snd (main_body pf args) = Raised f
                     /\ e = LoggedError f).
Proof.
  rewrite main_unfold.
  destruct intr as [| | k | logged], (parse_args pf argv) as [args |];
    try (intros []); intros H; exists args; (split; [reflexivity |]).
  - now apply ends_events.
  - destruct (k <=? List.length (fst (main_body pf args)))%nat.
    + left. now apply firstn_in in H.
    + now apply ends_events.
  - destruct (snd (main_body pf args)) as [code | f |] eqn:O;
      try (apply ends_events in H; exact H).
    cbn [fst] in H. destruct logged; auto.
    apply in_app_or in H. destruct H as [H | [<- | []]]; eauto.
Qed.

Lemma main_printed (pf : Platform) (argv : list pystr) (intr : interrupt)
    (score : Z) :
  In (Printed score) (fst (main pf argv intr)) ->
  (snd (main pf argv intr) = Returns 0
   \/ snd (main pf argv intr) = Returns 130)
  /\ exists args x1 y1 x2 y2 words,
       parse_args pf argv = Some args
       /\ requested_region args = (x1, y1, x2, y2)
       /\ x1 < x2 /\ y1 < y2
       /\ extract_words
            (image_to_data pf (grab pf (Some (x1, y1, x2 - x1, y2 - y1))))
          = Ok words
       /\ extract_total_agatston_score words = Ok score.
Proof.
  intros H. pose proof (main_events _ _ _ _ H) as (args & P & B).
  destruct B as [B | (f & _ & [=])].
  apply main_body_printed in B. destruct B as (D & x1 & y1 & x2 & y2 & ws & R).
  split; [| now exists args, x1, y1, x2, y2, ws].
  rewrite main_unfold, P, D.
  destruct intr as [| | k | logged]; cbn [ends snd]; auto.
  - rewrite main_unfold in H. destruct H.
  - destruct (k <=? List.length (fst (main_body pf args)))%nat;
      cbn [ends snd]; auto.
Qed.

Lemma main_zero_printed (pf : Platform) (argv : list pystr)
    (intr : interrupt) :
  snd (main pf argv intr) = Returns 0 ->
  exists score, In (Printed score) (fst (main pf argv intr)).
Proof.
  rewrite main_unfold.
  assert (E : forall args,
             snd (ends (fst (main_body pf args)) (snd (main_body pf args)))
             = Returns 0 ->
             exists score,
               In (Printed score)
                  (fst (ends (fst (main_body pf args))
                             (snd (main_body pf args))))).
  { intros args H.
    destruct (snd (main_body pf args)) as [code | f |] eqn:O;
      try discriminate.
    destruct (main_body_done pf args code O) as (_ & score & Hs).
    now exists score. }
  destruct intr as [| | k | logged], (parse_args pf argv) as [args |];
    try discriminate; auto.
  - destruct (k <=? List.length (fst (main_body pf args)))%nat;
      [discriminate | auto].
  - destruct (snd (main_body pf args)) as [code | f |] eqn:O;
      try discriminate; intros H; specialize (E args); rewrite O in E; auto.
Qed.

(** The exit code of [main].  It returns 0 only after it has printed a
    score, and what it prints is the score extracted from the words that the
    OCR engine recognised in the screenshot of the requested region, which
    has positive width and height; once a score is printed the code is 0, or
    130 when a keyboard interrupt comes in what is left of the [try] block.
    It returns 1 only with the error logged last and nothing printed, and
    130 exactly when a keyboard interrupt reaches the [try] block.  Without
    an interrupt it returns 0 exactly when it has printed a score, and
    otherwise returns 1 or is left by [SystemExit]. *)
Theorem main_exit_code (pf : Platform) (argv : list pystr)
    (intr : interrupt) :
  (snd (main pf argv intr) = Returns 0 ->
   exists score, In (Printed score) (fst (main pf argv intr)))
  /\ (forall score,
         In (Printed score) (fst (main pf argv intr)) ->
         (snd (main pf argv intr) = Returns 0
          \/ snd (main pf argv intr) = Returns 130)
         /\ exists args x1 y1 x2 y2 words,
              parse_args pf argv = Some args
              /\ requested_region args = (x1, y1, x2, y2)
              /\ x1 < x2 /\ y1 < y2
              /\ extract_words
                   (image_to_data pf
                      (grab pf (Some (x1, y1, x2 - x1, y2 - y1))))
                 = Ok words
              /\ extract_total_agatston_score words = Ok score)
  /\ (snd (main pf argv intr) = Returns 1 ->
      (exists ev f, fst (main pf argv intr) = ev ++ [LoggedError f])
      /\ forall score, ~ In (Printed score) (fst (main pf argv intr)))
  /\ (snd (main pf argv intr) = Returns 130
      <-> exists args k,
            parse_args pf argv = Some args /\ intr = InTry k
            /\ (k <= List.length (fst (main_body pf args)))%nat)
  /\ (forall code,
         snd (main pf argv intr) = Returns code ->
         code = 0 \/ code = 1 \/ code = 130)
  /\ (intr = NoInterrupt ->
      (snd (main pf argv intr) = Returns 0
       <-> exists score, In (Printed score) (fst (main pf argv intr)))
      /\ (snd (main pf argv intr) = Returns 0
          \/ snd (main pf argv intr) = Returns 1
          \/ snd (main pf argv intr) = Exits)).
Proof.
  assert (Z0 : forall args code,
             snd (ends (fst (main_body pf args)) (snd (main_body pf args)))
             = Returns code -> code = 0 \/ code = 1).
  { intros args code.
    destruct (snd (main_body pf args)) as [c | f |] eqn:O; cbn [ends snd];
      try discriminate.
    - destruct (main_body_done pf args c O) as (-> & _). intros [= <-]. auto.
    - intros [= <-]. auto. }
  split; [apply main_zero_printed |].
  split; [apply main_printed |].
  split; [| split; [| split]].
  - intros H. split.
    + rewrite main_unfold in *.
      destruct intr as [| | k | logged], (parse_args pf argv) as [args |];
        try discriminate;
        try destruct (k <=? List.length (fst (main_body pf args)))%nat;
        try discriminate;
        destruct (snd (main_body pf args)) as [c | f |] eqn:O;
        cbn [ends fst snd] in *; try discriminate; eauto;
        destruct (main_body_done pf args c O) as (-> & _); discriminate.
    + intros score P. apply main_printed in P.
      destruct P as [[P | P] _]; congruence.
  - rewrite main_unfold. split.
    + destruct intr as [| | k | logged], (parse_args pf argv) as [args |];
        try discriminate.
      * intros H. apply Z0 in H. lia.
      * destruct (k <=? List.length (fst (main_body pf args)))%nat eqn:K.
        -- intros _. exists args, k. apply Nat.leb_le in K. auto.
        -- intros H. apply Z0 in H. lia.
      * destruct (snd (main_body pf args)) as [c | f |] eqn:O;
          try discriminate; intros H;
          pose proof (Z0 args 130) as Z1; rewrite O in Z1;
          apply Z1 in H; lia.
    + intros (args & k & -> & -> & K). apply Nat.leb_le in K.
      now rewrite K.
  - intros code. rewrite main_unfold.
    destruct intr as [| | k | logged], (parse_args pf argv) as [args |];
      try discriminate.
    + intros H. apply Z0 in H. tauto.
    + destruct (k <=? List.length (fst (main_body pf args)))%nat.
      * intros [= <-]. auto.
      * intros H. apply Z0 in H. tauto.
    + destruct (snd (main_body pf args)) as [c | f |] eqn:O;
        try discriminate; intros H;
        pose proof (Z0 args code) as Z1; rewrite O in Z1;
        apply Z1 in H; tauto.
  - intros ->. split.
    + split; [apply main_zero_printed |].
      intros (score & P). pose proof (main_printed _ _ _ _ P) as [[R | R] _];
        auto.
      rewrite main_unfold in R.
      destruct (parse_args pf argv) as [args |]; [| discriminate].
      apply Z0 in R. lia.
    + rewrite main_unfold.
      destruct (parse_args pf argv) as [args |]; auto.
      destruct (snd (main_body pf args)) as [c | f |] eqn:O;
        cbn [ends snd]; auto.
      destruct (main_body_done pf args c O) as (-> & _). auto.
Qed.

(** [main] is left by [SystemExit] exactly when argparse refuses the
    command line (or is asked for help), or when an explicit Tesseract path
    does not exist, unless a keyboard interrupt comes first; nothing has
    been captured, recognised or printed then.  A region with another number
    of integers than four never reaches [ensure_region]: the parser has
    refused it. *)
Theorem main_system_exit (pf : Platform) (argv : list pystr)
    (intr : interrupt) :
  (snd (main pf argv intr) = Exits
   <-> intr <> BeforeTry
       /\ (parse_args pf argv = None
           \/ exists args c p,
                parse_args pf argv = Some args
                /\ arg_tesseract_path args = Some (c :: p)
                /\ path_exists pf (expandvars pf (c :: p)) = false
                /\ intr <> InTry 0))
  /\ (snd (main pf argv intr) = Exits -> fst (main pf argv intr) = [])
  /\ (forall args f,
         parse_args pf argv = Some args ->
         snd (main_body pf args) = Raised f -> f <> RegionArity).
Proof.
  assert (X : forall args,
             snd (ends (fst (main_body pf args)) (snd (main_body pf args)))
             = Exits <-> snd (main_body pf args) = SystemExit).
  { intros args. destruct (snd (main_body pf args)); cbn [ends snd];
      split; auto; discriminate. }
  assert (T : forall args,
             snd (main_body pf args) = SystemExit <->
             exists a c p,
               Some args = Some a
               /\ arg_tesseract_path a = Some (c :: p)
               /\ path_exists pf (expandvars pf (c :: p)) = false).
  { intros args. rewrite (proj1 (main_body_exits pf args)). split.
    - intros (c & p & H). now exists args, c, p.
    - intros (a & c & p & [= <-] & H). now exists c, p. }
  split; [| split].
  - rewrite main_unfold.
    destruct intr as [| | k | logged], (parse_args pf argv) as [args |].
    + rewrite X, T. split.
      * intros (a & c & p & E & H & K). split; [discriminate |]. right.
        exists a, c, p. repeat split; auto. discriminate.
      * intros [_ [[=] | (a & c & p & E & H & K & _)]]. now exists a, c, p.
    + split; auto. intros _. split; [discriminate | auto].
    + split; [discriminate | now intros [N _]].
    + split; [discriminate | now intros [N _]].
    + destruct (k <=? List.length (fst (main_body pf args)))%nat eqn:K.
      * split; [discriminate |].
        intros [_ [[=] | (a & c & p & [= <-] & H & Q & N)]].
        assert (S : snd (main_body pf args) = SystemExit)
          by (apply main_body_exits; now exists c, p).
        apply main_body_exits in S. rewrite S in K. cbn in K.
        destruct k; [congruence | discriminate].
      * rewrite X, T. split.
        -- intros (a & c & p & [= <-] & H & Q). split; [discriminate |].
           right. exists args, c, p. repeat split; auto. intros [= ->].
           discriminate.
        -- intros [_ [[=] | (a & c & p & E & H & Q & _)]].
           now exists a, c, p.
    + split; auto. intros _. split; [discriminate | auto].
    + destruct (snd (main_body pf args)) as [c0 | f |] eqn:O.
      * split; [discriminate |].
        intros [_ [[=] | (a & c & p & [= <-] & H & Q & _)]].
        assert (S : snd (main_body pf args) = SystemExit)
          by (apply main_body_exits; now exists c, p).
        congruence.
      * split; [discriminate |].
        intros [_ [[=] | (a & c & p & [= <-] & H & Q & _)]].
        assert (S : snd (main_body pf args) = SystemExit)
          by (apply main_body_exits; now exists c, p).
        congruence.
      * cbn [ends snd]. split; auto. intros _. split; [discriminate |].
        right. apply (proj1 (main_body_exits pf args)) in O.
        destruct O as (c & p & H & Q). exists args, c, p.
        repeat split; auto. discriminate.
    + split; auto. intros _. split; [discriminate | auto].
  - rewrite main_unfold.
    destruct intr as [| | k | logged], (parse_args pf argv) as [args |];
      try discriminate; auto;
      try destruct (k <=? List.length (fst (main_body pf args)))%nat;
      try discriminate;
      destruct (snd (main_body pf args)) as [c0 | f |] eqn:O;
      cbn [ends fst snd]; try discriminate;
      intros _; now apply main_body_exits.
  - intros args f _. rewrite main_body_shape.
    destruct (configure_tesseract_ends pf (arg_tesseract_path args))
      as [D | [X' _]];
      destruct (configure_tesseract pf (arg_tesseract_path args))
        as [e1 o1]; cbn [snd] in *; subst; cbn [seq_act snd];
      [| discriminate].
    destruct (capture_region_ends pf (requested_region args)
                (arg_screenshot_path args)) as [(image & C) | ->].
    + destruct (capture_region pf _ _) as [e2 o2]. cbn [snd] in C.
      subst o2. cbn [seq_act].
      destruct (after_capture_ends pf image (negb (arg_no_popup args)))
        as [A | (e & A)];
        destruct (after_capture pf image (negb (arg_no_popup args)))
          as [e3 o3]; cbn [snd] in A; subst o3; cbn [seq_act ret snd];
        [discriminate | intros [= <-]; discriminate].
    + cbn [seq_act snd]. intros [= <-]. discriminate.
Qed.

(** ** [process_once] *)

Lemma capture_monitor_lock (self : PatternExtractorObj) (pf : Platform)
    (held : bool) :
  capture_monitor (with_lock self held) pf = capture_monitor self pf.
Proof. reflexivity. Qed.


Lemma capture_monitor_events (self : PatternExtractorObj) (pf : Platform)
    (e : event) :
  In e (fst (capture_monitor self pf)) ->
  e = Saved \/ e = Grabbed None
  \/ exists x y w h, e = Grabbed (Some (x, y, w, h)) /\ 0 < w /\ 0 < h.
Proof.
  unfold capture_monitor, save_debug.
  destruct (monitor_region (config self)) as [[[[x1 y1] x2] y2] |].
  - destruct ((x2 <=? x1) || (y2 <=? y1)) eqn:B; [intros [] |].
    apply orb_false_iff in B. destruct B as [Bx By].
    apply Z.leb_gt in Bx, By.
    destruct (debug_dir self); cbn [fst]; intros H;
      repeat (destruct H as [<- | H]); auto; try destruct H;
      right; right; exists x1, y1, (x2 - x1), (y2 - y1); repeat split; lia.
  - destruct (debug_dir self); cbn [fst]; intros H;
      repeat (destruct H as [<- | H]); auto; destruct H.
Qed.

Lemma process_body_shape (self : PatternExtractorObj) (pf : Platform) :
  process_body self pf
  = seq_act (capture_monitor self pf) (fun captured =>
    seq_act (lift (detect_pattern (config self) (fst captured)
                                  (snd captured)))
            (fun _ => after_capture pf (fst captured) (use_popup self))).
Proof.
  unfold process_body, after_capture.
  destruct (capture_monitor self pf) as [ev [[image origin] | f |]]; auto.
Qed.


(** The state of the object that [process_once] does not touch. *)
Lemma process_body_state (self : PatternExtractorObj) (pf : Platform)
    (held : bool) (t : Q) :
  process_body (with_last_capture_at (with_lock self held) t) pf
  = process_body self pf.
Proof. reflexivity. Qed.


Lemma process_once_events (self : PatternExtractorObj) (pf : Platform)
    (e : event) :
  _lock self = false ->
  (In e (fst (fst (process_once self pf)))
   <-> In e (fst (process_body self pf))
       \/ exists f, snd (process_body self pf) = Raised f
                    /\ e = LoggedError f).
Proof.
  intros L. unfold process_once. rewrite L. cbv zeta.
  rewrite process_body_state.
  destruct (process_body self pf) as [ev [[] | f |]]; cbn [fst snd].
  - split; auto. intros [H | (f & [=] & _)]; auto.
  - rewrite in_app_iff. simpl. split.
    + intros [H | [<- | []]]; auto. right. now exists f.
    + intros [H | (f' & [= <-] & ->)]; auto.
  - split; auto. intros [H | (f & [=] & _)]; auto.
Qed.

(** With the lock free, [process_once] prints a score exactly when the
    capture succeeds, some pattern matches the screenshot, and the
    extraction succeeds on the words recognised in it; and it asks the OCR
    engine for words only when a pattern has matched: without a matching
    pattern nothing is recognised or printed, although the score does not
    depend on the pattern. *)
Theorem process_once_needs_pattern (self : PatternExtractorObj)
    (pf : Platform) :
  _lock self = false ->
  (forall score,
      In (Printed score) (fst (fst (process_once self pf)))
      <-> exists image origin pattern words,
            snd (capture_monitor self pf) = Done (image, origin)
            /\ detect_pattern (config self) image origin = Ok pattern
            /\ extract_words (image_to_data pf image) = Ok words
            /\ extract_total_agatston_score words = Ok score)
  /\ (In Recognised (fst (fst (process_once self pf))) ->
      exists image origin pattern,
        snd (capture_monitor self pf) = Done (image, origin)
        /\ detect_pattern (config self) image origin = Ok pattern).
Proof.
  intros L.
  assert (K : forall e,
             (forall f, e <> LoggedError f) -> e <> Saved ->
             (forall r, e <> Grabbed r) ->
             (In e (fst (fst (process_once self pf)))
              <-> exists image origin pattern,
                    snd (capture_monitor self pf) = Done (image, origin)
                    /\ detect_pattern (config self) image origin = Ok pattern
                    /\ In e (fst (after_capture pf image (use_popup self))))).
  { intros e N1 N2 N3. rewrite (process_once_events self pf e L).
    rewrite process_body_shape, seq_act_events. split.
    - intros [[H | (captured & C & H)] | (f & _ & ->)];
        [| | now destruct (N1 f)].
      + apply capture_monitor_events in H.
        destruct H as [-> | [-> | (? & ? & ? & ? & -> & _)]];
          [congruence | now destruct (N3 None)
           | exfalso; eapply N3; reflexivity].
      + destruct captured as [image origin]. cbn [fst snd] in H.
        destruct (detect_pattern (config self) image origin) as [p |] eqn:D;
          cbn [lift seq_act] in H; [| destruct H].
        destruct (after_capture pf image (use_popup self)) as [ev o] eqn:A.
        cbn [fst app] in H. exists image, origin, p. now rewrite A.
    - intros (image & origin & p & C & D & H). left. right.
      exists (image, origin). split; auto. cbn [fst snd]. rewrite D.
      cbn [lift seq_act].
      destruct (after_capture pf image (use_popup self)) as [ev o].
      assumption. }
  split.
  - intros score. rewrite K by discriminate. split.
    + intros (image & origin & p & C & D & H).
      apply after_capture_printed in H. destruct H as (words & W & S).
      now exists image, origin, p, words.
    + intros (image & origin & p & words & C & D & W & S).
      exists image, origin, p. repeat split; auto.
      apply after_capture_printed. now exists words.
  - intros H. apply K in H; try discriminate.
    destruct H as (image & origin & p & C & D & _). now exists image, origin, p.
Qed.

(** Every screenshot that [main] or [process_once] takes of a region has
    positive width and height: a region with [x2 <= x1] or [y2 <= y1] is
    refused before the platform is asked. *)
Theorem grabs_have_positive_size (pf : Platform) (xx yy w h : Z) :
  (forall argv intr,
      In (Grabbed (Some (xx, yy, w, h))) (fst (main pf argv intr)) ->
      0 < w /\ 0 < h)
  /\ (forall self,
         In (Grabbed (Some (xx, yy, w, h)))
            (fst (fst (process_once self pf))) ->
         0 < w /\ 0 < h).
Proof.
  split.
  - intros argv intr H. apply main_events in H.
    destruct H as (args & _ & [H | (f & _ & [=])]).
    rewrite main_body_shape in H.
    apply seq_act_events in H. destruct H as [H | (u & _ & H)].
    { apply configure_tesseract_events in H.
      destruct H as [(cmd & [=]) | [=]]. }
    apply seq_act_events in H. destruct H as [H | (image & _ & H)].
    { apply capture_region_events in H.
      destruct H as [[=] | (? & ? & ? & ? & [= <- <- <- <-] & P)]. exact P. }
    apply seq_act_events in H. destruct H as [H | (v & _ & [])].
    apply after_capture_events in H.
    destruct H as [[=] | [[=] | [[=] | (s & [[=] | [=]])]]].
  - intros self H. destruct (_lock self) eqn:L.
    + unfold process_once in H. rewrite L in H.
      destruct H as [[=] | []].
    + apply (process_once_events self pf _ L) in H.
      destruct H as [H | (f & _ & [=])]. rewrite process_body_shape in H.
      apply seq_act_events in H. destruct H as [H | (captured & _ & H)].
      { apply capture_monitor_events in H.
        destruct H as [[=] | [[=] | (? & ? & ? & ? & [= <- <- <- <-] & P)]].
        exact P. }
      destruct (detect_pattern _ _ _); cbn [lift seq_act] in H;
        [| destruct H].
      destruct (after_capture pf (fst captured) (use_popup self)) as [ev o]
        eqn:A.
      cbn [fst app] in H.
      assert (H' : In (Grabbed (Some (xx, yy, w, h)))
                      (fst (after_capture pf (fst captured) (use_popup self))))
        by (now rewrite A).
      apply after_capture_events in H'.
      destruct H' as [[=] | [[=] | [[=] | (s & [[=] | [=]])]]].
Qed.

(** ** The frame of a captured monitor *)

(** When the configured monitor region is proper and the platform returns a
    screenshot of the requested size, an anchor, given in absolute screen
    coordinates, falls inside the captured image exactly when it lies in the
    monitor region; a pattern with an anchor outside the region therefore
    does not match the capture. *)
Theorem capture_monitor_frame (self : PatternExtractorObj) (pf : Platform)
    (x1 y1 x2 y2 : Z) :
  monitor_region (config self) = Some (x1, y1, x2, y2) ->
  x1 < x2 -> y1 < y2 ->
  size (grab pf (Some (x1, y1, x2 - x1, y2 - y1))) = (x2 - x1, y2 - y1) ->
  let image := grab pf (Some (x1, y1, x2 - x1, y2 - y1)) in
  snd (capture_monitor self pf) = Done (image, (x1, y1))
  /\ (forall a, inside image (local_xy (x1, y1) a)
                <-> x1 <= x a < x2 /\ y1 <= y a < y2)
  /\ (forall p a,
         In a (anchors p) -> ~ (x1 <= x a < x2 /\ y1 <= y a < y2) ->
         matches p image (x1, y1) = Ok false).
Proof.
  intros R Hx Hy S image.
  assert (F : forall a, inside image (local_xy (x1, y1) a)
                        <-> x1 <= x a < x2 /\ y1 <= y a < y2).
  { intros a. unfold inside, local_xy. fold image in S. rewrite S.
    cbn [fst snd]. lia. }
  split; [| split; auto].
  - unfold capture_monitor. rewrite R.
    replace ((x2 <=? x1) || (y2 <=? y1)) with false; [reflexivity |].
    symmetry. apply orb_false_iff. split; apply Z.leb_gt; lia.
  - intros p a Hin Hout. unfold matches. rewrite matches_run_check.
    apply check_anchors_outside. exists a. split; auto.
    intros H. apply Hout. now apply F.
Qed.

(** ** Patterns with equal keys *)

Lemma same_key_leb (p a b : PatternDefinition) :
  same_key p a = true -> same_key p b = true -> key_leb a b = true.
Proof.
  unfold same_key, key_leb. rewrite !andb_true_iff, !Z.eqb_eq, !pystr_eqb_eq.
  intros [Pa Na] [Pb Nb]. rewrite Pa, Pb, Z.compare_refl, Na, Nb.
  unfold pystr_compare.
  now rewrite (proj2 (list_compare_refl pychar_compare pychar_compare_eq
                        (name p) (name p)) eq_refl).
Qed.

Lemma insert_sorted_same_key (p a : PatternDefinition)
    (l : list PatternDefinition) :
  filter (same_key p) (insert_sorted key_leb a l)
  = filter (same_key p) (a :: l).
Proof.
  induction l as [| b l IH]; [reflexivity |].
  cbn [insert_sorted]. destruct (key_leb a b) eqn:E; [reflexivity |].
  cbn [filter] in *. rewrite IH.
  destruct (same_key p a) eqn:A; destruct (same_key p b) eqn:B; auto.
  rewrite (same_key_leb p a b A B) in E. discriminate.
Qed.

Lemma stable_sort_same_key (p : PatternDefinition)
    (l : list PatternDefinition) :
  filter (same_key p) (stable_sort key_leb l) = filter (same_key p) l.
Proof.
  induction l as [| a l IH]; [reflexivity |].
  cbn [stable_sort fold_right]. fold (stable_sort key_leb l).
  rewrite insert_sorted_same_key. cbn [filter]. now rewrite IH.
Qed.

(** Patterns with the same priority and name keep their load order in the
    configuration: those of the configuration file come before those of the
    pattern files, each group in its own order, so detection tries them in
    the order in which they were loaded. *)
Theorem from_sources_keeps_load_order
    (config_patterns file_patterns : list PatternDefinition)
    (hotkey_override data_hotkey : option pystr)
    (region_override data_region : option (list Z))
    (cfg : ExtractorConfig) (p : PatternDefinition) :
  from_sources config_patterns file_patterns hotkey_override data_hotkey
               region_override data_region = Some cfg ->
  filter (same_key p) (patterns cfg)
  = filter (same_key p) config_patterns ++ filter (same_key p) file_patterns.
Proof.
  intros H. rewrite <- filter_app.
  assert (P : patterns cfg
              = stable_sort key_leb (config_patterns ++ file_patterns)).
  { unfold from_sources in H.
    destruct (config_patterns ++ file_patterns); [discriminate |].
    destruct (match region_override with
              | Some (v :: r) => option_map Some (region_of (v :: r))
              | _ => match data_region with
                     | Some region_seq => option_map Some (region_of region_seq)
                     | None => Some None
                     end
              end); [| discriminate].
    now injection H as <-. }
  rewrite P. apply stable_sort_same_key.
Qed.

(** ** Detection as the least matching pattern *)

Lemma detect_loop_filter (ps : list PatternDefinition) (image : Image)
    (origin : Z * Z) :
  snd (detect_loop ps image origin)
  = match filter (matching image origin) ps with
    | p :: _ => Ok p
    | [] => Raise NoPatternMatched
    end.
Proof.
  induction ps as [| q ps IH]; [reflexivity |].
  rewrite detect_loop_cons. cbn [filter]. unfold matching at 1.
  destruct (matches_total q image origin) as [M | M]; rewrite M; cbn [snd];
    auto.
Qed.

Lemma insert_sorted_head (a : PatternDefinition) (l : list PatternDefinition) :
  Forall (key_le a) l -> insert_sorted key_leb a l = a :: l.
Proof.
  destruct l as [| b l]; [reflexivity |]. intros F. inversion F; subst.
  cbn [insert_sorted]. now rewrite (proj2 (key_leb_le a b)).
Qed.

Lemma filter_insert_sorted (f : PatternDefinition -> bool)
    (a : PatternDefinition) (l : list PatternDefinition) :
  StronglySorted key_le l ->
  filter f (insert_sorted key_leb a l)
  = if f a then insert_sorted key_leb a (filter f l) else filter f l.
Proof.
  induction l as [| b l IH]; intros S.
  - simpl. now destruct (f a).
  - inversion S as [| ? ? Sl Fb]; subst. cbn [insert_sorted].
    destruct (key_leb a b) eqn:E.
    + cbn [filter]. destruct (f a); auto.
      rewrite insert_sorted_head; auto.
      apply key_leb_le in E.
      assert (Fa : Forall (key_le a) (b :: l)).
      { constructor; auto. eapply Forall_impl; [| exact Fb].
        intros c. now apply key_le_trans. }
      apply Forall_forall. intros c Hc.
      rewrite Forall_forall in Fa. apply Fa.
      replace (if f b then b :: filter f l else filter f l)
        with (filter f (b :: l)) in Hc by reflexivity.
      apply filter_In in Hc. tauto.
    + cbn [filter]. rewrite (IH Sl).
      destruct (f a); destruct (f b); auto.
      cbn [insert_sorted]. now rewrite E.
Qed.

Lemma stable_sort_filter (f : PatternDefinition -> bool)
    (l : list PatternDefinition) :
  filter f (stable_sort key_leb l) = stable_sort key_leb (filter f l).
Proof.
  induction l as [| a l IH]; [reflexivity |].
  cbn [stable_sort fold_right filter]. fold (stable_sort key_leb l).
  rewrite filter_insert_sorted by apply stable_sort_keys.
  rewrite IH. now destruct (f a).
Qed.

(** Detection returns the least pattern, in the order of (priority, name),
    among the loaded patterns that match the screenshot, and fails exactly
    when none matches: the patterns that do not match have no influence on
    the result. *)
Theorem detect_least_matching
    (config_patterns file_patterns : list PatternDefinition)
    (hotkey_override data_hotkey : option pystr)
    (region_override data_region : option (list Z))
    (cfg : ExtractorConfig) (screenshot : Image) (origin : Z * Z) :
  from_sources config_patterns file_patterns hotkey_override data_hotkey
               region_override data_region = Some cfg ->
  detect_pattern cfg screenshot origin
  = match stable_sort key_leb
            (filter (matching screenshot origin)
                    (config_patterns ++ file_patterns)) with
    | p :: _ => Ok p
    | [] => Raise NoPatternMatched
    end.
Proof.
  intros H.
  assert (P : patterns cfg
              = stable_sort key_leb (config_patterns ++ file_patterns)).
  { unfold from_sources in H.
    destruct (config_patterns ++ file_patterns); [discriminate |].
    destruct (match region_override with
              | Some (v :: r) => option_map Some (region_of (v :: r))
              | _ => match data_region with
                     | Some region_seq => option_map Some (region_of region_seq)
                     | None => Some None
                     end
              end); [| discriminate].
    now injection H as <-. }
  unfold detect_pattern. rewrite detect_loop_filter, P.
  now rewrite stable_sort_filter.
Qed.

(** ** Words that cannot change a same-row result *)

(** When the fallback is not taken, a further word that is neither a row
    anchor nor a column word and that shares its OCR line with no row anchor
    changes nothing, wherever it stands in the word list: the outcome and
    the log stay the same. *)
Theorem same_row_result_is_local (ws1 ws2 : list OCRWord) (w : OCRWord) :
  is_total w = false -> is_agatston w = false ->
  (forall a, In a (ws1 ++ ws2) -> is_total a = true ->
             same_ocr_line a w = false) ->
  ~ In WarningFallback (extract_log (ws1 ++ ws2)) ->
  extract_total_agatston_score_run (ws1 ++ w :: ws2)
  = extract_total_agatston_score_run (ws1 ++ ws2).
Proof.
  intros Ht Ha Hl Hf.
  assert (R : row_anchors (ws1 ++ w :: ws2) = row_anchors (ws1 ++ ws2)).
  { unfold row_anchors. rewrite !filter_app. cbn [filter]. now rewrite Ht. }
  assert (C : column_words (ws1 ++ w :: ws2) = column_words (ws1 ++ ws2)).
  { unfold column_words. rewrite !filter_app. cbn [filter]. now rewrite Ha. }
  assert (M : column_mean (ws1 ++ w :: ws2) = column_mean (ws1 ++ ws2)).
  { unfold column_mean. now rewrite C. }
  assert (B : forall c,
             pick_all (row_best (ws1 ++ w :: ws2) c) (row_anchors (ws1 ++ ws2))
             = pick_all (row_best (ws1 ++ ws2) c) (row_anchors (ws1 ++ ws2))).
  { intros c. apply pick_all_ext. intros a Hin.
    apply filter_In in Hin. destruct Hin as [Hin Hta].
    unfold row_best, numbers_on_line. rewrite !filter_app. cbn [filter].
    now rewrite (Hl a Hin Hta). }
  apply (proj1 (not_iff_compat (fallback_ran_iff (ws1 ++ ws2)))) in Hf.
  rewrite !run_shape, R, C, M. cbv zeta. rewrite B.
  destruct (row_anchors (ws1 ++ ws2)) as [| a0 r0] eqn:Er; auto.
  destruct (column_words (ws1 ++ ws2)) as [| k0 c0] eqn:Ec; auto.
  destruct (pick_all _ (a0 :: r0)) as [| first rest] eqn:Ep; auto.
  exfalso. apply Hf. repeat split; auto; discriminate.
Qed.

(** ** Instances *)

Lemma negative_tolerance_never_matches_witness :
  matches MoreSamples.p_negative Samples.screen Samples.origin = Ok false.
Proof.
  apply (negative_tolerance_never_matches MoreSamples.p_negative).
  exists MoreSamples.anchor_negative. split; [in_list | reflexivity].
Defined.

Lemma matches_monotone_in_tolerance_witness :
  matches MoreSamples.p_loose Samples.screen Samples.origin = Ok true.
Proof.
  apply (matches_monotone_in_tolerance Samples.p_alpha MoreSamples.p_loose).
  - constructor; [| constructor].
    unfold loosened. simpl. repeat split. lia.
  - reflexivity.
Defined.

Lemma extract_words_texts_witness :
  Forall (fun w => text w <> [] /\ trimmed (text w)
                   /\ strip (text w) = text w)
         [make_word (str "Total") Samples.t_total;
          make_word (str "12") Samples.t_number]
  /\ (2 <= 4)%nat.
Proof.
  apply (extract_words_texts Samples.tokens). reflexivity.
Defined.

Lemma label_matching_ignores_case_witness :
  is_total Samples.w_total = is_total (Samples.word "TOTAL" 0 0 1 1 1 1)
  /\ is_agatston Samples.w_total
     = is_agatston (Samples.word "TOTAL" 0 0 1 1 1 1).
Proof.
  apply (label_matching_ignores_case Samples.w_total). reflexivity.
Defined.

Lemma extraction_ignores_confidence_witness :
  extract_total_agatston_score_run Samples.report_row
  = extract_total_agatston_score_run MoreSamples.report_other_run.
Proof.
  apply (extraction_ignores_confidence Samples.report_row).
  repeat constructor.
Defined.

Lemma normalize_hotkey_ignores_case_witness :
  normalize_hotkey (str "Ctrl + F8") = normalize_hotkey (str "cTRL + f8").
Proof.
  apply (normalize_hotkey_ignores_case (str "Ctrl + F8")). reflexivity.
Defined.

Lemma normalize_hotkey_idempotent_witness :
  normalize_hotkey (str "<ctrl>+<shift>+<f8>+s")
  = Some (str "<ctrl>+<shift>+<f8>+s").
Proof.
  apply (normalize_hotkey_idempotent (str " Control+SHIFT + F8+s")).
  reflexivity.
Defined.

Lemma process_once_needs_pattern_witness :
  In (Printed 222)
     (fst (fst (process_once MoreSamples.extractor MoreSamples.platform)))
  <-> exists image origin pattern words,
        snd (capture_monitor MoreSamples.extractor MoreSamples.platform)
        = Done (image, origin)
        /\ detect_pattern (config MoreSamples.extractor) image origin
           = Ok pattern
        /\ extract_words (image_to_data MoreSamples.platform image) = Ok words
        /\ extract_total_agatston_score words = Ok 222.
Proof.
  apply (proj1 (process_once_needs_pattern MoreSamples.extractor
                  MoreSamples.platform eq_refl)).
Defined.

Lemma capture_monitor_frame_witness :
  snd (capture_monitor MoreSamples.extractor MoreSamples.platform)
  = Done (grab MoreSamples.platform (Some (10, 20, 14 - 10, 23 - 20)),
          (10, 20)).
Proof.
  apply (capture_monitor_frame MoreSamples.extractor MoreSamples.platform
           10 20 14 23); [reflexivity | lia | lia | reflexivity].
Defined.

Lemma from_sources_keeps_load_order_witness :
  filter (same_key Samples.p_default) (patterns Samples.config)
  = filter (same_key Samples.p_default) [Samples.p_default]
    ++ filter (same_key Samples.p_default) [Samples.p_strict].
Proof.
  apply (from_sources_keeps_load_order [Samples.p_default] [Samples.p_strict]
           None None (Some [1920; 0; 3840; 1080]) None).
  reflexivity.
Defined.

Lemma detect_least_matching_witness :
  detect_pattern Samples.config Samples.screen Samples.origin
  = match stable_sort key_leb
            (filter (matching Samples.screen Samples.origin)
                    ([Samples.p_default] ++ [Samples.p_strict])) with
    | p :: _ => Ok p
    | [] => Raise NoPatternMatched
    end.
Proof.
  apply (detect_least_matching [Samples.p_default] [Samples.p_strict]
           None None (Some [1920; 0; 3840; 1080]) None).
  reflexivity.
Defined.

Lemma same_row_result_is_local_witness :
  extract_total_agatston_score_run
    (Samples.report_row ++ MoreSamples.w_elsewhere :: [])
  = extract_total_agatston_score_run (Samples.report_row ++ []).
Proof.
  apply (same_row_result_is_local Samples.report_row []
           MoreSamples.w_elsewhere).
  - reflexivity.
  - reflexivity.
  - intros a Hin Ht. simpl in Hin.
    repeat (destruct Hin as [<- | Hin]; [try reflexivity; discriminate |]).
    destruct Hin.
  - simpl. intros [H | H]; [discriminate | exact H].
Defined.

Example driver_runs :
  main MoreSamples.platform MoreSamples.argv NoInterrupt
  = ([Grabbed (Some (10, 20, 4, 3)); Recognised; Printed 222], Returns 0)
  /\ main MoreSamples.platform MoreSamples.argv (InTry 2)
     = ([Grabbed (Some (10, 20, 4, 3)); Recognised], Returns 130)
  /\ main MoreSamples.platform MoreSamples.argv (InTry 3)
     = ([Grabbed (Some (10, 20, 4, 3)); Recognised; Printed 222],
        Returns 130)
  /\ main MoreSamples.platform [str "--region"; str "1"] NoInterrupt
     = ([], Exits)
  /\ process_once MoreSamples.extractor MoreSamples.platform
     = ([Grabbed (Some (10, 20, 4, 3)); Recognised; Printed 222],
        with_last_capture_at MoreSamples.extractor 1700000000%Q, false).
Proof. repeat split. Qed.

Example hotkey_forms :
  normalize_hotkey (str "Ctrl+Shift+S") = Some (str "<ctrl>+<shift>+s")
  /\ normalize_hotkey (str " f12 ") = Some (str "<f12>")
  /\ normalize_hotkey (str " + ") = None.
Proof. repeat split. Qed.
